(** * Hexagonal renderer of libtiled: coordinate system and rasterisation

    A shallow embedding of [src/libtiled/hexagonalrenderer.cpp] and
    [src/libtiled/workspace.h], and of [ClipboardManager::update] of
    [src/tiled/clipboardmanager.cpp].

    Conventions of the embedding:
    - a C++ [int] is a [Z]; signed overflow is undefined behaviour in C++,
      so every statement is about runs in which no intermediate value leaves
      the range of [int];
    - [/] on [int] is [Z.quot] (truncation towards zero), [&], [^] and [~]
      are [Z.land], [Z.lxor] and [Z.lnot];
    - a [qreal] is a rational [Q].  The drawing routines convert whole
      pixels only, and for them [screenToTileCoords] is written with exact
      arithmetic.  The function itself is embedded a second time, as
      [screenToTileCoordsF], with the rounding of its [double]s and of the
      [float]s of its [QVector2D]s; [screenToTileCoordsF_on_pixels] shows
      that the two agree on whole pixels for tiles of up to 1024 by 1024
      pixels, where a [float] holds every squared distance exactly, and C1,
      X5 and X7 are about [screenToTileCoordsF];
    - the painter is an output log: every drawing routine returns the list of
      the calls it makes on the painter, in order. *)

From Stdlib Require Import String ZArith Zquot QArith Qround List Bool Sorted Lia Lqa.
Import ListNotations.

Local Open Scope Z_scope.

(** ** Points *)

Definition QPoint : Type := (Z * Z)%type.

Definition padd (a b : QPoint) : QPoint := (fst a + fst b, snd a + snd b).
Definition psub (a b : QPoint) : QPoint := (fst a - fst b, snd a - snd b).

Definition QPointF : Type := (Q * Q)%type.

Definition toPointF (a : QPoint) : QPointF := (inject_Z (fst a), inject_Z (snd a)).

(** [qFloor] and [qCeil]. *)
Definition qFloor (x : Q) : Z := Qfloor x.
Definition qCeil (x : Q) : Z := Qceiling x.

(** ** workspace.h *)

Module Workspace.

Record t : Type := make
  { width : Z; height : Z; tileWidth : Z; tileHeight : Z }.

(** The default constructor. *)
Definition default : t := make 0 0 0 0.

(** [QSize tileSize() const { return QSize(mWidth, mHeight); }] *)
Definition tileSize (w : t) : Z * Z := (width w, height w).

End Workspace.

(** ** The part of map.h that the renderer reads *)

Module Map.

Inductive Orientation : Type :=
  Unknown | Orthogonal | Isometric | Staggered | Hexagonal.

Inductive StaggerAxis : Type := StaggerX | StaggerY.

(** The enumerators have the values 0 and 1, which the neighbour lookups
    use in [(x & 1) ^ staggerIndex]. *)
Inductive StaggerIndex : Type := StaggerOdd | StaggerEven.

Definition StaggerIndex_value (i : StaggerIndex) : Z :=
  match i with StaggerOdd => 0 | StaggerEven => 1 end.

Record t : Type := make
  { orientation : Orientation;
    staggerAxis : StaggerAxis;
    staggerIndex : StaggerIndex;
    hexSideLength : Z }.

Definition isHexagonal (m : t) : bool :=
  match orientation m with Hexagonal => true | _ => false end.

Definition isStaggerX (m : t) : bool :=
  match staggerAxis m with StaggerX => true | StaggerY => false end.

Definition isStaggerEven (m : t) : bool :=
  match staggerIndex m with StaggerEven => true | StaggerOdd => false end.

End Map.

(** ** RenderParams *)

Module RenderParams.

Record t : Type := make
  { tileWidth : Z;
    tileHeight : Z;
    sideLengthX : Z;
    sideLengthY : Z;
    sideOffsetX : Z;
    sideOffsetY : Z;
    rowHeight : Z;
    columnWidth : Z;
    staggerX : bool;
    staggerEven : bool }.

(** [RenderParams::RenderParams(const Map *map, const Workspace &workspace)] *)
Definition new (map : Map.t) (workspace : Workspace.t) : t :=
  let tileWidth := Z.land (Workspace.tileWidth workspace) (Z.lnot 1) in
  let tileHeight := Z.land (Workspace.tileHeight workspace) (Z.lnot 1) in
  let staggerX := Map.isStaggerX map in
  let staggerEven := Map.isStaggerEven map in
  let sideLengthX :=
    if Map.isHexagonal map && staggerX then Map.hexSideLength map else 0 in
  let sideLengthY :=
    if Map.isHexagonal map && negb staggerX then Map.hexSideLength map else 0 in
  let sideOffsetX := (tileWidth - sideLengthX) ÷ 2 in
  let sideOffsetY := (tileHeight - sideLengthY) ÷ 2 in
  {| tileWidth := tileWidth;
     tileHeight := tileHeight;
     sideLengthX := sideLengthX;
     sideLengthY := sideLengthY;
     sideOffsetX := sideOffsetX;
     sideOffsetY := sideOffsetY;
     rowHeight := sideOffsetY + sideLengthY;
     columnWidth := sideOffsetX + sideLengthX;
     staggerX := staggerX;
     staggerEven := staggerEven |}.

(** Modelled from the spec: [doStaggerX] and [doStaggerY] are declared in
    hexagonalrenderer.h, which is not among the sources.  The spec gives
    both as [staggerEven ? (index%2==0) : (index%2!=0)]; every call in
    hexagonalrenderer.cpp is in the branch of the matching stagger axis. *)
Definition isStaggeredIndex (p : t) (index : Z) : bool :=
  if staggerEven p then Z.rem index 2 =? 0 else negb (Z.rem index 2 =? 0).

Definition doStaggerX (p : t) (x : Z) : bool := isStaggeredIndex p x.
Definition doStaggerY (p : t) (y : Z) : bool := isStaggeredIndex p y.

End RenderParams.

Import RenderParams.

(** ** Size of the whole grid *)

(** [HexagonalRenderer::workSize] *)
Definition workSize (map : Map.t) (workspace : Workspace.t) : Z * Z :=
  let p := RenderParams.new map workspace in
  if staggerX p then
    let w := Workspace.width workspace * columnWidth p + sideOffsetX p in
    let h := Workspace.height workspace * (tileHeight p + sideLengthY p) in
    if 1 <? Workspace.width workspace then (w, h + rowHeight p) else (w, h)
  else
    let w := Workspace.width workspace * (tileWidth p + sideLengthX p) in
    let h := Workspace.height workspace * rowHeight p + sideOffsetY p in
    if 1 <? Workspace.height workspace then (w + columnWidth p, h) else (w, h).

(** ** Coordinate conversion *)

(** [HexagonalRenderer::tileToScreenCoords].  The result is a [QPointF] built
    from two [int]s. *)
Definition tileToScreenCoords (map : Map.t) (workspace : Workspace.t)
    (x y : Q) : QPoint :=
  let p := RenderParams.new map workspace in
  let tileX := qFloor x in
  let tileY := qFloor y in
  if staggerX p then
    let pixelY := tileY * (tileHeight p + sideLengthY p) in
    let pixelY := if doStaggerX p tileX then pixelY + rowHeight p else pixelY in
    (tileX * columnWidth p, pixelY)
  else
    let pixelX := tileX * (tileWidth p + sideLengthX p) in
    let pixelX := if doStaggerY p tileY then pixelX + columnWidth p else pixelX in
    (pixelX, tileY * rowHeight p).

(** The overload on a [QPoint], as the drawing routines call it:
    [tileToScreenCoords(tile, workspace).toPoint()]. *)
Definition tileToScreenCoordsP (map : Map.t) (workspace : Workspace.t)
    (tile : QPoint) : QPoint :=
  tileToScreenCoords map workspace (inject_Z (fst tile)) (inject_Z (snd tile)).

(** [(center - rel).lengthSquared()] with exact arithmetic;
    [QVector2D.lengthSquared] below rounds as the [float]s of a [QVector2D]
    do. *)
Definition lengthSquared (center : QPoint) (rel : QPointF) : Q :=
  ((inject_Z (fst center) - fst rel) * (inject_Z (fst center) - fst rel)
   + (inject_Z (snd center) - snd rel) * (inject_Z (snd center) - snd rel))%Q.

(** The search loop of [screenToTileCoords]: [i] is the index of the first
    centre of [centers]; [minDist] is [None] while it still holds
    [std::numeric_limits<qreal>::max()]. *)
Fixpoint nearestLoop (rel : QPointF) (centers : list QPoint) (i : nat)
    (nearest : nat) (minDist : option Q) : nat :=
  match centers with
  | [] => nearest
  | center :: rest =>
      let dc := lengthSquared center rel in
      let closer :=
        match minDist with
        | None => true
        | Some d => match (dc ?= d)%Q with Lt => true | _ => false end
        end in
      if closer then nearestLoop rel rest (S i) i (Some dc)
      else nearestLoop rel rest (S i) nearest minDist
  end.

Definition offsetsStaggerX : list QPoint := [(0, 0); (1, -1); (1, 0); (2, 0)].
Definition offsetsStaggerY : list QPoint := [(0, 0); (-1, 1); (0, 1); (0, 2)].

(** The four candidate centres, relative to the reference cell. *)
Definition centers (p : RenderParams.t) : list QPoint :=
  if staggerX p then
    let left := sideLengthX p ÷ 2 in
    let centerX := left + columnWidth p in
    let centerY := tileHeight p ÷ 2 in
    [ (left, centerY);
      (centerX, centerY - rowHeight p);
      (centerX, centerY + rowHeight p);
      (centerX + columnWidth p, centerY) ]
  else
    let top := sideLengthY p ÷ 2 in
    let centerX := tileWidth p ÷ 2 in
    let centerY := top + rowHeight p in
    [ (centerX, top);
      (centerX - columnWidth p, centerY);
      (centerX + columnWidth p, centerY);
      (centerX, centerY + rowHeight p) ].

(** [HexagonalRenderer::screenToTileCoords] with exact arithmetic, which is
    the arithmetic of the source on whole pixels and small tiles;
    [screenToTileCoordsF] below rounds as the source does.  The result is a
    [QPointF] built from a [QPoint]. *)
Definition screenToTileCoords (map : Map.t) (workspace : Workspace.t)
    (x y : Q) : QPoint :=
  let p := RenderParams.new map workspace in
  let x := if staggerX p
           then (x - inject_Z (if staggerEven p then tileWidth p else sideOffsetX p))%Q
           else x in
  let y := if staggerX p
           then y
           else (y - inject_Z (if staggerEven p then tileHeight p else sideOffsetY p))%Q in
  let refX := qFloor (x / inject_Z (columnWidth p * 2)) in
  let refY := qFloor (y / inject_Z (rowHeight p * 2)) in
  let rel : QPointF :=
    ((x - inject_Z (refX * (columnWidth p * 2)))%Q,
     (y - inject_Z (refY * (rowHeight p * 2)))%Q) in
  let adjust (index : Z) := index * 2 + (if staggerEven p then 1 else 0) in
  let referencePoint : QPoint :=
    if staggerX p then (adjust refX, refY) else (refX, adjust refY) in
  let nearest := nearestLoop rel (centers p) 0 0 None in
  let offsets := if staggerX p then offsetsStaggerX else offsetsStaggerY in
  padd referencePoint (nth nearest offsets (0, 0)).

Definition screenToTileCoordsP (map : Map.t) (workspace : Workspace.t)
    (pixel : QPoint) : QPoint :=
  screenToTileCoords map workspace (inject_Z (fst pixel)) (inject_Z (snd pixel)).

(** ** Floating-point numbers, as IEEE 754 defines them *)

Module IEEE.

(** The exponent of the binade of a rational that is not zero: the [e] with
    [2^e <= |q| < 2^(e+1)]. *)
Definition mag (q : Q) : Z :=
  let a := Z.abs (Qnum q) in
  let b := Z.pos (Qden q) in
  let e := Z.log2 a - Z.log2 b in
  if (if 0 <=? e then b * 2 ^ e <=? a else b <=? a * 2 ^ (- e)) then e else e - 1.

(** Rounding to the nearest integer, ties to the even one. *)
Definition rne (t : Q) : Z :=
  let f := Qfloor t in
  match (t - inject_Z f ?= 1 # 2)%Q with
  | Lt => f
  | Gt => f + 1
  | Eq => if Z.even f then f else f + 1
  end.

(** Rounding to the nearest number of a binary format of [prec] significant
    bits whose normal numbers start at [2^emin], ties to even.  Below
    [2^emin] the spacing stays that of the first binade, which is the
    gradual underflow of the standard.  The largest finite number of the
    format is not modelled: a [double] that large makes the conversion to
    [int] in [qFloor] undefined before any [float] overflows. *)
Definition round (prec emin : Z) (q : Q) : Q :=
  if Qnum q =? 0 then 0%Q
  else
    let k := Z.max (mag q) emin - prec + 1 in
    if 0 <? k
    then inject_Z (rne (q / inject_Z (2 ^ k)) * 2 ^ k)
    else Qred (rne (q * inject_Z (2 ^ (- k))) # Z.to_pos (2 ^ (- k))).

(** [double] and [float]. *)
Definition toDouble : Q -> Q := round 53 (-1022).
Definition toFloat : Q -> Q := round 24 (-126).

End IEEE.

(** ** [QVector2D], as Qt defines it: two [float]s *)

Module QVector2D.

Record t : Type := mk { x : Q; y : Q }.

(** [QVector2D(xpos, ypos)]: the arguments are narrowed to [float]. *)
Definition make (xpos ypos : Q) : t := mk (IEEE.toFloat xpos) (IEEE.toFloat ypos).

(** [operator-] *)
Definition sub (a b : t) : t :=
  mk (IEEE.toFloat (x a - x b)) (IEEE.toFloat (y a - y b)).

(** [lengthSquared()]: [xp * xp + yp * yp] on [float]s, each operation
    rounded to [float]: no excess precision and no fused multiply-add. *)
Definition lengthSquared (v : t) : Q :=
  IEEE.toFloat (IEEE.toFloat (x v * x v) + IEEE.toFloat (y v * y v)).

End QVector2D.

(** ** The coordinate conversion with its floating-point arithmetic *)

(** The search loop of [screenToTileCoords] on [QVector2D]s; [dc] is a
    [float] widened to [qreal]. *)
Fixpoint nearestLoopF (rel : QVector2D.t) (centers : list QVector2D.t) (i : nat)
    (nearest : nat) (minDist : option Q) : nat :=
  match centers with
  | [] => nearest
  | center :: rest =>
      let dc := QVector2D.lengthSquared (QVector2D.sub center rel) in
      let closer :=
        match minDist with
        | None => true
        | Some d => match (dc ?= d)%Q with Lt => true | _ => false end
        end in
      if closer then nearestLoopF rel rest (S i) i (Some dc)
      else nearestLoopF rel rest (S i) nearest minDist
  end.

(** [HexagonalRenderer::screenToTileCoords] with the rounding of its
    arithmetic: [x] and [y] are the values of two [double]s, every operation
    on a [qreal] is rounded to [double], and [rel] and the four centres are
    [QVector2D]s, whose constructor narrows to [float].  An [int] is
    converted to [double] without rounding.  [screenToTileCoords] above is
    the same computation with every operation exact. *)
Definition screenToTileCoordsF (map : Map.t) (workspace : Workspace.t)
    (x y : Q) : QPoint :=
  let p := RenderParams.new map workspace in
  let x := if staggerX p
           then IEEE.toDouble
                  (x - inject_Z (if staggerEven p then tileWidth p else sideOffsetX p))
           else x in
  let y := if staggerX p
           then y
           else IEEE.toDouble
                  (y - inject_Z (if staggerEven p then tileHeight p else sideOffsetY p)) in
  let refX := qFloor (IEEE.toDouble (x / inject_Z (columnWidth p * 2))) in
  let refY := qFloor (IEEE.toDouble (y / inject_Z (rowHeight p * 2))) in
  let rel : QVector2D.t :=
    QVector2D.make (IEEE.toDouble (x - inject_Z (refX * (columnWidth p * 2))))
                   (IEEE.toDouble (y - inject_Z (refY * (rowHeight p * 2)))) in
  let adjust (index : Z) := index * 2 + (if staggerEven p then 1 else 0) in
  let referencePoint : QPoint :=
    if staggerX p then (adjust refX, refY) else (refX, adjust refY) in
  let centers :=
    List.map (fun c => QVector2D.make (inject_Z (fst c)) (inject_Z (snd c))) (centers p) in
  let nearest := nearestLoopF rel centers 0 0 None in
  let offsets := if staggerX p then offsetsStaggerX else offsetsStaggerY in
  padd referencePoint (nth nearest offsets (0, 0)).

(** ** Neighbour lookups *)

(** The condition [(index & 1) ^ map()->staggerIndex()]. *)
Definition parityXorIndex (map : Map.t) (index : Z) : bool :=
  negb (Z.lxor (Z.land index 1) (Map.StaggerIndex_value (Map.staggerIndex map)) =? 0).

Definition staggerCoord (map : Map.t) (x y : Z) : Z :=
  match Map.staggerAxis map with Map.StaggerY => y | Map.StaggerX => x end.

(** [HexagonalRenderer::topLeft] *)
Definition topLeft (map : Map.t) (x y : Z) : QPoint :=
  match Map.staggerAxis map with
  | Map.StaggerY => if parityXorIndex map y then (x, y - 1) else (x - 1, y - 1)
  | Map.StaggerX => if parityXorIndex map x then (x - 1, y) else (x - 1, y - 1)
  end.

(** [HexagonalRenderer::topRight] *)
Definition topRight (map : Map.t) (x y : Z) : QPoint :=
  match Map.staggerAxis map with
  | Map.StaggerY => if parityXorIndex map y then (x + 1, y - 1) else (x, y - 1)
  | Map.StaggerX => if parityXorIndex map x then (x + 1, y) else (x + 1, y - 1)
  end.

(** [HexagonalRenderer::bottomLeft] *)
Definition bottomLeft (map : Map.t) (x y : Z) : QPoint :=
  match Map.staggerAxis map with
  | Map.StaggerY => if parityXorIndex map y then (x, y + 1) else (x - 1, y + 1)
  | Map.StaggerX => if parityXorIndex map x then (x - 1, y + 1) else (x - 1, y)
  end.

(** [HexagonalRenderer::bottomRight] *)
Definition bottomRight (map : Map.t) (x y : Z) : QPoint :=
  match Map.staggerAxis map with
  | Map.StaggerY => if parityXorIndex map y then (x + 1, y + 1) else (x, y + 1)
  | Map.StaggerX => if parityXorIndex map x then (x + 1, y + 1) else (x + 1, y)
  end.

(** ** Rectangles, as Qt defines them *)

Module QRect.

(** A [QRect] stores its two corners; [QRect(x, y, w, h)] has the right
    edge [x + w - 1] and the bottom edge [y + h - 1]. *)
Record t : Type := corners { x1 : Z; y1 : Z; x2 : Z; y2 : Z }.

Definition make (x y w h : Z) : t := corners x y (x + w - 1) (y + h - 1).

Definition x (r : t) : Z := x1 r.
Definition y (r : t) : Z := y1 r.
Definition left (r : t) : Z := x1 r.
Definition top (r : t) : Z := y1 r.
Definition right (r : t) : Z := x2 r.
Definition bottom (r : t) : Z := y2 r.
Definition width (r : t) : Z := x2 r - x1 r + 1.
Definition height (r : t) : Z := y2 r - y1 r + 1.
Definition topLeft (r : t) : QPoint := (x1 r, y1 r).
Definition size (r : t) : Z * Z := (width r, height r).

Definition isNull (r : t) : bool := (x2 r =? x1 r - 1) && (y2 r =? y1 r - 1).

Definition adjust (r : t) (dx1 dy1 dx2 dy2 : Z) : t :=
  corners (x1 r + dx1) (y1 r + dy1) (x2 r + dx2) (y2 r + dy2).

End QRect.

Module QRectF.

Record t : Type := make { xp : Q; yp : Q; w : Q; h : Q }.

(** The smallest integer rectangle that contains the rectangle. *)
Definition toAlignedRect (r : t) : QRect.t :=
  let xmin := qFloor (xp r) in
  let xmax := qCeil (xp r + w r) in
  let ymin := qFloor (yp r) in
  let ymax := qCeil (yp r + h r) in
  QRect.make xmin ymin (xmax - xmin) (ymax - ymin).

Definition Qltb (a b : Q) : bool :=
  match (a ?= b)%Q with Lt => true | _ => false end.

(** The extent of a rectangle along one axis, normalised. *)
Definition span (p l : Q) : Q * Q :=
  if Qltb l 0 then ((p + l)%Q, p) else (p, (p + l)%Q).

Definition spansMeet (a b : Q * Q) : bool :=
  negb (Qeq_bool (fst a) (snd a)) && negb (Qeq_bool (fst b) (snd b))
  && Qltb (fst a) (snd b) && Qltb (fst b) (snd a).

(** [QRectF::intersects] *)
Definition intersects (r s : t) : bool :=
  spansMeet (span (xp r) (w r)) (span (xp s) (w s))
  && spansMeet (span (yp r) (h r)) (span (yp s) (h s)).

Definition ofPoints (minx miny maxx maxy : Z) : t :=
  make (inject_Z minx) (inject_Z miny)
       (inject_Z (maxx - minx)) (inject_Z (maxy - miny)).

End QRectF.

(** [QPolygonF::boundingRect] of a polygon with integer corners. *)
Definition polygonBoundingRect (polygon : list QPoint) : QRectF.t :=
  match polygon with
  | [] => QRectF.make 0 0 0 0
  | q :: rest =>
      let minx := fold_left Z.min (map fst rest) (fst q) in
      let maxx := fold_left Z.max (map fst rest) (fst q) in
      let miny := fold_left Z.min (map snd rest) (snd q) in
      let maxy := fold_left Z.max (map snd rest) (snd q) in
      QRectF.ofPoints minx miny maxx maxy
  end.

Record QMargins : Type := mkQMargins
  { m_left : Z; m_top : Z; m_right : Z; m_bottom : Z }.

(** ** The tile layer, as the renderer reads it *)

(** Modelled from the spec: tilelayer.h and tile.h are not among the sources.
    A cell is empty or not and refers to a tile or to none; a tile has a
    size. *)
Record Cell : Type := mkCell
  { cell_isEmpty : bool; cell_tile : option (Z * Z) }.

(** Modelled from the spec: the layer exposes its width, height, position,
    bounds, draw margins, [contains(point)] and [cellAt(point)]; this fork
    also reads the tile size of the layer. *)
Module TileLayer.

Record t : Type := make
  { x : Z; y : Z;
    width : Z; height : Z;
    tileWidth : Z; tileHeight : Z;
    drawMargins : QMargins;
    cellAt : QPoint -> Cell }.

Definition position (l : t) : QPoint := (x l, y l).
Definition bounds (l : t) : QRect.t := QRect.make (x l) (y l) (width l) (height l).
Definition contains (l : t) (q : QPoint) : bool :=
  (0 <=? fst q) && (0 <=? snd q) && (fst q <? width l) && (snd q <? height l).

End TileLayer.

(** ** Bounding rectangle of a range of tiles *)

(** [HexagonalRenderer::boundingRect] *)
Definition boundingRect (map : Map.t) (workspace : Workspace.t)
    (rect : QRect.t) : QRect.t :=
  let p := RenderParams.new map workspace in
  let topLeft := tileToScreenCoordsP map workspace (QRect.topLeft rect) in
  if staggerX p then
    let width := QRect.width rect * columnWidth p + sideOffsetX p in
    let height := QRect.height rect * (tileHeight p + sideLengthY p) in
    if 1 <? QRect.width rect then
      let height := height + rowHeight p in
      let topLeft :=
        if doStaggerX p (QRect.x rect)
        then (fst topLeft, snd topLeft - rowHeight p) else topLeft in
      QRect.make (fst topLeft) (snd topLeft) width height
    else QRect.make (fst topLeft) (snd topLeft) width height
  else
    let width := QRect.width rect * (tileWidth p + sideLengthX p) in
    let height := QRect.height rect * rowHeight p + sideOffsetY p in
    if 1 <? QRect.height rect then
      let width := width + columnWidth p in
      let topLeft :=
        if doStaggerY p (QRect.y rect)
        then (fst topLeft - columnWidth p, snd topLeft) else topLeft in
      QRect.make (fst topLeft) (snd topLeft) width height
    else QRect.make (fst topLeft) (snd topLeft) width height.

(** ** The outline of one tile *)

(** The array [oct] of [drawGrid]; [tileToScreenPolygon] adds the same eight
    offsets to the position of the tile. *)
Definition oct (p : RenderParams.t) : list QPoint :=
  [ (0, tileHeight p - sideOffsetY p);
    (0, sideOffsetY p);
    (sideOffsetX p, 0);
    (tileWidth p - sideOffsetX p, 0);
    (tileWidth p, sideOffsetY p);
    (tileWidth p, tileHeight p - sideOffsetY p);
    (tileWidth p - sideOffsetX p, tileHeight p);
    (sideOffsetX p, tileHeight p) ].

Definition octAt (p : RenderParams.t) (k : nat) : QPoint :=
  nth (k mod 8) (oct p) (0, 0).

(** [HexagonalRenderer::tileToScreenPolygon]: the workspace is a local,
    default-constructed one. *)
Definition tileToScreenPolygon (map : Map.t) (x y : Z) : list QPoint :=
  let workspace := Workspace.default in
  let p := RenderParams.new map workspace in
  let topRight := tileToScreenCoordsP map workspace (x, y) in
  List.map (padd topRight) (oct p).

(** ** Grid lines *)

Definition QLine : Type := (QPoint * QPoint)%type.

Definition octLine (p : RenderParams.t) (pos : QPoint) (a b : nat) : QLine :=
  (padd pos (octAt p a), padd pos (octAt p b)).

(** The lines that the stagger-X sweep of [drawGrid] appends for the tile
    [rowTile] drawn at [rowPos]. *)
Definition gridLinesX (p : RenderParams.t) (workspace : Workspace.t)
    (rowTile rowPos : QPoint) : list QLine :=
  let isStaggered := doStaggerX p (fst rowTile) in
  let lastRow := snd rowTile =? Workspace.height workspace - 1 in
  let lastColumn := fst rowTile =? Workspace.width workspace - 1 in
  let bottomLeft := (fst rowTile =? 0) || (lastRow && isStaggered) in
  let bottomRight := lastColumn || (lastRow && isStaggered) in
  [octLine p rowPos 1 2; octLine p rowPos 2 3; octLine p rowPos 3 4]
  ++ (if bottomRight then [octLine p rowPos 5 6] else [])
  ++ (if lastRow then [octLine p rowPos 6 7] else [])
  ++ (if bottomLeft then [octLine p rowPos 7 0] else []).

(** The lines that the stagger-Y sweep of [drawGrid] appends for one tile. *)
Definition gridLinesY (p : RenderParams.t) (workspace : Workspace.t)
    (rowTile rowPos : QPoint) : list QLine :=
  let isStaggered := doStaggerY p (snd rowTile) in
  let lastRow := snd rowTile =? Workspace.height workspace - 1 in
  let lastColumn := fst rowTile =? Workspace.width workspace - 1 in
  let bottomLeft := lastRow || ((fst rowTile =? 0) && negb isStaggered) in
  let bottomRight := lastRow || (lastColumn && isStaggered) in
  [octLine p rowPos 0 1; octLine p rowPos 1 2; octLine p rowPos 3 4]
  ++ (if lastColumn then [octLine p rowPos 4 5] else [])
  ++ (if bottomRight then [octLine p rowPos 5 6] else [])
  ++ (if bottomLeft then [octLine p rowPos 7 0] else []).

(** The inner loop of the stagger-X sweep: down one column.  Each iteration
    increments [rowTile.y], which the guard bounds by the height of the
    workspace; [fuel] counts the iterations that are left. *)
Fixpoint gridColumnX (fuel : nat) (p : RenderParams.t) (workspace : Workspace.t)
    (rect : QRect.t) (rowTile rowPos : QPoint) : list QLine :=
  match fuel with
  | O => []
  | S fuel' =>
      if (snd rowPos <=? QRect.bottom rect)
         && (snd rowTile <? Workspace.height workspace)
      then gridLinesX p workspace rowTile rowPos
           ++ gridColumnX fuel' p workspace rect
                (fst rowTile, snd rowTile + 1)
                (fst rowPos, snd rowPos + (tileHeight p + sideLengthY p))
      else []
  end.

(** The outer loop of the stagger-X sweep: over the columns. *)
Fixpoint gridSweepX (fuel : nat) (p : RenderParams.t) (workspace : Workspace.t)
    (rect : QRect.t) (startTile startPos : QPoint) : list QLine :=
  match fuel with
  | O => []
  | S fuel' =>
      if (fst startPos <=? QRect.right rect)
         && (fst startTile <? Workspace.width workspace)
      then
        let rowPos :=
          if doStaggerX p (fst startTile)
          then (fst startPos, snd startPos + rowHeight p) else startPos in
        gridColumnX (Z.to_nat (Workspace.height workspace - snd startTile))
          p workspace rect startTile rowPos
        ++ gridSweepX fuel' p workspace rect
             (fst startTile + 1, snd startTile)
             (fst startPos + columnWidth p, snd startPos)
      else []
  end.

(** The inner loop of the stagger-Y sweep: along one row. *)
Fixpoint gridRowY (fuel : nat) (p : RenderParams.t) (workspace : Workspace.t)
    (rect : QRect.t) (rowTile rowPos : QPoint) : list QLine :=
  match fuel with
  | O => []
  | S fuel' =>
      if (fst rowPos <=? QRect.right rect)
         && (fst rowTile <? Workspace.width workspace)
      then gridLinesY p workspace rowTile rowPos
           ++ gridRowY fuel' p workspace rect
                (fst rowTile + 1, snd rowTile)
                (fst rowPos + (tileWidth p + sideLengthX p), snd rowPos)
      else []
  end.

(** The outer loop of the stagger-Y sweep: over the rows. *)
Fixpoint gridSweepY (fuel : nat) (p : RenderParams.t) (workspace : Workspace.t)
    (rect : QRect.t) (startTile startPos : QPoint) : list QLine :=
  match fuel with
  | O => []
  | S fuel' =>
      if (snd startPos <=? QRect.bottom rect)
         && (snd startTile <? Workspace.height workspace)
      then
        let rowPos :=
          if doStaggerY p (snd startTile)
          then (fst startPos + columnWidth p, snd startPos) else startPos in
        gridRowY (Z.to_nat (Workspace.width workspace - fst startTile))
          p workspace rect startTile rowPos
        ++ gridSweepY fuel' p workspace rect
             (fst startTile, snd startTile + 1)
             (fst startPos, snd startPos + rowHeight p)
      else []
  end.

(** The adjustment of the start tile that [drawGrid] and [drawTileLayer]
    share: one up when the top-left corner of the rectangle is in the upper
    half of the tile drawn at [startPos], one left when it is in the left
    half. *)
Definition startTileOf (p : RenderParams.t) (rect : QRect.t)
    (startTile startPos : QPoint) : QPoint :=
  let inUpperHalf := QRect.y rect - snd startPos <? sideOffsetY p in
  let inLeftHalf := QRect.x rect - fst startPos <? sideOffsetX p in
  ((if inLeftHalf then fst startTile - 1 else fst startTile),
   (if inUpperHalf then snd startTile - 1 else snd startTile)).

(** [HexagonalRenderer::drawGrid]: the lines passed to [painter->drawLines],
    in order.  The pen does not change the segments and is left out. *)
Definition drawGrid (map : Map.t) (exposed : QRectF.t)
    (workspace : Workspace.t) : list QLine :=
  let rect := QRectF.toAlignedRect exposed in
  if QRect.isNull rect then []
  else
    let p := RenderParams.new map workspace in
    let startTile := screenToTileCoordsP map workspace (QRect.topLeft rect) in
    let startPos := tileToScreenCoordsP map workspace startTile in
    let startTile := startTileOf p rect startTile startPos in
    let startTile : QPoint := (Z.max 0 (fst startTile), Z.max 0 (snd startTile)) in
    let startPos := tileToScreenCoordsP map workspace startTile in
    if staggerX p then
      let startPos :=
        if doStaggerX p (fst startTile)
        then (fst startPos, snd startPos - rowHeight p) else startPos in
      gridSweepX (Z.to_nat (Workspace.width workspace - fst startTile))
        p workspace rect startTile startPos
    else
      let startPos :=
        if doStaggerY p (snd startTile)
        then (fst startPos - columnWidth p, snd startPos) else startPos in
      gridSweepY (Z.to_nat (Workspace.height workspace - snd startTile))
        p workspace rect startTile startPos.

(** ** Tile layers *)

(** One call of [renderer.render(cell, pos, size, CellRenderer::BottomLeft)]. *)
Record RenderCall : Type := mkRenderCall
  { rc_cell : Cell; rc_pos : QPoint; rc_size : Z * Z }.

(** What both sweeps of [drawTileLayer] do with the cell of one tile. *)
Definition renderCell (tileWorkspace : Workspace.t) (cell : Cell)
    (rowPos : QPoint) : list RenderCall :=
  if negb (cell_isEmpty cell) then
    let size :=
      match cell_tile cell with
      | Some tileSize => tileSize
      | None => Workspace.tileSize tileWorkspace
      end in
    [mkRenderCall cell rowPos size]
  else [].

(** The inner loop of the stagger-X sweep; [rowTile.x] advances by two. *)
Fixpoint layerRowX (fuel : nat) (p : RenderParams.t) (layer : TileLayer.t)
    (tileWorkspace : Workspace.t) (rect : QRect.t)
    (rowTile rowPos : QPoint) : list RenderCall :=
  match fuel with
  | O => []
  | S fuel' =>
      if (fst rowPos <? QRect.right rect) && (fst rowTile <? TileLayer.width layer)
      then
        (if TileLayer.contains layer rowTile
         then renderCell tileWorkspace (TileLayer.cellAt layer rowTile) rowPos
         else [])
        ++ layerRowX fuel' p layer tileWorkspace rect
             (fst rowTile + 2, snd rowTile)
             (fst rowPos + (tileWidth p + sideLengthX p), snd rowPos)
      else []
  end.

(** The outer loop of the stagger-X sweep.  [startTile.y] grows on every
    second iteration and the guard bounds it by the height of the layer. *)
Fixpoint layerSweepX (fuel : nat) (p : RenderParams.t) (layer : TileLayer.t)
    (tileWorkspace : Workspace.t) (rect : QRect.t)
    (startTile startPos : QPoint) (staggeredRow : bool) : list RenderCall :=
  match fuel with
  | O => []
  | S fuel' =>
      if (snd startPos <? QRect.bottom rect)
         && (snd startTile <? TileLayer.height layer)
      then
        layerRowX (Z.to_nat (TileLayer.width layer - fst startTile))
          p layer tileWorkspace rect startTile startPos
        ++ (if staggeredRow then
              layerSweepX fuel' p layer tileWorkspace rect
                (fst startTile - 1, snd startTile + 1)
                (fst startPos - columnWidth p, snd startPos + rowHeight p)
                false
            else
              layerSweepX fuel' p layer tileWorkspace rect
                (fst startTile + 1, snd startTile)
                (fst startPos + columnWidth p, snd startPos + rowHeight p)
                true)
      else []
  end.

(** The inner loop of the stagger-Y sweep. *)
Fixpoint layerRowY (fuel : nat) (p : RenderParams.t) (layer : TileLayer.t)
    (tileWorkspace : Workspace.t) (rect : QRect.t)
    (rowTile rowPos : QPoint) : list RenderCall :=
  match fuel with
  | O => []
  | S fuel' =>
      if (fst rowPos <? QRect.right rect) && (fst rowTile <? TileLayer.width layer)
      then
        renderCell tileWorkspace (TileLayer.cellAt layer rowTile) rowPos
        ++ layerRowY fuel' p layer tileWorkspace rect
             (fst rowTile + 1, snd rowTile)
             (fst rowPos + (tileWidth p + sideLengthX p), snd rowPos)
      else []
  end.

(** The outer loop of the stagger-Y sweep. *)
Fixpoint layerSweepY (fuel : nat) (p : RenderParams.t) (layer : TileLayer.t)
    (tileWorkspace : Workspace.t) (rect : QRect.t)
    (startTile startPos : QPoint) : list RenderCall :=
  match fuel with
  | O => []
  | S fuel' =>
      if (snd startPos <? QRect.bottom rect)
         && (snd startTile <? TileLayer.height layer)
      then
        let rowPos :=
          if doStaggerY p (snd startTile + TileLayer.y layer)
          then (fst startPos + columnWidth p, snd startPos) else startPos in
        layerRowY (Z.to_nat (TileLayer.width layer - fst startTile))
          p layer tileWorkspace rect startTile rowPos
        ++ layerSweepY fuel' p layer tileWorkspace rect
             (fst startTile, snd startTile + 1)
             (fst startPos, snd startPos + rowHeight p)
      else []
  end.

(** [HexagonalRenderer::drawTileLayer]: the calls of [renderer.render], in
    order.  The parameter [workspace] is the one of the signature. *)
Definition drawTileLayer (map : Map.t) (layer : TileLayer.t)
    (workspace : Workspace.t) (exposed : QRectF.t) : list RenderCall :=
  let tileWorkspace :=
    Workspace.make (TileLayer.width layer) (TileLayer.height layer)
                   (TileLayer.tileWidth layer) (TileLayer.tileHeight layer) in
  let p := RenderParams.new map tileWorkspace in
  let rect := QRectF.toAlignedRect exposed in
  let rect :=
    if QRect.isNull rect
    then boundingRect map tileWorkspace (TileLayer.bounds layer) else rect in
  let drawMargins := TileLayer.drawMargins layer in
  let marginBottom := m_bottom drawMargins + tileHeight p in
  let marginRight := m_right drawMargins - tileWidth p in
  let rect :=
    QRect.adjust rect (- marginRight) (- marginBottom)
                 (m_left drawMargins) (m_top drawMargins) in
  let startTile := screenToTileCoordsP map tileWorkspace (QRect.topLeft rect) in
  let startTile := psub startTile (TileLayer.position layer) in
  let startPos :=
    tileToScreenCoordsP map tileWorkspace (padd startTile (TileLayer.position layer)) in
  let startTile := startTileOf p rect startTile startPos in
  if staggerX p then
    let startTile : QPoint := (Z.max (-1) (fst startTile), Z.max (-1) (snd startTile)) in
    let startPos :=
      tileToScreenCoordsP map tileWorkspace (padd startTile (TileLayer.position layer)) in
    let startPos := (fst startPos, snd startPos + tileHeight p) in
    let staggeredRow := doStaggerX p (fst startTile + TileLayer.x layer) in
    layerSweepX (Z.to_nat (2 * (TileLayer.height layer - snd startTile)))
      p layer tileWorkspace rect startTile startPos staggeredRow
  else
    let startTile : QPoint := (Z.max 0 (fst startTile), Z.max 0 (snd startTile)) in
    let startPos :=
      tileToScreenCoordsP map tileWorkspace (padd startTile (TileLayer.position layer)) in
    let startPos := (fst startPos, snd startPos + tileHeight p) in
    let startPos :=
      if doStaggerY p (snd startTile + TileLayer.y layer)
      then (fst startPos - columnWidth p, snd startPos) else startPos in
    layerSweepY (Z.to_nat (TileLayer.height layer - snd startTile))
      p layer tileWorkspace rect startTile startPos.

(** ** Tile selections *)

(** The integers from [lo] to [hi], both included. *)
Definition zrange (lo hi : Z) : list Z :=
  List.map (fun i => lo + Z.of_nat i) (seq 0 (Z.to_nat (hi - lo + 1))).

(** [HexagonalRenderer::drawTileSelection]: the polygons passed to
    [painter->drawConvexPolygon], in order; [region] is [region.rects()].
    The parameter [workspace] is the one of the signature. *)
Definition drawTileSelection (map : Map.t) (region : list QRect.t)
    (workspace : Workspace.t) (exposed : QRectF.t) : list (list QPoint) :=
  flat_map
    (fun r =>
       flat_map
         (fun y =>
            flat_map
              (fun x =>
                 let polygon := tileToScreenPolygon map x y in
                 if QRectF.intersects (polygonBoundingRect polygon) exposed
                 then [polygon] else [])
              (zrange (QRect.left r) (QRect.right r)))
         (zrange (QRect.top r) (QRect.bottom r)))
    region.

(** ** A scenario used in examples *)

Definition scenarioMap : Map.t :=
  Map.make Map.Hexagonal Map.StaggerX Map.StaggerEven 4.

Definition scenarioWorkspace : Workspace.t := Workspace.make 3 3 32 32.

(** A layer of 3 by 2 tiles of 32 by 32 pixels whose cells are all filled
    and refer to no tile. *)
Definition untiledLayer : TileLayer.t :=
  TileLayer.make 0 0 3 2 32 32 (mkQMargins 0 0 0 0) (fun _ => mkCell false None).

Definition wholeScreen : QRectF.t := QRectF.make (-64) (-64) 512 512.

(** Exactly one of two lengths is not zero. *)
Definition exactlyOneNonzero (a b : Z) : Prop :=
  (a <> 0 /\ b = 0) \/ (a = 0 /\ b <> 0).

(** ** Notions used to state the properties of the coordinate conversion *)

(** Squared distance between two pixel points. *)
Definition dist2 (c q : QPoint) : Z :=
  (fst c - fst q) * (fst c - fst q) + (snd c - snd q) * (snd c - snd q).

(** The centre of the outline of a tile, relative to its position. *)
Definition hexCentre (p : RenderParams.t) : QPoint :=
  (tileWidth p ÷ 2, tileHeight p ÷ 2).

(** The centre of the tile [tile] on the screen. *)
Definition centreOf (map : Map.t) (workspace : Workspace.t) (tile : QPoint) : QPoint :=
  padd (tileToScreenCoordsP map workspace tile)
       (hexCentre (RenderParams.new map workspace)).

(** The six tiles around a tile: the four that the neighbour lookups give
    and the two next to it along the axis that is not staggered. *)
Definition neighbours (map : Map.t) (x y : Z) : list QPoint :=
  [ topLeft map x y; topRight map x y; bottomLeft map x y; bottomRight map x y ]
  ++ match Map.staggerAxis map with
     | Map.StaggerX => [ (x, y - 1); (x, y + 1) ]
     | Map.StaggerY => [ (x - 1, y); (x + 1, y) ]
     end.

(** A point of the screen at the offset [d] from the pixel [a]. *)
Definition paddF (a : QPoint) (d : QPointF) : QPointF :=
  ((inject_Z (fst a) + fst d)%Q, (inject_Z (snd a) + snd d)%Q).

(** [d], an offset from the position of a tile, is strictly inside the
    outline of the tile: strictly on the inner side of each edge of the
    outline that has a length.  The corners of the outline are listed
    clockwise on a screen whose y axis points down. *)
Definition cross (a b : QPoint) (d : QPointF) : Q :=
  (inject_Z (fst b - fst a) * (snd d - inject_Z (snd a))
   - inject_Z (snd b - snd a) * (fst d - inject_Z (fst a)))%Q.

Definition insideHexagon (p : RenderParams.t) (d : QPointF) : bool :=
  forallb
    (fun k =>
       let a := octAt p k in
       let b := octAt p (S k) in
       ((fst a =? fst b) && (snd a =? snd b)) || QRectF.Qltb 0 (cross a b d))
    (seq 0 8).

(** The search loop and the conversion on whole pixels, with integer
    arithmetic only; [screenToTileCoordsP_Z] shows that they agree with
    [screenToTileCoords]. *)
Fixpoint nearestLoopZ (rel : QPoint) (centers : list QPoint) (i : nat)
    (nearest : nat) (minDist : option Z) : nat :=
  match centers with
  | [] => nearest
  | center :: rest =>
      let dc := dist2 center rel in
      let closer :=
        match minDist with
        | None => true
        | Some d => dc <? d
        end in
      if closer then nearestLoopZ rel rest (S i) i (Some dc)
      else nearestLoopZ rel rest (S i) nearest minDist
  end.

Definition screenToTileCoordsZ (map : Map.t) (workspace : Workspace.t)
    (pixel : QPoint) : QPoint :=
  let p := RenderParams.new map workspace in
  let x := if staggerX p
           then fst pixel - (if staggerEven p then tileWidth p else sideOffsetX p)
           else fst pixel in
  let y := if staggerX p
           then snd pixel
           else snd pixel - (if staggerEven p then tileHeight p else sideOffsetY p) in
  let refX := x / (columnWidth p * 2) in
  let refY := y / (rowHeight p * 2) in
  let rel : QPoint := (x - refX * (columnWidth p * 2), y - refY * (rowHeight p * 2)) in
  let adjust (index : Z) := index * 2 + (if staggerEven p then 1 else 0) in
  let referencePoint : QPoint :=
    if staggerX p then (adjust refX, refY) else (refX, adjust refY) in
  let nearest := nearestLoopZ rel (centers p) 0 0 None in
  let offsets := if staggerX p then offsetsStaggerX else offsetsStaggerY in
  padd referencePoint (nth nearest offsets (0, 0)).

(** The validated geometry of the spec: tiles of at least 2 by 2 pixels and
    an even side length between 0 and the tile size along the stagger axis. *)
Definition validGeometry (m : Map.t) (ws : Workspace.t) : Prop :=
  Map.orientation m = Map.Hexagonal
  /\ 2 <= Workspace.tileWidth ws /\ 2 <= Workspace.tileHeight ws
  /\ 0 <= Map.hexSideLength m
  /\ Z.even (Map.hexSideLength m) = true
  /\ Map.hexSideLength m
     <= (if Map.isStaggerX m then Workspace.tileWidth ws else Workspace.tileHeight ws).

(** The geometry that the spec takes as validated by the caller: a
    hexagonal map, tiles of at least 2 by 2 pixels and a side length between
    0 and the tile size along the stagger axis.  [validGeometry] adds that
    the side length is even. *)
Definition hexGeometry (m : Map.t) (ws : Workspace.t) : Prop :=
  Map.orientation m = Map.Hexagonal
  /\ 2 <= Workspace.tileWidth ws /\ 2 <= Workspace.tileHeight ws
  /\ 0 <= Map.hexSideLength m
  /\ Map.hexSideLength m
     <= (if Map.isStaggerX m then Workspace.tileWidth ws else Workspace.tileHeight ws).

(** Tiles of at most 1024 by 1024 pixels: the squared distances that
    [screenToTileCoords] compares are then whole numbers below [2^24], which a
    [float] holds exactly. *)
Definition smallTiles (ws : Workspace.t) : Prop :=
  Workspace.tileWidth ws <= 1024 /\ Workspace.tileHeight ws <= 1024.

(** The values of an [int]. *)
Definition isInt (a : Z) : Prop := - 2 ^ 31 <= a < 2 ^ 31.

(** The range of the coordinates of the four candidate centres and of the
    point relative to the reference cell when the tiles are small. *)
Definition nearOrigin (c : QPoint) : Prop := 0 <= fst c <= 2560 /\ 0 <= snd c <= 2560.

(** The two states of [minDist] in the two loops. *)
Definition sameMinDist (a : option Q) (b : option Z) : Prop :=
  match a, b with
  | None, None => True
  | Some d, Some z => (d == inject_Z z)%Q
  | _, _ => False
  end.

(** ** Notions used to state the properties of the grid *)

(** Two lines are the same segment when they join the same two points, in
    either direction; [normLine] picks the direction in which the first point
    comes first in the lexicographic order. *)
Definition sameSegment (a b : QLine) : Prop := a = b \/ a = (snd b, fst b).

Definition pointLeb (a b : QPoint) : bool :=
  (fst a <? fst b) || ((fst a =? fst b) && (snd a <=? snd b)).

Definition normLine (l : QLine) : QLine :=
  if pointLeb (fst l) (snd l) then l else (snd l, fst l).

Definition QLine_eq_dec (a b : QLine) : {a = b} + {a <> b}.
Proof. repeat decide equality. Defined.

(** The corners of [oct] at which the six edges of the outline start that can
    have a length: under stagger-X corners 0 and 1 coincide and so do corners
    4 and 5; under stagger-Y corners 2 and 3 coincide and so do 6 and 7. *)
Definition kindsX : list nat := [1; 2; 3; 5; 6; 7]%nat.
Definition kindsY : list nat := [0; 1; 3; 4; 5; 7]%nat.

(** Whether the stagger-X sweep appends, for the tile [tile], the line from
    corner [k] to corner [k + 1]: the gating booleans of [gridLinesX]. *)
Definition emitsX (p : RenderParams.t) (ws : Workspace.t) (tile : QPoint) (k : nat) : bool :=
  let isStaggered := doStaggerX p (fst tile) in
  let lastRow := snd tile =? Workspace.height ws - 1 in
  let lastColumn := fst tile =? Workspace.width ws - 1 in
  match k with
  | 5%nat => lastColumn || (lastRow && isStaggered)
  | 6%nat => lastRow
  | 7%nat => (fst tile =? 0) || (lastRow && isStaggered)
  | _ => true
  end.

(** The same for the stagger-Y sweep and [gridLinesY]. *)
Definition emitsY (p : RenderParams.t) (ws : Workspace.t) (tile : QPoint) (k : nat) : bool :=
  let isStaggered := doStaggerY p (snd tile) in
  let lastRow := snd tile =? Workspace.height ws - 1 in
  let lastColumn := fst tile =? Workspace.width ws - 1 in
  match k with
  | 4%nat => lastColumn
  | 5%nat => lastRow || (lastColumn && isStaggered)
  | 7%nat => lastRow || ((fst tile =? 0) && negb isStaggered)
  | _ => true
  end.

(** The edge of the outline of the tile [t] that starts at corner [k]. *)
Definition tileEdge (m : Map.t) (ws : Workspace.t) (t : QPoint) (k : nat) : QLine :=
  octLine (RenderParams.new m ws) (tileToScreenCoordsP m ws t) k (S k).

(** The outline of a tile: its six edges that can have a length. *)
Definition outline (m : Map.t) (ws : Workspace.t) (tile : QPoint) : list QLine :=
  let p := RenderParams.new m ws in
  List.map (fun k => octLine p (tileToScreenCoordsP m ws tile) k (S k))
           (if staggerX p then kindsX else kindsY).

(** The exposed rectangle, once aligned, contains the rectangle of the work
    size at the origin. *)
Definition coversGrid (m : Map.t) (ws : Workspace.t) (exposed : QRectF.t) : Prop :=
  let rect := QRectF.toAlignedRect exposed in
  QRect.left rect <= 0 /\ QRect.top rect <= 0
  /\ fst (workSize m ws) - 1 <= QRect.right rect
  /\ snd (workSize m ws) - 1 <= QRect.bottom rect.

Definition inGrid (W H : Z) (t : QPoint) : Prop := 0 <= fst t < W /\ 0 <= snd t < H.

(** The tiles of a grid in the order of the stagger-X sweep and in the order
    of the stagger-Y sweep. *)
Definition tilesByColumn (W H : Z) : list QPoint :=
  flat_map (fun x => List.map (fun y => (x, y)) (zrange 0 (H - 1))) (zrange 0 (W - 1)).

Definition tilesByRow (W H : Z) : list QPoint :=
  flat_map (fun y => List.map (fun x => (x, y)) (zrange 0 (W - 1))) (zrange 0 (H - 1)).

(** The corners of the outline in lattice units.  With [s] the side offset
    and [l] half the side length along the stagger axis, the step between two
    staggered columns is [s + 2 * l].  Under stagger-X, corner [k] of a tile
    is [cornerA k] columns and [cornerB k] side offsets to the right of the
    position of the tile and [cornerC k] row heights below it. *)
Definition cornerA (k : nat) : Z :=
  match k with 3%nat | 4%nat | 5%nat | 6%nat => 1 | _ => 0 end.
Definition cornerB (k : nat) : Z :=
  match k with 2%nat | 4%nat | 5%nat | 7%nat => 1 | _ => 0 end.
Definition cornerC (k : nat) : Z :=
  match k with 0%nat | 1%nat | 4%nat | 5%nat => 1 | 6%nat | 7%nat => 2 | _ => 0 end.

(** The same under stagger-Y, with rows for columns. *)
Definition cornerAY (k : nat) : Z :=
  match k with 0%nat | 5%nat | 6%nat | 7%nat => 1 | _ => 0 end.
Definition cornerBY (k : nat) : Z :=
  match k with 1%nat | 4%nat | 6%nat | 7%nat => 1 | _ => 0 end.
Definition cornerCY (k : nat) : Z :=
  match k with 0%nat | 1%nat => 0 | 4%nat | 5%nat => 2 | _ => 1 end.

(** 1 for a staggered index and 0 for another, [e] being [staggerEven]. *)
Definition staggerShift (e : bool) (i : Z) : Z :=
  if (if e then Z.even i else negb (Z.even i)) then 1 else 0.

(** Corner [k] of the tile [t] in a stagger-X lattice of side offset [s],
    half side length [l] and row height [h]. *)
Definition vertexX (s l h : Z) (e : bool) (t : QPoint) (k : nat) : QPoint :=
  ((fst t + cornerA (k mod 8)) * (s + 2 * l) + cornerB (k mod 8) * s,
   (2 * snd t + staggerShift e (fst t) + cornerC (k mod 8)) * h).

(** Corner [k] of the tile [t] in a stagger-Y lattice of side offset [s],
    half side length [l] and column width [w]. *)
Definition vertexY (s l w : Z) (e : bool) (t : QPoint) (k : nat) : QPoint :=
  ((2 * fst t + staggerShift e (snd t) + cornerCY (k mod 8)) * w,
   (snd t + cornerAY (k mod 8)) * (s + 2 * l) + cornerBY (k mod 8) * s).

(** [emitsX] and [emitsY] as propositions on the lattice. *)
Definition emitsXP (W H : Z) (e : bool) (t : QPoint) (k : nat) : Prop :=
  match k with
  | 5%nat => fst t = W - 1 \/ (snd t = H - 1 /\ staggerShift e (fst t) = 1)
  | 6%nat => snd t = H - 1
  | 7%nat => fst t = 0 \/ (snd t = H - 1 /\ staggerShift e (fst t) = 1)
  | _ => True
  end.

Definition emitsYP (W H : Z) (e : bool) (t : QPoint) (k : nat) : Prop :=
  match k with
  | 4%nat => fst t = W - 1
  | 5%nat => snd t = H - 1 \/ (fst t = W - 1 /\ staggerShift e (snd t) = 1)
  | 7%nat => snd t = H - 1 \/ (fst t = 0 /\ staggerShift e (snd t) = 0)
  | _ => True
  end.

(** ** The edges of the tiling *)

(** An edge of the tiling: a tile and the corner of its outline at which the
    edge starts. *)
Definition Edge : Type := (QPoint * nat)%type.

Definition Edge_eq_dec (a b : Edge) : {a = b} + {a <> b}.
Proof. repeat decide equality. Defined.

(** The line of an edge. *)
Definition edgeLine (m : Map.t) (ws : Workspace.t) (e : Edge) : QLine :=
  tileEdge m ws (fst e) (snd e).

(** The tiles of the grid in the order of the sweep, the corners at which
    the edges of an outline start, and the gating of the sweep. *)
Definition gridTiles (m : Map.t) (ws : Workspace.t) : list QPoint :=
  if Map.isStaggerX m
  then tilesByColumn (Workspace.width ws) (Workspace.height ws)
  else tilesByRow (Workspace.width ws) (Workspace.height ws).

Definition edgeKinds (m : Map.t) : list nat :=
  if Map.isStaggerX m then kindsX else kindsY.

Definition emits (m : Map.t) (ws : Workspace.t) (t : QPoint) (k : nat) : bool :=
  if Map.isStaggerX m
  then emitsX (RenderParams.new m ws) ws t k
  else emitsY (RenderParams.new m ws) ws t k.

(** The same edge seen from the tile on its other side: the neighbour
    across the edge and the corner at which the edge starts in the outline
    of that neighbour.  Under stagger-X the edges 1, 2 and 3 are the upper
    left, the top and the upper right one, and 5, 6 and 7 the lower right, the
    bottom and the lower left one; under stagger-Y the edges 0 and 4 are the
    left and the right one, 1 and 3 the upper and 7 and 5 the lower ones. *)
Definition across (m : Map.t) (e : Edge) : Edge :=
  let x := fst (fst e) in
  let y := snd (fst e) in
  if Map.isStaggerX m then
    match snd e with
    | 1%nat => (topLeft m x y, 5%nat)
    | 2%nat => ((x, y - 1), 6%nat)
    | 3%nat => (topRight m x y, 7%nat)
    | 5%nat => (bottomRight m x y, 1%nat)
    | 6%nat => ((x, y + 1), 2%nat)
    | 7%nat => (bottomLeft m x y, 3%nat)
    | _ => e
    end
  else
    match snd e with
    | 0%nat => ((x - 1, y), 4%nat)
    | 1%nat => (topLeft m x y, 5%nat)
    | 3%nat => (topRight m x y, 7%nat)
    | 4%nat => ((x + 1, y), 0%nat)
    | 5%nat => (bottomRight m x y, 1%nat)
    | 7%nat => (bottomLeft m x y, 3%nat)
    | _ => e
    end.

(** The edges for which the sweep of a grid that is wholly exposed appends
    a line, tile by tile. *)
Definition drawnEdges (m : Map.t) (ws : Workspace.t) : list Edge :=
  flat_map (fun t => List.map (pair t) (filter (emits m ws t) (edgeKinds m)))
           (gridTiles m ws).

(** ** Pixel coordinates *)

(** [HexagonalRenderer::tileToPixelCoords] *)
Definition tileToPixelCoords (map : Map.t) (workspace : Workspace.t) (x y : Q) : QPoint :=
  tileToScreenCoords map workspace x y.

(** [HexagonalRenderer::pixelToTileCoords] *)
Definition pixelToTileCoords (map : Map.t) (workspace : Workspace.t) (x y : Q) : QPoint :=
  screenToTileCoords map workspace x y.

(** ** Notions used to state further properties *)

(** Two states of [minDist] that hold the same distance. *)
Definition sameDist (a b : option Q) : Prop :=
  match a, b with
  | None, None => True
  | Some d, Some e => (d == e)%Q
  | _, _ => False
  end.

(** The workspace that [drawTileLayer] builds from the layer. *)
Definition layerWorkspace (layer : TileLayer.t) : Workspace.t :=
  Workspace.make (TileLayer.width layer) (TileLayer.height layer)
                 (TileLayer.tileWidth layer) (TileLayer.tileHeight layer).

(** The place of the cell of the tile [tile] of a layer: the bottom-left
    corner of the tile, the layer being at its position in the grid. *)
Definition cellPlace (map : Map.t) (layer : TileLayer.t) (tile : QPoint) : QPoint :=
  padd (tileToScreenCoordsP map (layerWorkspace layer) (padd tile (TileLayer.position layer)))
       (0, tileHeight (RenderParams.new map (layerWorkspace layer))).

(** A call that renders the cell of a tile of the layer, which is not empty,
    at the place of that tile. *)
Definition rendersCellInPlace (map : Map.t) (layer : TileLayer.t) (call : RenderCall) : Prop :=
  exists t, TileLayer.contains layer t = true
            /\ rc_cell call = TileLayer.cellAt layer t
            /\ cell_isEmpty (rc_cell call) = false
            /\ rc_pos call = cellPlace map layer t.

(** The order of the painter: from top to bottom and, on one level, from
    left to right. *)
Definition drawnBefore (a b : QPoint) : Prop :=
  snd a < snd b \/ (snd a = snd b /\ fst a < fst b).

(** The calls of one row: in order, all on the level [py], none left of
    [px]. *)
Definition rowOrdered (px py : Z) (calls : list RenderCall) : Prop :=
  StronglySorted drawnBefore (List.map rc_pos calls)
  /\ Forall (fun call => snd (rc_pos call) = py /\ px <= fst (rc_pos call)) calls.

(** The calls of a sweep: in order, none above the level [py]. *)
Definition sweepOrdered (py : Z) (calls : list RenderCall) : Prop :=
  StronglySorted drawnBefore (List.map rc_pos calls)
  /\ Forall (fun call => py <= snd (rc_pos call)) calls.

(** The reference tile of [screenToTileCoords]: the tile of the grid-aligned
    cell that holds the point, its index along the stagger axis doubled and
    adjusted. *)
Definition referencePoint (map : Map.t) (workspace : Workspace.t) (x y : Q) : QPoint :=
  let p := RenderParams.new map workspace in
  let x := if staggerX p
           then (x - inject_Z (if staggerEven p then tileWidth p else sideOffsetX p))%Q
           else x in
  let y := if staggerX p
           then y
           else (y - inject_Z (if staggerEven p then tileHeight p else sideOffsetY p))%Q in
  let refX := qFloor (x / inject_Z (columnWidth p * 2)) in
  let refY := qFloor (y / inject_Z (rowHeight p * 2)) in
  let adjust (index : Z) := index * 2 + (if staggerEven p then 1 else 0) in
  if staggerX p then (adjust refX, refY) else (refX, adjust refY).

(** The four tiles among which [screenToTileCoords] chooses. *)
Definition candidateTiles (map : Map.t) (workspace : Workspace.t) (x y : Q) : list QPoint :=
  List.map (padd (referencePoint map workspace x y))
           (if staggerX (RenderParams.new map workspace)
            then offsetsStaggerX else offsetsStaggerY).

(** The rectangle that [drawTileLayer] sweeps: the exposed rectangle,
    aligned, or the bounding rectangle of the layer when that is null,
    adjusted by the draw margins of the layer. *)
Definition sweptRect (map : Map.t) (layer : TileLayer.t) (exposed : QRectF.t) : QRect.t :=
  let tileWorkspace := layerWorkspace layer in
  let p := RenderParams.new map tileWorkspace in
  let rect := QRectF.toAlignedRect exposed in
  let rect :=
    if QRect.isNull rect
    then boundingRect map tileWorkspace (TileLayer.bounds layer) else rect in
  let drawMargins := TileLayer.drawMargins layer in
  let marginBottom := m_bottom drawMargins + tileHeight p in
  let marginRight := m_right drawMargins - tileWidth p in
  QRect.adjust rect (- marginRight) (- marginBottom) (m_left drawMargins) (m_top drawMargins).

(** The swept rectangle reaches two steps of the grid beyond the bounding
    rectangle of the layer on the left and at the top, and to its end on the
    right and at the bottom. *)
Definition coversLayer (map : Map.t) (layer : TileLayer.t) (exposed : QRectF.t) : Prop :=
  let p := RenderParams.new map (layerWorkspace layer) in
  let rect := sweptRect map layer exposed in
  let b := boundingRect map (layerWorkspace layer) (TileLayer.bounds layer) in
  QRect.left rect <= QRect.x b - 2 * (tileWidth p + sideLengthX p)
  /\ QRect.top rect <= QRect.y b - 2 * (tileHeight p + sideLengthY p)
  /\ QRect.x b + QRect.width b <= QRect.right rect
  /\ QRect.y b + QRect.height b < QRect.bottom rect.

(** ** clipboardmanager.cpp: what the clipboard holds *)

Module ClipboardManager.

(** A [QMimeData], as [update] reads it: its [hasFormat]. *)
Definition QMimeData : Type := string -> bool.

Definition TMX_MIMETYPE : string := "text/tmx".

(** The two flags of the manager. *)
Record t : Type := make { mHasMap : bool; mHasProperties : bool }.

Inductive Signal : Type := hasMapChanged | hasPropertiesChanged.

Section Update.

(** [PROPERTIES_MIMETYPE] is defined in a header that is not among the
    sources; [update] is embedded for any value of it. *)
Variable PROPERTIES_MIMETYPE : string.

(** [ClipboardManager::update]: [mimeData] is [mClipboard->mimeData()],
    which can be null; the result is the manager after the call and the
    signals emitted, in order. *)
Definition update (mimeData : option QMimeData) (self : t) : t * list Signal :=
  let hasMap :=
    match mimeData with Some data => data TMX_MIMETYPE | None => false end in
  let hasProperties :=
    match mimeData with Some data => data PROPERTIES_MIMETYPE | None => false end in
  let '(self, emitted1) :=
    if negb (Bool.eqb hasMap (mHasMap self))
    then (make hasMap (mHasProperties self), [hasMapChanged])
    else (self, []) in
  let '(self, emitted2) :=
    if negb (Bool.eqb hasProperties (mHasProperties self))
    then (make (mHasMap self) hasProperties, [hasPropertiesChanged])
    else (self, []) in
  (self, emitted1 ++ emitted2).

End Update.

End ClipboardManager.

(** * Properties *)

(** ** RenderParams *)

Lemma land_not1_even (a : Z) : Z.land a (Z.lnot 1) = 2 * (a / 2).
Proof.
  change (Z.lnot 1) with (Z.lnot (Z.ones 1)).
  rewrite <- Z.ldiff_land, Z.ldiff_ones_r by lia.
  rewrite Z.shiftr_div_pow2, Z.shiftl_mul_pow2 by lia.
  change (2 ^ 1) with 2. lia.
Qed.

Lemma land1_mod (a : Z) : Z.land a 1 = a mod 2.
Proof. change 1 with (Z.ones 1) at 1. now rewrite Z.land_ones by lia. Qed.

(** C9, as stated, fails: a hexagonal map whose side length is 0 has both
    side lengths equal to 0. *)
Lemma sideLengths_both_zero :
  let p := RenderParams.new (Map.make Map.Hexagonal Map.StaggerX Map.StaggerOdd 0)
                            (Workspace.make 3 3 32 32) in
  ~ exactlyOneNonzero (sideLengthX p) (sideLengthY p).
Proof. cbv. intros [[H _] | [_ H]]; now apply H. Qed.

(** C9, amended: for a hexagonal map, [sideLengthX] is the side length of the
    map and [sideLengthY] is 0 under stagger-X, and the other way round under
    stagger-Y; so exactly one of them is not zero if and only if the side
    length of the map is not zero. *)
Theorem sideLengths_follow_staggerAxis (m : Map.t) (ws : Workspace.t) :
  Map.orientation m = Map.Hexagonal ->
  let p := RenderParams.new m ws in
  (Map.staggerAxis m = Map.StaggerX ->
   sideLengthX p = Map.hexSideLength m /\ sideLengthY p = 0)
  /\ (Map.staggerAxis m = Map.StaggerY ->
      sideLengthX p = 0 /\ sideLengthY p = Map.hexSideLength m)
  /\ (exactlyOneNonzero (sideLengthX p) (sideLengthY p)
      <-> Map.hexSideLength m <> 0).
Proof.
  intros Hhex. unfold exactlyOneNonzero, RenderParams.new; cbn.
  unfold Map.isHexagonal, Map.isStaggerX. rewrite Hhex.
  destruct (Map.staggerAxis m); cbn; repeat split; try discriminate; intuition lia.
Qed.

Lemma sideLengths_follow_staggerAxis_witness :
  let p := RenderParams.new (Map.make Map.Hexagonal Map.StaggerY Map.StaggerEven 4)
                            (Workspace.make 3 3 32 32) in
  (Map.StaggerY = Map.StaggerX -> sideLengthX p = 4 /\ sideLengthY p = 0)
  /\ (Map.StaggerY = Map.StaggerY -> sideLengthX p = 0 /\ sideLengthY p = 4)
  /\ (exactlyOneNonzero (sideLengthX p) (sideLengthY p) <-> 4 <> 0).
Proof.
  exact (sideLengths_follow_staggerAxis
           (Map.make Map.Hexagonal Map.StaggerY Map.StaggerEven 4)
           (Workspace.make 3 3 32 32) eq_refl).
Defined.

(** ** The concrete scenario *)

(** C4, as stated, fails: column 0 is a staggered column under StaggerEven,
    so tile (0,0) is not drawn at (0,0). *)
Lemma scenario_origin_tile_is_staggered :
  tileToScreenCoordsP scenarioMap scenarioWorkspace (0, 0) <> (0, 0).
Proof. vm_compute. discriminate. Qed.

(** C4, amended: in the scenario the derived constants are
    sideOffsetX = 14, columnWidth = 18, sideLengthY = 0, sideOffsetY = 16 and
    rowHeight = 16, the work size is 68 by 112, column 0 is staggered and
    column 1 is not, tile (0,0) is drawn at (0,16) and tile (1,0) at
    (18,0). *)
Theorem scenario_values :
  let p := RenderParams.new scenarioMap scenarioWorkspace in
  sideOffsetX p = 14 /\ columnWidth p = 18 /\ sideLengthY p = 0
  /\ sideOffsetY p = 16 /\ rowHeight p = 16
  /\ workSize scenarioMap scenarioWorkspace = (68, 112)
  /\ doStaggerX p 0 = true /\ doStaggerX p 1 = false
  /\ tileToScreenCoordsP scenarioMap scenarioWorkspace (0, 0) = (0, 16)
  /\ tileToScreenCoordsP scenarioMap scenarioWorkspace (1, 0) = (18, 0).
Proof. vm_compute. repeat split. Qed.

(** ** Bounding rectangles *)

(** The size of the bounding rectangle of a range of tiles is the work size
    of a workspace of the extents of the range. *)
Lemma boundingRect_size (m : Map.t) (ws : Workspace.t) (r : QRect.t) :
  QRect.size (boundingRect m ws r)
  = workSize m (Workspace.make (QRect.width r) (QRect.height r)
                               (Workspace.tileWidth ws) (Workspace.tileHeight ws)).
Proof.
  unfold boundingRect, workSize, QRect.size, QRect.width, QRect.height, QRect.make.
  cbn.
  destruct (Map.isStaggerX m);
    match goal with |- context [1 <? ?a] => destruct (1 <? a) end;
    cbn; f_equal; lia.
Qed.

(** C10: the bounding rectangle of a range of tiles starts at the screen
    position of the top-left tile of the range, moved up by one row height
    under stagger-X (left by one column width under stagger-Y) when the range
    spans more than one column (row) and starts on a staggered one; its size
    follows the formulas of [workSize] with the extents of the range. *)
Theorem boundingRect_spec (m : Map.t) (ws : Workspace.t) (r : QRect.t) :
  let p := RenderParams.new m ws in
  let topLeft := tileToScreenCoordsP m ws (QRect.topLeft r) in
  let shifted (spans staggered : bool) (step : Z) : Z :=
    if spans && staggered then step else 0 in
  (if staggerX p then
     QRect.topLeft (boundingRect m ws r)
     = (fst topLeft,
        snd topLeft - shifted (1 <? QRect.width r) (doStaggerX p (QRect.x r)) (rowHeight p))
     /\ QRect.width (boundingRect m ws r) = QRect.width r * columnWidth p + sideOffsetX p
     /\ QRect.height (boundingRect m ws r)
        = QRect.height r * (tileHeight p + sideLengthY p)
          + (if 1 <? QRect.width r then rowHeight p else 0)
   else
     QRect.topLeft (boundingRect m ws r)
     = (fst topLeft - shifted (1 <? QRect.height r) (doStaggerY p (QRect.y r)) (columnWidth p),
        snd topLeft)
     /\ QRect.width (boundingRect m ws r)
        = QRect.width r * (tileWidth p + sideLengthX p)
          + (if 1 <? QRect.height r then columnWidth p else 0)
     /\ QRect.height (boundingRect m ws r) = QRect.height r * rowHeight p + sideOffsetY p)
  /\ QRect.size (boundingRect m ws r)
     = workSize m (Workspace.make (QRect.width r) (QRect.height r)
                                  (Workspace.tileWidth ws) (Workspace.tileHeight ws)).
Proof.
  cbv beta zeta. generalize (boundingRect_size m ws r).
  unfold boundingRect; cbv beta zeta.
  generalize (tileToScreenCoordsP m ws (QRect.topLeft r)).
  generalize (RenderParams.new m ws). intros p tl Hsize.
  split; [clear Hsize | exact Hsize].
  unfold doStaggerX, doStaggerY.
  destruct (staggerX p); destruct (1 <? _); destruct (isStaggeredIndex _ _);
    unfold QRect.topLeft, QRect.width, QRect.height, QRect.make;
    cbn [QRect.x1 QRect.y1 QRect.x2 QRect.y2 fst snd andb];
    repeat split; try (apply (f_equal2 (@pair Z Z))); lia.
Qed.

(** ** Neighbours *)

Lemma parityXorIndex_succ (m : Map.t) (i : Z) :
  parityXorIndex m (i + 1) = negb (parityXorIndex m i).
Proof.
  unfold parityXorIndex. rewrite !land1_mod.
  assert (H : (i + 1) mod 2 = 1 - i mod 2).
  { pose proof (Z.mod_pos_bound i 2 ltac:(lia)).
    rewrite Z.add_mod by lia. change (1 mod 2) with 1.
    assert (Hc : i mod 2 = 0 \/ i mod 2 = 1) by lia.
    destruct Hc as [-> | ->]; reflexivity. }
  rewrite H. pose proof (Z.mod_pos_bound i 2 ltac:(lia)).
  assert (Hc : i mod 2 = 0 \/ i mod 2 = 1) by lia.
  destruct (Map.staggerIndex m); destruct Hc as [-> | ->]; reflexivity.
Qed.

Lemma parityXorIndex_pred (m : Map.t) (i : Z) :
  parityXorIndex m (i - 1) = negb (parityXorIndex m i).
Proof.
  replace i with ((i - 1) + 1) at 2 by lia.
  rewrite parityXorIndex_succ. now rewrite negb_involutive.
Qed.

(** C6: going to the bottom-right neighbour and from there to its top-left
    neighbour leads back to the tile, and so does going bottom-left and then
    top-right, for every tile index, both stagger axes and both stagger
    indexes. *)
Theorem neighbours_round_trip (m : Map.t) (x y : Z) :
  topLeft m (fst (bottomRight m x y)) (snd (bottomRight m x y)) = (x, y)
  /\ topRight m (fst (bottomLeft m x y)) (snd (bottomLeft m x y)) = (x, y).
Proof.
  unfold topLeft, topRight, bottomLeft, bottomRight.
  destruct (Map.staggerAxis m).
  - destruct (parityXorIndex m x) eqn:E; cbn [fst snd];
      rewrite ?parityXorIndex_succ, ?parityXorIndex_pred, E; cbn [negb];
      split; apply (f_equal2 (@pair Z Z)); lia.
  - destruct (parityXorIndex m y) eqn:E; cbn [fst snd];
      rewrite ?parityXorIndex_succ, ?parityXorIndex_pred, E; cbn [negb];
      split; apply (f_equal2 (@pair Z Z)); lia.
Qed.

(** ** The polygon of one tile *)

(** C5: the polygon of a tile is computed from the default workspace, whose
    tile size is 0 by 0, whatever workspace the other operations are given:
    its corners only depend on the map and on the tile index, and they are
    not the corners of the outline that [drawGrid] draws for the same tile in
    a workspace of 32 by 32 pixel tiles. *)
Theorem tileToScreenPolygon_uses_default_workspace :
  (forall (m : Map.t) (x y : Z),
      let p := RenderParams.new m (Workspace.make 0 0 0 0) in
      tileWidth p = 0 /\ tileHeight p = 0
      /\ tileToScreenPolygon m x y
         = List.map (padd (tileToScreenCoordsP m (Workspace.make 0 0 0 0) (x, y))) (oct p))
  /\ tileToScreenPolygon scenarioMap 1 1
     <> List.map (padd (tileToScreenCoordsP scenarioMap scenarioWorkspace (1, 1)))
                 (oct (RenderParams.new scenarioMap scenarioWorkspace)).
Proof.
  split.
  - intros m x y. cbv zeta. repeat split.
  - vm_compute. discriminate.
Qed.

(** ** Independence of the workspace parameter *)

(** C2: [drawTileLayer] and [drawTileSelection] give the same output for any
    two values of their workspace parameter. *)
Theorem drawing_ignores_workspace_parameter
    (m : Map.t) (layer : TileLayer.t) (region : list QRect.t)
    (exposed : QRectF.t) (ws1 ws2 : Workspace.t) :
  drawTileLayer m layer ws1 exposed = drawTileLayer m layer ws2 exposed
  /\ drawTileSelection m region ws1 exposed = drawTileSelection m region ws2 exposed.
Proof. split; reflexivity. Qed.

(** ** Cells that refer to no tile *)

(** A filled cell without a tile is rendered with the size that
    [Workspace::tileSize] returns, which is the extent of the grid in
    tiles. *)
Lemma renderCell_without_tile (ws : Workspace.t) (pos : QPoint) :
  renderCell ws (mkCell false None) pos
  = [mkRenderCall (mkCell false None) pos (Workspace.width ws, Workspace.height ws)].
Proof. reflexivity. Qed.

(** C3 fails on the code: in a layer of 3 by 2 tiles of 32 by 32 pixels the
    filled cells without a tile are rendered with the size 3 by 2, not 32 by
    32. *)
Theorem untiled_cell_rendered_with_grid_extent :
  drawTileLayer scenarioMap untiledLayer scenarioWorkspace wholeScreen <> []
  /\ Forall (fun call => rc_size call = (3, 2) /\ rc_size call <> (32, 32))
            (drawTileLayer scenarioMap untiledLayer scenarioWorkspace wholeScreen).
Proof.
  split.
  - vm_compute. discriminate.
  - vm_compute. repeat constructor; discriminate.
Qed.

(** ** Degenerate inputs *)

Lemma drawGrid_null_rect (m : Map.t) (ws : Workspace.t) (exposed : QRectF.t) :
  QRect.isNull (QRectF.toAlignedRect exposed) = true -> drawGrid m exposed ws = [].
Proof. intros H. unfold drawGrid. now rewrite H. Qed.

Lemma toAlignedRect_point (x y : Z) :
  QRectF.toAlignedRect (QRectF.make (inject_Z x) (inject_Z y) 0 0) = QRect.make x y 0 0.
Proof.
  unfold QRectF.toAlignedRect, qFloor, qCeil. cbn [QRectF.xp QRectF.yp QRectF.w QRectF.h].
  rewrite !Qfloor_Z.
  rewrite (Qceiling_comp (inject_Z x + 0) (inject_Z x)) by apply Qplus_0_r.
  rewrite (Qceiling_comp (inject_Z y + 0) (inject_Z y)) by apply Qplus_0_r.
  rewrite !Qceiling_Z. f_equal; lia.
Qed.

(** C8, as stated, fails: a rectangle of size zero at a position that is not
    an integer is aligned to a rectangle of one pixel, and the grid is
    drawn. *)
Lemma drawGrid_zero_size_rect_draws :
  let exposed := QRectF.make (1 # 2) (33 # 2) 0 0 in
  QRectF.w exposed = 0%Q /\ QRectF.h exposed = 0%Q
  /\ drawGrid scenarioMap exposed scenarioWorkspace <> [].
Proof. vm_compute. split; [reflexivity | split; [reflexivity | discriminate]]. Qed.

(** C8, amended: [drawGrid] draws no line for an exposed rectangle of size
    zero at integer coordinates, whose aligned rectangle is null, and
    [drawTileSelection] fills no polygon for an empty region. *)
Theorem degenerate_inputs_draw_nothing
    (m : Map.t) (ws : Workspace.t) (x y : Z) (exposed : QRectF.t) :
  drawGrid m (QRectF.make (inject_Z x) (inject_Z y) 0 0) ws = []
  /\ drawTileSelection m [] ws exposed = [].
Proof.
  split; [| reflexivity].
  apply drawGrid_null_rect. rewrite toAlignedRect_point.
  unfold QRect.isNull, QRect.make. cbn [QRect.x1 QRect.x2 QRect.y1 QRect.y2].
  apply andb_true_intro; split; apply Z.eqb_eq; lia.
Qed.

(** ** The loops run to their end *)

(** Each loop is given the number of iterations that its guard allows; with
    more fuel the result is the same, so no loop is cut short. *)

Lemma gridColumnX_fuel (p : RenderParams.t) (ws : Workspace.t) (rect : QRect.t) (n : nat) :
  forall rowTile rowPos,
    (Z.to_nat (Workspace.height ws - snd rowTile) <= n)%nat ->
    gridColumnX (S n) p ws rect rowTile rowPos = gridColumnX n p ws rect rowTile rowPos.
Proof.
  induction n as [| n IH]; intros rowTile rowPos Hn.
  - cbn [gridColumnX].
    destruct (Z.ltb_spec (snd rowTile) (Workspace.height ws)); [lia |].
    now rewrite andb_false_r.
  - change (gridColumnX (S (S n)) p ws rect rowTile rowPos)
      with (if (snd rowPos <=? QRect.bottom rect)
               && (snd rowTile <? Workspace.height ws)
            then gridLinesX p ws rowTile rowPos
                 ++ gridColumnX (S n) p ws rect (fst rowTile, snd rowTile + 1)
                      (fst rowPos, snd rowPos + (tileHeight p + sideLengthY p))
            else []).
    rewrite IH by (cbn [snd]; lia). reflexivity.
Qed.

Lemma gridSweepX_fuel (p : RenderParams.t) (ws : Workspace.t) (rect : QRect.t) (n : nat) :
  forall startTile startPos,
    (Z.to_nat (Workspace.width ws - fst startTile) <= n)%nat ->
    gridSweepX (S n) p ws rect startTile startPos = gridSweepX n p ws rect startTile startPos.
Proof.
  induction n as [| n IH]; intros startTile startPos Hn.
  - cbn [gridSweepX].
    destruct (Z.ltb_spec (fst startTile) (Workspace.width ws)); [lia |].
    now rewrite andb_false_r.
  - change (gridSweepX (S (S n)) p ws rect startTile startPos)
      with (if (fst startPos <=? QRect.right rect)
               && (fst startTile <? Workspace.width ws)
            then gridColumnX (Z.to_nat (Workspace.height ws - snd startTile)) p ws rect
                   startTile
                   (if doStaggerX p (fst startTile)
                    then (fst startPos, snd startPos + rowHeight p) else startPos)
                 ++ gridSweepX (S n) p ws rect (fst startTile + 1, snd startTile)
                      (fst startPos + columnWidth p, snd startPos)
            else []).
    rewrite IH by (cbn [fst]; lia). reflexivity.
Qed.

Lemma gridRowY_fuel (p : RenderParams.t) (ws : Workspace.t) (rect : QRect.t) (n : nat) :
  forall rowTile rowPos,
    (Z.to_nat (Workspace.width ws - fst rowTile) <= n)%nat ->
    gridRowY (S n) p ws rect rowTile rowPos = gridRowY n p ws rect rowTile rowPos.
Proof.
  induction n as [| n IH]; intros rowTile rowPos Hn.
  - cbn [gridRowY].
    destruct (Z.ltb_spec (fst rowTile) (Workspace.width ws)); [lia |].
    now rewrite andb_false_r.
  - change (gridRowY (S (S n)) p ws rect rowTile rowPos)
      with (if (fst rowPos <=? QRect.right rect)
               && (fst rowTile <? Workspace.width ws)
            then gridLinesY p ws rowTile rowPos
                 ++ gridRowY (S n) p ws rect (fst rowTile + 1, snd rowTile)
                      (fst rowPos + (tileWidth p + sideLengthX p), snd rowPos)
            else []).
    rewrite IH by (cbn [fst]; lia). reflexivity.
Qed.

Lemma gridSweepY_fuel (p : RenderParams.t) (ws : Workspace.t) (rect : QRect.t) (n : nat) :
  forall startTile startPos,
    (Z.to_nat (Workspace.height ws - snd startTile) <= n)%nat ->
    gridSweepY (S n) p ws rect startTile startPos = gridSweepY n p ws rect startTile startPos.
Proof.
  induction n as [| n IH]; intros startTile startPos Hn.
  - cbn [gridSweepY].
    destruct (Z.ltb_spec (snd startTile) (Workspace.height ws)); [lia |].
    now rewrite andb_false_r.
  - change (gridSweepY (S (S n)) p ws rect startTile startPos)
      with (if (snd startPos <=? QRect.bottom rect)
               && (snd startTile <? Workspace.height ws)
            then gridRowY (Z.to_nat (Workspace.width ws - fst startTile)) p ws rect
                   startTile
                   (if doStaggerY p (snd startTile)
                    then (fst startPos + columnWidth p, snd startPos) else startPos)
                 ++ gridSweepY (S n) p ws rect (fst startTile, snd startTile + 1)
                      (fst startPos, snd startPos + rowHeight p)
            else []).
    rewrite IH by (cbn [snd]; lia). reflexivity.
Qed.

Lemma layerRowX_fuel (p : RenderParams.t) (layer : TileLayer.t) (tws : Workspace.t)
    (rect : QRect.t) (n : nat) :
  forall rowTile rowPos,
    (Z.to_nat (TileLayer.width layer - fst rowTile) <= n)%nat ->
    layerRowX (S n) p layer tws rect rowTile rowPos
    = layerRowX n p layer tws rect rowTile rowPos.
Proof.
  induction n as [| n IH]; intros rowTile rowPos Hn.
  - cbn [layerRowX].
    destruct (Z.ltb_spec (fst rowTile) (TileLayer.width layer)); [lia |].
    now rewrite andb_false_r.
  - change (layerRowX (S (S n)) p layer tws rect rowTile rowPos)
      with (if (fst rowPos <? QRect.right rect) && (fst rowTile <? TileLayer.width layer)
            then (if TileLayer.contains layer rowTile
                  then renderCell tws (TileLayer.cellAt layer rowTile) rowPos else [])
                 ++ layerRowX (S n) p layer tws rect (fst rowTile + 2, snd rowTile)
                      (fst rowPos + (tileWidth p + sideLengthX p), snd rowPos)
            else []).
    rewrite IH by (cbn [fst]; lia). reflexivity.
Qed.

Lemma layerRowY_fuel (p : RenderParams.t) (layer : TileLayer.t) (tws : Workspace.t)
    (rect : QRect.t) (n : nat) :
  forall rowTile rowPos,
    (Z.to_nat (TileLayer.width layer - fst rowTile) <= n)%nat ->
    layerRowY (S n) p layer tws rect rowTile rowPos
    = layerRowY n p layer tws rect rowTile rowPos.
Proof.
  induction n as [| n IH]; intros rowTile rowPos Hn.
  - cbn [layerRowY].
    destruct (Z.ltb_spec (fst rowTile) (TileLayer.width layer)); [lia |].
    now rewrite andb_false_r.
  - change (layerRowY (S (S n)) p layer tws rect rowTile rowPos)
      with (if (fst rowPos <? QRect.right rect) && (fst rowTile <? TileLayer.width layer)
            then renderCell tws (TileLayer.cellAt layer rowTile) rowPos
                 ++ layerRowY (S n) p layer tws rect (fst rowTile + 1, snd rowTile)
                      (fst rowPos + (tileWidth p + sideLengthX p), snd rowPos)
            else []).
    rewrite IH by (cbn [fst]; lia). reflexivity.
Qed.

Lemma layerSweepY_fuel (p : RenderParams.t) (layer : TileLayer.t) (tws : Workspace.t)
    (rect : QRect.t) (n : nat) :
  forall startTile startPos,
    (Z.to_nat (TileLayer.height layer - snd startTile) <= n)%nat ->
    layerSweepY (S n) p layer tws rect startTile startPos
    = layerSweepY n p layer tws rect startTile startPos.
Proof.
  induction n as [| n IH]; intros startTile startPos Hn.
  - cbn [layerSweepY].
    destruct (Z.ltb_spec (snd startTile) (TileLayer.height layer)); [lia |].
    now rewrite andb_false_r.
  - change (layerSweepY (S (S n)) p layer tws rect startTile startPos)
      with (if (snd startPos <? QRect.bottom rect)
               && (snd startTile <? TileLayer.height layer)
            then layerRowY (Z.to_nat (TileLayer.width layer - fst startTile)) p layer tws rect
                   startTile
                   (if doStaggerY p (snd startTile + TileLayer.y layer)
                    then (fst startPos + columnWidth p, snd startPos) else startPos)
                 ++ layerSweepY (S n) p layer tws rect (fst startTile, snd startTile + 1)
                      (fst startPos, snd startPos + rowHeight p)
            else []).
    rewrite IH by (cbn [snd]; lia). reflexivity.
Qed.

(** In the stagger-X sweep of [drawTileLayer] the row index grows on every
    second iteration: a staggered row is followed by a row that is not. *)
Lemma layerSweepX_fuel (p : RenderParams.t) (layer : TileLayer.t) (tws : Workspace.t)
    (rect : QRect.t) (n : nat) :
  forall startTile startPos (staggeredRow : bool),
    (Z.to_nat (2 * (TileLayer.height layer - snd startTile)
               - (if staggeredRow then 1 else 0)) <= n)%nat ->
    layerSweepX (S n) p layer tws rect startTile startPos staggeredRow
    = layerSweepX n p layer tws rect startTile startPos staggeredRow.
Proof.
  induction n as [| n IH]; intros startTile startPos staggeredRow Hn.
  - cbn [layerSweepX].
    destruct (Z.ltb_spec (snd startTile) (TileLayer.height layer));
      [destruct staggeredRow; lia |].
    now rewrite andb_false_r.
  - change (layerSweepX (S (S n)) p layer tws rect startTile startPos staggeredRow)
      with (if (snd startPos <? QRect.bottom rect)
               && (snd startTile <? TileLayer.height layer)
            then layerRowX (Z.to_nat (TileLayer.width layer - fst startTile)) p layer tws rect
                   startTile startPos
                 ++ (if staggeredRow
                     then layerSweepX (S n) p layer tws rect
                            (fst startTile - 1, snd startTile + 1)
                            (fst startPos - columnWidth p, snd startPos + rowHeight p) false
                     else layerSweepX (S n) p layer tws rect
                            (fst startTile + 1, snd startTile)
                            (fst startPos + columnWidth p, snd startPos + rowHeight p) true)
            else []).
    destruct staggeredRow; rewrite IH by (cbn [snd]; lia); reflexivity.
Qed.

Lemma more_fuel {A : Type} (loop : nat -> A) (n0 : nat) :
  (forall n, (n0 <= n)%nat -> loop (S n) = loop n) ->
  forall n, (n0 <= n)%nat -> loop n = loop n0.
Proof.
  intros Hstep n Hn. induction Hn as [| n Hn IH]; [reflexivity |].
  now rewrite Hstep.
Qed.

(** The sweeps of [drawGrid] and [drawTileLayer] with the fuel that these
    functions give them are the sweeps with any larger fuel. *)
Lemma sweeps_run_to_their_end (p : RenderParams.t) (ws : Workspace.t) (layer : TileLayer.t)
    (rect : QRect.t) (startTile startPos : QPoint) (n : nat) :
  ((Z.to_nat (Workspace.width ws - fst startTile) <= n)%nat ->
   gridSweepX n p ws rect startTile startPos
   = gridSweepX (Z.to_nat (Workspace.width ws - fst startTile)) p ws rect startTile startPos)
  /\ ((Z.to_nat (Workspace.height ws - snd startTile) <= n)%nat ->
      gridSweepY n p ws rect startTile startPos
      = gridSweepY (Z.to_nat (Workspace.height ws - snd startTile)) p ws rect
          startTile startPos)
  /\ ((Z.to_nat (2 * (TileLayer.height layer - snd startTile)) <= n)%nat ->
      forall staggeredRow,
        layerSweepX n p layer ws rect startTile startPos staggeredRow
        = layerSweepX (Z.to_nat (2 * (TileLayer.height layer - snd startTile)))
            p layer ws rect startTile startPos staggeredRow)
  /\ ((Z.to_nat (TileLayer.height layer - snd startTile) <= n)%nat ->
      layerSweepY n p layer ws rect startTile startPos
      = layerSweepY (Z.to_nat (TileLayer.height layer - snd startTile)) p layer ws rect
          startTile startPos).
Proof.
  repeat split.
  - apply (more_fuel (fun k => gridSweepX k p ws rect startTile startPos)).
    intros k Hk. now apply gridSweepX_fuel.
  - apply (more_fuel (fun k => gridSweepY k p ws rect startTile startPos)).
    intros k Hk. now apply gridSweepY_fuel.
  - intros Hn staggeredRow. revert Hn.
    apply (more_fuel (fun k => layerSweepX k p layer ws rect startTile startPos staggeredRow)).
    intros k Hk. apply layerSweepX_fuel. destruct staggeredRow; lia.
  - apply (more_fuel (fun k => layerSweepY k p layer ws rect startTile startPos)).
    intros k Hk. now apply layerSweepY_fuel.
Qed.

(** ** The coordinate conversion on whole pixels *)

Lemma Qfloor_div_Z (a b : Z) : Qfloor (inject_Z a / inject_Z b) = a / b.
Proof.
  destruct b as [| b | b].
  - rewrite Z.div_0_r.
    unfold Qdiv, Qinv, Qmult, inject_Z, Qfloor; cbn [Qnum Qden].
    now rewrite Z.mul_0_r.
  - unfold Qdiv, Qinv, Qmult, inject_Z, Qfloor; cbn [Qnum Qden].
    now rewrite Z.mul_1_r, Pos.mul_1_l.
  - unfold Qdiv, Qinv, Qmult, inject_Z, Qfloor; cbn [Qnum Qden].
    rewrite Pos.mul_1_l.
    change (Z.neg b) with (- Z.pos b). rewrite <- (Z.div_opp_opp a (- Z.pos b)) by lia.
    rewrite Z.opp_involutive. f_equal. lia.
Qed.

Lemma Qcompare_inject_Z (a b : Z) : (inject_Z a ?= inject_Z b)%Q = (a ?= b).
Proof. unfold Qcompare, inject_Z; cbn [Qnum Qden]. now rewrite !Z.mul_1_r. Qed.

Lemma lengthSquared_Z (c r : QPoint) (rel : QPointF) :
  (fst rel == inject_Z (fst r))%Q -> (snd rel == inject_Z (snd r))%Q ->
  (lengthSquared c rel == inject_Z (dist2 c r))%Q.
Proof.
  intros Hx Hy. unfold lengthSquared, dist2. rewrite Hx, Hy.
  rewrite inject_Z_plus, !inject_Z_mult. unfold Z.sub.
  rewrite !inject_Z_plus, !inject_Z_opp. ring.
Qed.

Lemma nearestLoop_Z (r : QPoint) (rel : QPointF) (cs : list QPoint) :
  (fst rel == inject_Z (fst r))%Q -> (snd rel == inject_Z (snd r))%Q ->
  forall (i nearest : nat) (md : option Q) (mz : option Z),
    sameMinDist md mz ->
    nearestLoop rel cs i nearest md = nearestLoopZ r cs i nearest mz.
Proof.
  intros Hx Hy. induction cs as [| c cs IH]; intros i nearest md mz Hm; [reflexivity |].
  cbn [nearestLoop nearestLoopZ].
  pose proof (lengthSquared_Z c r rel Hx Hy) as Hd.
  destruct md as [d |], mz as [z |]; cbn in Hm; try contradiction.
  - rewrite (Qcompare_comp _ _ Hd _ _ Hm), Qcompare_inject_Z.
    unfold Z.ltb. destruct (dist2 c r ?= z); apply IH; cbn; auto.
  - apply IH. exact Hd.
Qed.

Lemma screenToTileCoordsP_Z (m : Map.t) (ws : Workspace.t) (pixel : QPoint) :
  screenToTileCoordsP m ws pixel = screenToTileCoordsZ m ws pixel.
Proof.
  unfold screenToTileCoordsP, screenToTileCoords, screenToTileCoordsZ, qFloor.
  set (p := RenderParams.new m ws).
  set (sx := if staggerEven p then tileWidth p else sideOffsetX p).
  set (sy := if staggerEven p then tileHeight p else sideOffsetY p).
  assert (Hsub : forall a b, (inject_Z a - inject_Z b == inject_Z (a - b))%Q).
  { intros a b. unfold Z.sub. rewrite inject_Z_plus, inject_Z_opp. reflexivity. }
  destruct (staggerX p).
  - rewrite (Qfloor_comp ((inject_Z (fst pixel) - inject_Z sx) / inject_Z (columnWidth p * 2))
                          (inject_Z (fst pixel - sx) / inject_Z (columnWidth p * 2)))
      by (apply Qmult_comp; [apply Hsub | reflexivity]).
    rewrite !Qfloor_div_Z.
    f_equal. f_equal.
    apply nearestLoop_Z; cbn [fst snd]; [| | exact I].
    + rewrite (Hsub (fst pixel) sx). apply Hsub.
    + apply Hsub.
  - rewrite (Qfloor_comp ((inject_Z (snd pixel) - inject_Z sy) / inject_Z (rowHeight p * 2))
                          (inject_Z (snd pixel - sy) / inject_Z (rowHeight p * 2)))
      by (apply Qmult_comp; [apply Hsub | reflexivity]).
    rewrite !Qfloor_div_Z.
    f_equal. f_equal.
    apply nearestLoop_Z; cbn [fst snd]; [| | exact I].
    + apply Hsub.
    + rewrite (Hsub (snd pixel) sy). apply Hsub.
Qed.

Lemma rem2_even (a : Z) : (Z.rem a 2 =? 0) = Z.even a.
Proof. symmetry. apply Zeven_rem. Qed.

Lemma parityXorIndex_staggered (m : Map.t) (ws : Workspace.t) (i : Z) :
  parityXorIndex m i = isStaggeredIndex (RenderParams.new m ws) i.
Proof.
  unfold parityXorIndex, isStaggeredIndex. cbn [staggerEven RenderParams.new].
  rewrite rem2_even, land1_mod, Zmod_even.
  unfold Map.isStaggerEven.
  destruct (Map.staggerIndex m), (Z.even i); reflexivity.
Qed.

Lemma quot2_double (a : Z) : (2 * a) ÷ 2 = a.
Proof. rewrite Z.mul_comm. apply Z.quot_mul. lia. Qed.

Lemma new_shapeX (m : Map.t) (ws : Workspace.t) :
  validGeometry m ws -> Map.isStaggerX m = true ->
  exists s l h : Z,
    0 <= s /\ 0 <= l /\ 0 < s + l /\ 0 < h
    /\ RenderParams.new m ws
       = RenderParams.make (2 * (s + l)) (2 * h) (2 * l) 0 s h h (s + 2 * l)
                           true (Map.isStaggerEven m).
Proof.
  intros (Hhex & Hw & Hh & Hs0 & Hse & Hsw) HX. rewrite HX in Hsw.
  unfold RenderParams.new, Map.isHexagonal. rewrite Hhex, HX. cbn [andb negb].
  rewrite !land_not1_even.
  apply Z.even_spec in Hse. destruct Hse as [l Hl].
  exists (Workspace.tileWidth ws / 2 - l), l, (Workspace.tileHeight ws / 2).
  pose proof (Z.div_mod (Workspace.tileWidth ws) 2 ltac:(lia)).
  pose proof (Z.mod_pos_bound (Workspace.tileWidth ws) 2 ltac:(lia)).
  pose proof (Z.div_mod (Workspace.tileHeight ws) 2 ltac:(lia)).
  pose proof (Z.mod_pos_bound (Workspace.tileHeight ws) 2 ltac:(lia)).
  repeat (split; [lia |]).
  rewrite Hl.
  replace (2 * (Workspace.tileWidth ws / 2) - 2 * l)
    with (2 * (Workspace.tileWidth ws / 2 - l)) by lia.
  rewrite Z.sub_0_r, !quot2_double.
  f_equal; lia.
Qed.

Lemma new_shapeY (m : Map.t) (ws : Workspace.t) :
  validGeometry m ws -> Map.isStaggerX m = false ->
  exists s l w : Z,
    0 <= s /\ 0 <= l /\ 0 < s + l /\ 0 < w
    /\ RenderParams.new m ws
       = RenderParams.make (2 * w) (2 * (s + l)) 0 (2 * l) w s (s + 2 * l) w
                           false (Map.isStaggerEven m).
Proof.
  intros (Hhex & Hw & Hh & Hs0 & Hse & Hsw) HX. rewrite HX in Hsw.
  unfold RenderParams.new, Map.isHexagonal. rewrite Hhex, HX. cbn [andb negb].
  rewrite !land_not1_even.
  apply Z.even_spec in Hse. destruct Hse as [l Hl].
  exists (Workspace.tileHeight ws / 2 - l), l, (Workspace.tileWidth ws / 2).
  pose proof (Z.div_mod (Workspace.tileWidth ws) 2 ltac:(lia)).
  pose proof (Z.mod_pos_bound (Workspace.tileWidth ws) 2 ltac:(lia)).
  pose proof (Z.div_mod (Workspace.tileHeight ws) 2 ltac:(lia)).
  pose proof (Z.mod_pos_bound (Workspace.tileHeight ws) 2 ltac:(lia)).
  repeat (split; [lia |]).
  rewrite Hl.
  replace (2 * (Workspace.tileHeight ws / 2) - 2 * l)
    with (2 * (Workspace.tileHeight ws / 2 - l)) by lia.
  rewrite Z.sub_0_r, !quot2_double.
  f_equal; lia.
Qed.

(** ** The render parameters without the condition on the parity *)

Lemma validGeometry_hex (m : Map.t) (ws : Workspace.t) :
  validGeometry m ws -> hexGeometry m ws.
Proof. intros (H1 & H2 & H3 & H4 & _ & H5). repeat split; assumption. Qed.

Lemma quot2_bounds (a : Z) :
  -1 <= a -> 0 <= a ÷ 2 /\ 2 * (a ÷ 2) <= Z.max a 0 /\ a <= 2 * (a ÷ 2) + 1.
Proof.
  intros Ha. destruct (Z.eq_dec a (-1)) as [-> | Hne]; [cbn; lia |].
  rewrite Z.quot_div_nonneg by lia.
  pose proof (Z.div_mod a 2 ltac:(lia)). pose proof (Z.mod_pos_bound a 2 ltac:(lia)). lia.
Qed.

Lemma hexGeometry_params (m : Map.t) (ws : Workspace.t) :
  hexGeometry m ws ->
  let p := RenderParams.new m ws in
  (2 <= tileWidth p <= Workspace.tileWidth ws /\ 2 <= tileHeight p <= Workspace.tileHeight ws)
  /\ (0 <= sideOffsetX p <= columnWidth p /\ 0 <= sideOffsetY p <= rowHeight p)
  /\ (0 < columnWidth p <= Workspace.tileWidth ws /\ 0 < rowHeight p <= Workspace.tileHeight ws)
  /\ (0 <= sideLengthX p <= Workspace.tileWidth ws /\ 0 <= sideLengthY p <= Workspace.tileHeight ws)
  /\ staggerX p = Map.isStaggerX m
  /\ (if Map.isStaggerX m
      then sideLengthY p = 0 /\ tileHeight p = 2 * rowHeight p /\ sideOffsetY p = rowHeight p
      else sideLengthX p = 0 /\ tileWidth p = 2 * columnWidth p /\ sideOffsetX p = columnWidth p).
Proof.
  intros (Hhex & Hw & Hh & Hs0 & Hsw). cbv zeta.
  unfold RenderParams.new, Map.isHexagonal. rewrite Hhex.
  cbn [tileWidth tileHeight sideLengthX sideLengthY sideOffsetX sideOffsetY
       rowHeight columnWidth staggerX staggerEven andb].
  rewrite !land_not1_even.
  pose proof (Z.div_mod (Workspace.tileWidth ws) 2 ltac:(lia)).
  pose proof (Z.mod_pos_bound (Workspace.tileWidth ws) 2 ltac:(lia)).
  pose proof (Z.div_mod (Workspace.tileHeight ws) 2 ltac:(lia)).
  pose proof (Z.mod_pos_bound (Workspace.tileHeight ws) 2 ltac:(lia)).
  destruct (Map.isStaggerX m); cbn [negb].
  - rewrite Z.sub_0_r, quot2_double.
    pose proof (quot2_bounds (2 * (Workspace.tileWidth ws / 2) - Map.hexSideLength m) ltac:(lia)).
    repeat split; lia.
  - rewrite Z.sub_0_r, quot2_double.
    pose proof (quot2_bounds (2 * (Workspace.tileHeight ws / 2) - Map.hexSideLength m) ltac:(lia)).
    repeat split; lia.
Qed.

Lemma centers_nearOrigin (m : Map.t) (ws : Workspace.t) :
  hexGeometry m ws -> smallTiles ws ->
  Forall nearOrigin (centers (RenderParams.new m ws)).
Proof.
  intros Hg [Hsw Hsh].
  pose proof (hexGeometry_params m ws Hg) as (Ht & Ho & Hc & Hl & HX & Hax). cbv zeta in *.
  set (p := RenderParams.new m ws) in *.
  unfold centers. rewrite HX.
  assert (Hq : forall a, 0 <= a -> 0 <= a ÷ 2 /\ 2 * (a ÷ 2) <= a).
  { intros a Ha. pose proof (quot2_bounds a ltac:(lia)). lia. }
  pose proof (Hq (sideLengthX p) ltac:(lia)). pose proof (Hq (sideLengthY p) ltac:(lia)).
  pose proof (Hq (tileWidth p) ltac:(lia)). pose proof (Hq (tileHeight p) ltac:(lia)).
  destruct (Map.isStaggerX m); destruct Hax as (Hax1 & Hax2 & Hax3).
  - assert (tileHeight p ÷ 2 = rowHeight p) by (rewrite Hax2; apply quot2_double).
    repeat (apply Forall_cons; [unfold nearOrigin; cbn [fst snd]; lia |]). apply Forall_nil.
  - assert (tileWidth p ÷ 2 = columnWidth p) by (rewrite Hax2; apply quot2_double).
    repeat (apply Forall_cons; [unfold nearOrigin; cbn [fst snd]; lia |]). apply Forall_nil.
Qed.

Lemma hex_shapeX (m : Map.t) (ws : Workspace.t) :
  hexGeometry m ws -> Map.isStaggerX m = true ->
  exists T o s h : Z,
    2 <= T /\ 0 <= o /\ 0 <= s /\ 0 < o + s /\ 0 < h
    /\ RenderParams.new m ws
       = RenderParams.make T (2 * h) s 0 o h h (o + s) true (Map.isStaggerEven m).
Proof.
  intros Hg HX.
  pose proof (hexGeometry_params m ws Hg) as (Ht & Ho & Hc & Hl & HsX & Hax). cbv zeta in *.
  rewrite HX in Hax, HsX. destruct Hax as (Hly & Hth & Hoy).
  exists (tileWidth (RenderParams.new m ws)), (sideOffsetX (RenderParams.new m ws)),
         (sideLengthX (RenderParams.new m ws)), (rowHeight (RenderParams.new m ws)).
  assert (Hcw : columnWidth (RenderParams.new m ws)
                = sideOffsetX (RenderParams.new m ws) + sideLengthX (RenderParams.new m ws))
    by reflexivity.
  assert (Hev : staggerEven (RenderParams.new m ws) = Map.isStaggerEven m) by reflexivity.
  repeat (split; [lia |]).
  destruct (RenderParams.new m ws). cbn in *. subst. reflexivity.
Qed.

Lemma hex_shapeY (m : Map.t) (ws : Workspace.t) :
  hexGeometry m ws -> Map.isStaggerX m = false ->
  exists T o s w : Z,
    2 <= T /\ 0 <= o /\ 0 <= s /\ 0 < o + s /\ 0 < w
    /\ RenderParams.new m ws
       = RenderParams.make (2 * w) T 0 s w o (o + s) w false (Map.isStaggerEven m).
Proof.
  intros Hg HX.
  pose proof (hexGeometry_params m ws Hg) as (Ht & Ho & Hc & Hl & HsX & Hax). cbv zeta in *.
  rewrite HX in Hax, HsX. destruct Hax as (Hly & Hth & Hoy).
  exists (tileHeight (RenderParams.new m ws)), (sideOffsetY (RenderParams.new m ws)),
         (sideLengthY (RenderParams.new m ws)), (columnWidth (RenderParams.new m ws)).
  assert (Hrh : rowHeight (RenderParams.new m ws)
                = sideOffsetY (RenderParams.new m ws) + sideLengthY (RenderParams.new m ws))
    by reflexivity.
  assert (Hev : staggerEven (RenderParams.new m ws) = Map.isStaggerEven m) by reflexivity.
  repeat (split; [lia |]).
  destruct (RenderParams.new m ws). cbn in *. subst. reflexivity.
Qed.

Lemma quot2_nonneg (a : Z) : 0 <= a -> 0 <= a ÷ 2.
Proof. intros H. apply Z.quot_pos; lia. Qed.

(** ** The coordinate conversion: the inverse of [tileToScreenCoords] *)

Lemma Qltb_lt (a b : Q) : QRectF.Qltb a b = true <-> (a < b)%Q.
Proof.
  unfold QRectF.Qltb. rewrite Qlt_alt. destruct (a ?= b)%Q; split; intros H; congruence.
Qed.

Lemma Qfloor_div_eq (X : Q) (c k : Z) :
  0 < c -> (inject_Z (k * c) <= X)%Q -> (X < inject_Z ((k + 1) * c))%Q ->
  Qfloor (X / inject_Z c) = k.
Proof.
  intros Hc Hlo Hhi.
  assert (HcQ : (0 < inject_Z c)%Q) by (change 0%Q with (inject_Z 0); now rewrite <- Zlt_Qlt).
  rewrite inject_Z_mult in Hlo, Hhi.
  assert (H1 : (inject_Z k <= X / inject_Z c)%Q) by (apply Qle_shift_div_l; assumption).
  assert (H2 : (X / inject_Z c < inject_Z (k + 1))%Q) by (apply Qlt_shift_div_r; assumption).
  apply Qfloor_resp_le in H1. rewrite Qfloor_Z in H1.
  pose proof (Qfloor_le (X / inject_Z c)) as H3.
  assert (H4 : (inject_Z (Qfloor (X / inject_Z c)) < inject_Z (k + 1))%Q)
    by (eapply Qle_lt_trans; eassumption).
  rewrite <- Zlt_Qlt in H4. lia.
Qed.

Section Pick.

Variables (rel : QPointF) (c0 c1 c2 c3 : QPoint).

Local Notation "'d0'" := (lengthSquared c0 rel).
Local Notation "'d1'" := (lengthSquared c1 rel).
Local Notation "'d2'" := (lengthSquared c2 rel).
Local Notation "'d3'" := (lengthSquared c3 rel).

Ltac loop4 :=
  cbn [nearestLoop];
  repeat match goal with
         | |- context [(?a ?= ?b)%Q] =>
             let H := fresh in
             destruct (Qcompare_spec a b) as [H | H | H]; try lra
         end;
  try reflexivity.

Lemma pick0 : (d0 <= d1 -> d0 <= d2 -> d0 <= d3 ->
                nearestLoop rel [c0; c1; c2; c3] 0 0 None = 0%nat)%Q.
Proof. intros H1 H2 H3. loop4. Qed.

Lemma pick1 : (d1 < d0 -> d1 <= d2 -> d1 <= d3 ->
                nearestLoop rel [c0; c1; c2; c3] 0 0 None = 1%nat)%Q.
Proof. intros H1 H2 H3. loop4. Qed.

Lemma pick2 : (d2 < d0 -> d2 < d1 -> d2 <= d3 ->
                nearestLoop rel [c0; c1; c2; c3] 0 0 None = 2%nat)%Q.
Proof. intros H1 H2 H3. loop4. Qed.

Lemma pick3 : (d3 < d0 -> d3 < d1 -> d3 < d2 ->
                nearestLoop rel [c0; c1; c2; c3] 0 0 None = 3%nat)%Q.
Proof. intros H1 H2 H3. loop4. Qed.

End Pick.

Ltac qnorm :=
  unfold Z.sub in *;
  repeat (progress (rewrite ?inject_Z_plus, ?inject_Z_mult, ?inject_Z_opp in * ));
  change (inject_Z 2) with 2%Q in *; change (inject_Z 1) with 1%Q in *;
  change (inject_Z 0) with 0%Q in *.

Ltac finish_offsets :=
  cbn [nth offsetsStaggerX offsetsStaggerY fst snd]; unfold padd; cbn [fst snd];
  apply (f_equal2 (@pair Z Z)); lia.

Lemma posQ (a : Z) : 0 < a -> (0 < inject_Z a)%Q.
Proof. intros H. change 0%Q with (inject_Z 0). now rewrite <- Zlt_Qlt. Qed.

Lemma nonnegQ (a : Z) : 0 <= a -> (0 <= inject_Z a)%Q.
Proof. intros H. change 0%Q with (inject_Z 0). now rewrite <- Zle_Qle. Qed.

Lemma nearest_centre_staggerX (m : Map.t) (ws : Workspace.t) (x y : Z) (d : QPointF) :
  validGeometry m ws -> Map.isStaggerX m = true ->
  let p := RenderParams.new m ws in
  let q := paddF (tileToScreenCoordsP m ws (x, y)) d in
  (0 < fst d)%Q -> (fst d < inject_Z (tileWidth p))%Q ->
  (0 < snd d)%Q -> (snd d < inject_Z (tileHeight p))%Q ->
  (forall n, In n (neighbours m x y) ->
             (lengthSquared (centreOf m ws (x, y)) q < lengthSquared (centreOf m ws n) q)%Q) ->
  screenToTileCoords m ws (fst q) (snd q) = (x, y).
Proof.
  intros Hv HX p q. subst p q.
  destruct (new_shapeX m ws Hv HX) as (s & l & h & Hs & Hl & Hsl & Hh & Hnew).
  intros Hdx0 Hdx1 Hdy0 Hdy1 Hn.
  assert (Hax : Map.staggerAxis m = Map.StaggerX).
  { unfold Map.isStaggerX in HX. destruct (Map.staggerAxis m); [reflexivity | discriminate]. }
  unfold neighbours, topLeft, topRight, bottomLeft, bottomRight in Hn.
  rewrite Hax, !(parityXorIndex_staggered m ws) in Hn.
  unfold centreOf, hexCentre, tileToScreenCoordsP, tileToScreenCoords, qFloor in *.
  unfold screenToTileCoords, centers, doStaggerX, isStaggeredIndex, qFloor in *.
  rewrite Hnew in *.
  cbn [tileWidth tileHeight sideLengthX sideLengthY sideOffsetX sideOffsetY
       rowHeight columnWidth staggerX staggerEven fst snd] in *.
  rewrite !quot2_double in *.
  rewrite !Qfloor_Z in *.
  rewrite !rem2_even in *.
  destruct d as [dx dy]. cbn [fst snd padd paddF app In] in *.
  pose proof (Hn _ (or_introl eq_refl)) as N1.
  pose proof (Hn _ (or_intror (or_introl eq_refl))) as N2.
  pose proof (Hn _ (or_intror (or_intror (or_introl eq_refl)))) as N3.
  pose proof (Hn _ (or_intror (or_intror (or_intror (or_introl eq_refl))))) as N4.
  pose proof (Hn _ (or_intror (or_intror (or_intror (or_intror (or_introl eq_refl)))))) as N5.
  pose proof (Hn _ (or_intror (or_intror (or_intror (or_intror (or_intror (or_introl eq_refl))))))) as N6.
  clear Hn Hnew.
  pose proof (nonnegQ s Hs) as Qs. pose proof (nonnegQ l Hl) as Ql.
  pose proof (posQ (s + l) Hsl) as Qsl. pose proof (posQ h Hh) as Qh.
  destruct (Map.isStaggerEven m); destruct (Z.even x) eqn:E; cbn [negb fst snd] in *;
    rewrite ?Qfloor_Z, ?rem2_even, ?Z.even_add, ?Z.even_sub, ?E in *;
    cbn [Z.even Bool.eqb negb fst snd] in *.
  all: unfold lengthSquared, padd, paddF in N1, N2, N3, N4, N5, N6; cbn [fst snd] in *.
  - (* StaggerEven, even column: a staggered one *)
    apply Z.even_spec in E. destruct E as [k ->].
    rewrite (Qfloor_div_eq _ ((s + 2 * l) * 2) (k - 1)); [| lia | qnorm; lra | qnorm; lra].
    destruct (Qlt_le_dec dy (inject_Z h)) as [Hlow | Hhigh].
    + rewrite (Qfloor_div_eq _ (h * 2) y); [| lia | qnorm; lra | qnorm; lra].
      rewrite pick2; [finish_offsets | unfold lengthSquared; cbn [fst snd]; qnorm; lra ..].
    + rewrite (Qfloor_div_eq _ (h * 2) (y + 1)); [| lia | qnorm; lra | qnorm; lra].
      rewrite pick1; [finish_offsets | unfold lengthSquared; cbn [fst snd]; qnorm; lra ..].
  - (* StaggerEven, odd column *)
    assert (Ho : Z.odd x = true) by (rewrite <- Z.negb_even, E; reflexivity).
    apply Z.odd_spec in Ho. destruct Ho as [k ->].
    rewrite (Qfloor_div_eq _ (h * 2) y); [| lia | qnorm; lra | qnorm; lra].
    destruct (Qlt_le_dec dx (inject_Z s)) as [Hlow | Hhigh].
    + rewrite (Qfloor_div_eq _ ((s + 2 * l) * 2) (k - 1)); [| lia | qnorm; lra | qnorm; lra].
      rewrite pick3;
        [finish_offsets | unfold lengthSquared; cbn [fst snd]; qnorm; try lra ..].
      nra.
    + rewrite (Qfloor_div_eq _ ((s + 2 * l) * 2) k); [| lia | qnorm; lra | qnorm; lra].
      rewrite pick0;
        [finish_offsets | unfold lengthSquared; cbn [fst snd]; qnorm; try lra ..].
      nra.
  - (* StaggerOdd, even column *)
    apply Z.even_spec in E. destruct E as [k ->].
    rewrite (Qfloor_div_eq _ (h * 2) y); [| lia | qnorm; lra | qnorm; lra].
    destruct (Qlt_le_dec dx (inject_Z s)) as [Hlow | Hhigh].
    + rewrite (Qfloor_div_eq _ ((s + 2 * l) * 2) (k - 1)); [| lia | qnorm; lra | qnorm; lra].
      rewrite pick3;
        [finish_offsets | unfold lengthSquared; cbn [fst snd]; qnorm; try lra ..].
      nra.
    + rewrite (Qfloor_div_eq _ ((s + 2 * l) * 2) k); [| lia | qnorm; lra | qnorm; lra].
      rewrite pick0;
        [finish_offsets | unfold lengthSquared; cbn [fst snd]; qnorm; try lra ..].
      nra.
  - (* StaggerOdd, odd column: a staggered one *)
    assert (Ho : Z.odd x = true) by (rewrite <- Z.negb_even, E; reflexivity).
    apply Z.odd_spec in Ho. destruct Ho as [k ->].
    rewrite (Qfloor_div_eq _ ((s + 2 * l) * 2) k); [| lia | qnorm; lra | qnorm; lra].
    destruct (Qlt_le_dec dy (inject_Z h)) as [Hlow | Hhigh].
    + rewrite (Qfloor_div_eq _ (h * 2) y); [| lia | qnorm; lra | qnorm; lra].
      rewrite pick2; [finish_offsets | unfold lengthSquared; cbn [fst snd]; qnorm; lra ..].
    + rewrite (Qfloor_div_eq _ (h * 2) (y + 1)); [| lia | qnorm; lra | qnorm; lra].
      rewrite pick1; [finish_offsets | unfold lengthSquared; cbn [fst snd]; qnorm; lra ..].
Qed.

Lemma nearest_centre_staggerY (m : Map.t) (ws : Workspace.t) (x y : Z) (d : QPointF) :
  validGeometry m ws -> Map.isStaggerX m = false ->
  let p := RenderParams.new m ws in
  let q := paddF (tileToScreenCoordsP m ws (x, y)) d in
  (0 < fst d)%Q -> (fst d < inject_Z (tileWidth p))%Q ->
  (0 < snd d)%Q -> (snd d < inject_Z (tileHeight p))%Q ->
  (forall n, In n (neighbours m x y) ->
             (lengthSquared (centreOf m ws (x, y)) q < lengthSquared (centreOf m ws n) q)%Q) ->
  screenToTileCoords m ws (fst q) (snd q) = (x, y).
Proof.
  intros Hv HX p q. subst p q.
  destruct (new_shapeY m ws Hv HX) as (s & l & w & Hs & Hl & Hsl & Hw & Hnew).
  intros Hdx0 Hdx1 Hdy0 Hdy1 Hn.
  assert (Hax : Map.staggerAxis m = Map.StaggerY).
  { unfold Map.isStaggerX in HX. destruct (Map.staggerAxis m); [discriminate | reflexivity]. }
  unfold neighbours, topLeft, topRight, bottomLeft, bottomRight in Hn.
  rewrite Hax, !(parityXorIndex_staggered m ws) in Hn.
  unfold centreOf, hexCentre, tileToScreenCoordsP, tileToScreenCoords, qFloor in *.
  unfold screenToTileCoords, centers, doStaggerY, isStaggeredIndex, qFloor in *.
  rewrite Hnew in *.
  cbn [tileWidth tileHeight sideLengthX sideLengthY sideOffsetX sideOffsetY
       rowHeight columnWidth staggerX staggerEven fst snd] in *.
  rewrite !quot2_double in *.
  rewrite !Qfloor_Z in *.
  rewrite !rem2_even in *.
  destruct d as [dx dy]. cbn [fst snd padd paddF app In] in *.
  pose proof (Hn _ (or_introl eq_refl)) as N1.
  pose proof (Hn _ (or_intror (or_introl eq_refl))) as N2.
  pose proof (Hn _ (or_intror (or_intror (or_introl eq_refl)))) as N3.
  pose proof (Hn _ (or_intror (or_intror (or_intror (or_introl eq_refl))))) as N4.
  pose proof (Hn _ (or_intror (or_intror (or_intror (or_intror (or_introl eq_refl)))))) as N5.
  pose proof (Hn _ (or_intror (or_intror (or_intror (or_intror (or_intror (or_introl eq_refl))))))) as N6.
  clear Hn Hnew.
  pose proof (nonnegQ s Hs) as Qs. pose proof (nonnegQ l Hl) as Ql.
  pose proof (posQ (s + l) Hsl) as Qsl. pose proof (posQ w Hw) as Qw.
  destruct (Map.isStaggerEven m); destruct (Z.even y) eqn:E; cbn [negb fst snd] in *;
    rewrite ?Qfloor_Z, ?rem2_even, ?Z.even_add, ?Z.even_sub, ?E in *;
    cbn [Z.even Bool.eqb negb fst snd] in *.
  all: unfold lengthSquared, padd, paddF in N1, N2, N3, N4, N5, N6; cbn [fst snd] in *.
  - (* StaggerEven, even row: a staggered one *)
    apply Z.even_spec in E. destruct E as [k ->].
    rewrite (Qfloor_div_eq _ ((s + 2 * l) * 2) (k - 1)); [| lia | qnorm; lra | qnorm; lra].
    destruct (Qlt_le_dec dx (inject_Z w)) as [Hlow | Hhigh].
    + rewrite (Qfloor_div_eq _ (w * 2) x); [| lia | qnorm; lra | qnorm; lra].
      rewrite pick2; [finish_offsets | unfold lengthSquared; cbn [fst snd]; qnorm; lra ..].
    + rewrite (Qfloor_div_eq _ (w * 2) (x + 1)); [| lia | qnorm; lra | qnorm; lra].
      rewrite pick1; [finish_offsets | unfold lengthSquared; cbn [fst snd]; qnorm; lra ..].
  - (* StaggerEven, odd row *)
    assert (Ho : Z.odd y = true) by (rewrite <- Z.negb_even, E; reflexivity).
    apply Z.odd_spec in Ho. destruct Ho as [k ->].
    rewrite (Qfloor_div_eq _ (w * 2) x); [| lia | qnorm; lra | qnorm; lra].
    destruct (Qlt_le_dec dy (inject_Z s)) as [Hlow | Hhigh].
    + rewrite (Qfloor_div_eq _ ((s + 2 * l) * 2) (k - 1)); [| lia | qnorm; lra | qnorm; lra].
      rewrite pick3;
        [finish_offsets | unfold lengthSquared; cbn [fst snd]; qnorm; try lra ..].
      nra.
    + rewrite (Qfloor_div_eq _ ((s + 2 * l) * 2) k); [| lia | qnorm; lra | qnorm; lra].
      rewrite pick0;
        [finish_offsets | unfold lengthSquared; cbn [fst snd]; qnorm; try lra ..].
      nra.
  - (* StaggerOdd, even row *)
    apply Z.even_spec in E. destruct E as [k ->].
    rewrite (Qfloor_div_eq _ (w * 2) x); [| lia | qnorm; lra | qnorm; lra].
    destruct (Qlt_le_dec dy (inject_Z s)) as [Hlow | Hhigh].
    + rewrite (Qfloor_div_eq _ ((s + 2 * l) * 2) (k - 1)); [| lia | qnorm; lra | qnorm; lra].
      rewrite pick3;
        [finish_offsets | unfold lengthSquared; cbn [fst snd]; qnorm; try lra ..].
      nra.
    + rewrite (Qfloor_div_eq _ ((s + 2 * l) * 2) k); [| lia | qnorm; lra | qnorm; lra].
      rewrite pick0;
        [finish_offsets | unfold lengthSquared; cbn [fst snd]; qnorm; try lra ..].
      nra.
  - (* StaggerOdd, odd row: a staggered one *)
    assert (Ho : Z.odd y = true) by (rewrite <- Z.negb_even, E; reflexivity).
    apply Z.odd_spec in Ho. destruct Ho as [k ->].
    rewrite (Qfloor_div_eq _ ((s + 2 * l) * 2) k); [| lia | qnorm; lra | qnorm; lra].
    destruct (Qlt_le_dec dx (inject_Z w)) as [Hlow | Hhigh].
    + rewrite (Qfloor_div_eq _ (w * 2) x); [| lia | qnorm; lra | qnorm; lra].
      rewrite pick2; [finish_offsets | unfold lengthSquared; cbn [fst snd]; qnorm; lra ..].
    + rewrite (Qfloor_div_eq _ (w * 2) (x + 1)); [| lia | qnorm; lra | qnorm; lra].
      rewrite pick1; [finish_offsets | unfold lengthSquared; cbn [fst snd]; qnorm; lra ..].
Qed.

Lemma insideHexagon_edges (p : RenderParams.t) (d : QPointF) :
  insideHexagon p d = true ->
  forall k, (k < 8)%nat ->
    octAt p k = octAt p (S k) \/ (0 < cross (octAt p k) (octAt p (S k)) d)%Q.
Proof.
  unfold insideHexagon. rewrite forallb_forall. intros H k Hk.
  specialize (H k). rewrite in_seq in H. specialize (H ltac:(lia)).
  apply orb_true_iff in H. destruct H as [H | H].
  - left. apply andb_true_iff in H. destruct H as [H1 H2].
    apply Z.eqb_eq in H1, H2. destruct (octAt p k), (octAt p (S k)). cbn in *. congruence.
  - right. now apply Qltb_lt in H.
Qed.

Ltac pair_eq E :=
  pose proof (f_equal fst E); pose proof (f_equal snd E); cbn [fst snd] in *.

Lemma insideHexagon_box (m : Map.t) (ws : Workspace.t) (d : QPointF) :
  validGeometry m ws ->
  let p := RenderParams.new m ws in
  insideHexagon p d = true ->
  (0 < fst d)%Q /\ (fst d < inject_Z (tileWidth p))%Q
  /\ (0 < snd d)%Q /\ (snd d < inject_Z (tileHeight p))%Q.
Proof.
  intros Hv p Hin. subst p.
  pose proof (insideHexagon_edges _ _ Hin) as He. clear Hin.
  pose proof (He 0%nat ltac:(lia)) as E0. pose proof (He 1%nat ltac:(lia)) as E1.
  pose proof (He 2%nat ltac:(lia)) as E2. pose proof (He 3%nat ltac:(lia)) as E3.
  pose proof (He 4%nat ltac:(lia)) as E4. pose proof (He 5%nat ltac:(lia)) as E5.
  pose proof (He 6%nat ltac:(lia)) as E6. pose proof (He 7%nat ltac:(lia)) as E7.
  clear He. destruct d as [dx dy].
  destruct (Map.isStaggerX m) eqn:HX.
  - destruct (new_shapeX m ws Hv HX) as (s & l & h & Hs & Hl & Hsl & Hh & Hnew).
    rewrite Hnew in *. clear Hnew.
    pose proof (nonnegQ s Hs) as Qs. pose proof (nonnegQ l Hl) as Ql.
    pose proof (posQ (s + l) Hsl) as Qsl. pose proof (posQ h Hh) as Qh.
    unfold octAt, oct, cross in *.
    cbn [Nat.modulo Nat.divmod Nat.sub nth fst snd tileWidth tileHeight sideOffsetX sideOffsetY] in *.
    clear E0 E4.
    assert (A1 : (0 < inject_Z s * (dy - inject_Z h) + inject_Z h * dx)%Q).
    { destruct E1 as [E1 | E1]; [pair_eq E1; lia | qnorm; lra]. }
    assert (A3 : (0 < inject_Z s * dy - inject_Z h * (dx - inject_Z s - 2 * inject_Z l))%Q).
    { destruct E3 as [E3 | E3]; [pair_eq E3; lia | qnorm; lra]. }
    assert (A5 : (0 < - inject_Z s * (dy - inject_Z h)
                      - inject_Z h * (dx - 2 * (inject_Z s + inject_Z l)))%Q).
    { destruct E5 as [E5 | E5]; [pair_eq E5; lia | qnorm; lra]. }
    assert (A7 : (0 < - inject_Z s * (dy - 2 * inject_Z h) + inject_Z h * (dx - inject_Z s))%Q).
    { destruct E7 as [E7 | E7]; [pair_eq E7; lia | qnorm; lra]. }
    assert (A2 : l = 0 \/ (0 < inject_Z l * dy)%Q).
    { destruct E2 as [E2 | E2]; [pair_eq E2; left; lia | right; qnorm; lra]. }
    assert (A6 : l = 0 \/ (0 < inject_Z l * (2 * inject_Z h - dy))%Q).
    { destruct E6 as [E6 | E6]; [pair_eq E6; left; lia | right; qnorm; lra]. }
    clear E1 E2 E3 E5 E6 E7.
    cbn [fst snd]. qnorm.
    repeat split.
    + nra.
    + nra.
    + destruct A2 as [-> | A2]; [change (inject_Z 0) with 0%Q in *; nra | nra].
    + destruct A6 as [-> | A6]; [change (inject_Z 0) with 0%Q in *; nra | nra].
  - destruct (new_shapeY m ws Hv HX) as (s & l & w & Hs & Hl & Hsl & Hw & Hnew).
    rewrite Hnew in *. clear Hnew.
    pose proof (nonnegQ s Hs) as Qs. pose proof (nonnegQ l Hl) as Ql.
    pose proof (posQ (s + l) Hsl) as Qsl. pose proof (posQ w Hw) as Qw.
    unfold octAt, oct, cross in *.
    cbn [Nat.modulo Nat.divmod Nat.sub nth fst snd tileWidth tileHeight sideOffsetX sideOffsetY] in *.
    clear E2 E6.
    assert (A1 : (0 < inject_Z w * (dy - inject_Z s) + inject_Z s * dx)%Q).
    { destruct E1 as [E1 | E1]; [pair_eq E1; lia | qnorm; lra]. }
    assert (A3 : (0 < inject_Z w * dy - inject_Z s * (dx - inject_Z w))%Q).
    { destruct E3 as [E3 | E3]; [pair_eq E3; lia | qnorm; lra]. }
    assert (A5 : (0 < - inject_Z w * (dy - inject_Z s - 2 * inject_Z l)
                      - inject_Z s * (dx - 2 * inject_Z w))%Q).
    { destruct E5 as [E5 | E5]; [pair_eq E5; lia | qnorm; lra]. }
    assert (A7 : (0 < - inject_Z w * (dy - 2 * (inject_Z s + inject_Z l))
                      + inject_Z s * (dx - inject_Z w))%Q).
    { destruct E7 as [E7 | E7]; [pair_eq E7; lia | qnorm; lra]. }
    assert (A0 : l = 0 \/ (0 < inject_Z l * dx)%Q).
    { destruct E0 as [E0 | E0]; [pair_eq E0; left; lia | right; qnorm; lra]. }
    assert (A4 : l = 0 \/ (0 < inject_Z l * (2 * inject_Z w - dx))%Q).
    { destruct E4 as [E4 | E4]; [pair_eq E4; left; lia | right; qnorm; lra]. }
    clear E0 E1 E3 E4 E5 E7.
    cbn [fst snd]. qnorm.
    repeat split.
    + destruct A0 as [-> | A0]; [change (inject_Z 0) with 0%Q in *; nra | nra].
    + destruct A4 as [-> | A4]; [change (inject_Z 0) with 0%Q in *; nra | nra].
    + nra.
    + nra.
Qed.

Lemma nearest_centre_in_box (m : Map.t) (ws : Workspace.t) (x y : Z) (d : QPointF) :
  validGeometry m ws ->
  let p := RenderParams.new m ws in
  let q := paddF (tileToScreenCoordsP m ws (x, y)) d in
  (0 < fst d)%Q -> (fst d < inject_Z (tileWidth p))%Q ->
  (0 < snd d)%Q -> (snd d < inject_Z (tileHeight p))%Q ->
  (forall n, In n (neighbours m x y) ->
             (lengthSquared (centreOf m ws (x, y)) q < lengthSquared (centreOf m ws n) q)%Q) ->
  screenToTileCoords m ws (fst q) (snd q) = (x, y).
Proof.
  intros Hv p q. 
  destruct (Map.isStaggerX m) eqn:HX;
    [now apply nearest_centre_staggerX | now apply nearest_centre_staggerY].
Qed.

Lemma centres_apart (m : Map.t) (ws : Workspace.t) (x y : Z) (n : QPoint) :
  validGeometry m ws -> In n (neighbours m x y) ->
  0 < dist2 (centreOf m ws n) (centreOf m ws (x, y)).
Proof.
  intros Hv Hn.
  unfold neighbours, topLeft, topRight, bottomLeft, bottomRight in Hn.
  rewrite !(parityXorIndex_staggered m ws) in Hn.
  unfold centreOf, hexCentre, tileToScreenCoordsP, tileToScreenCoords, qFloor.
  unfold doStaggerX, doStaggerY, isStaggeredIndex in *.
  destruct (Map.isStaggerX m) eqn:HX.
  - destruct (new_shapeX m ws Hv HX) as (s & l & h & Hs & Hl & Hsl & Hh & Hnew).
    unfold Map.isStaggerX in HX.
    destruct (Map.staggerAxis m); [| discriminate].
    rewrite Hnew in *. clear Hnew.
    cbn [tileWidth tileHeight sideLengthX sideLengthY sideOffsetX sideOffsetY
         rowHeight columnWidth staggerX staggerEven fst snd app In] in *.
    rewrite ?Qfloor_Z, ?rem2_even in *.
    unfold dist2, padd; cbn [fst snd].
    destruct (Map.isStaggerEven m), (Z.even x) eqn:E; cbn [negb] in Hn;
      repeat (destruct Hn as [<- | Hn]; [| try contradiction]);
      cbn [fst snd]; rewrite ?Qfloor_Z, ?rem2_even, ?Z.even_add, ?Z.even_sub, ?E;
      cbn [Z.even Bool.eqb negb]; nia.
  - destruct (new_shapeY m ws Hv HX) as (s & l & w & Hs & Hl & Hsl & Hw & Hnew).
    unfold Map.isStaggerX in HX.
    destruct (Map.staggerAxis m); [discriminate |].
    rewrite Hnew in *. clear Hnew.
    cbn [tileWidth tileHeight sideLengthX sideLengthY sideOffsetX sideOffsetY
         rowHeight columnWidth staggerX staggerEven fst snd app In] in *.
    rewrite ?Qfloor_Z, ?rem2_even in *.
    unfold dist2, padd; cbn [fst snd].
    destruct (Map.isStaggerEven m), (Z.even y) eqn:E; cbn [negb] in Hn;
      repeat (destruct Hn as [<- | Hn]; [| try contradiction]);
      cbn [fst snd]; rewrite ?Qfloor_Z, ?rem2_even, ?Z.even_add, ?Z.even_sub, ?E;
      cbn [Z.even Bool.eqb negb]; nia.
Qed.

Lemma inject_Z_plus_eq (a b : Z) : (inject_Z a + inject_Z b)%Q = inject_Z (a + b).
Proof. unfold Qplus, inject_Z; cbn [Qnum Qden Pos.mul]. now rewrite !Z.mul_1_r. Qed.

Lemma paddF_toPointF (a c : QPoint) : paddF a (toPointF c) = toPointF (padd a c).
Proof. unfold paddF, toPointF, padd; cbn [fst snd]. now rewrite !inject_Z_plus_eq. Qed.

(** At the centre of its outline every tile is found again. *)
Lemma screenToTileCoords_at_centre (m : Map.t) (ws : Workspace.t) (x y : Z) :
  validGeometry m ws ->
  screenToTileCoordsP m ws (centreOf m ws (x, y)) = (x, y).
Proof.
  intros Hv. unfold screenToTileCoordsP.
  change (screenToTileCoords m ws (fst (toPointF (centreOf m ws (x, y))))
            (snd (toPointF (centreOf m ws (x, y)))) = (x, y)).
  unfold centreOf at 1 2. rewrite <- paddF_toPointF.
  assert (Hbox : 0 < fst (hexCentre (RenderParams.new m ws)) < tileWidth (RenderParams.new m ws)
                 /\ 0 < snd (hexCentre (RenderParams.new m ws))
                      < tileHeight (RenderParams.new m ws)).
  { unfold hexCentre.
    destruct (Map.isStaggerX m) eqn:HX;
      [destruct (new_shapeX m ws Hv HX) as (s & l & h & Hs & Hl & Hsl & Hh & ->)
      | destruct (new_shapeY m ws Hv HX) as (s & l & w & Hs & Hl & Hsl & Hw & ->)];
      cbn [fst snd tileWidth tileHeight]; rewrite !quot2_double; lia. }
  destruct Hbox as [[Hx0 Hx1] [Hy0 Hy1]].
  apply nearest_centre_in_box; [exact Hv | | | | |]; cbn [toPointF fst snd].
  - now apply posQ.
  - now rewrite <- Zlt_Qlt.
  - now apply posQ.
  - now rewrite <- Zlt_Qlt.
  - intros n Hn. rewrite paddF_toPointF. fold (centreOf m ws (x, y)).
    pose proof (centres_apart m ws x y n Hv Hn) as Hpos.
    rewrite (lengthSquared_Z (centreOf m ws (x, y)) (centreOf m ws (x, y)))
      by reflexivity.
    rewrite (lengthSquared_Z (centreOf m ws n) (centreOf m ws (x, y))) by reflexivity.
    rewrite <- Zlt_Qlt.
    assert (H0 : dist2 (centreOf m ws (x, y)) (centreOf m ws (x, y)) = 0)
      by (unfold dist2; lia).
    lia.
Qed.

(** With exact arithmetic, the conversion of a point of rational coordinates
    strictly inside the outline of a tile and strictly nearer to the centre
    of that tile than to the centres of the six tiles around it is that
    tile. *)
Lemma exact_inverse_near_centre
    (m : Map.t) (ws : Workspace.t) (x y : Z) (d : QPointF) :
  validGeometry m ws ->
  insideHexagon (RenderParams.new m ws) d = true ->
  (forall n, In n (neighbours m x y) ->
     (lengthSquared (centreOf m ws (x, y)) (paddF (tileToScreenCoordsP m ws (x, y)) d)
      < lengthSquared (centreOf m ws n) (paddF (tileToScreenCoordsP m ws (x, y)) d))%Q) ->
  screenToTileCoords m ws
    (fst (paddF (tileToScreenCoordsP m ws (x, y)) d))
    (snd (paddF (tileToScreenCoordsP m ws (x, y)) d)) = (x, y).
Proof.
  intros Hv Hin Hn.
  destruct (insideHexagon_box m ws d Hv Hin) as (B1 & B2 & B3 & B4).
  now apply nearest_centre_in_box.
Qed.

(** ** The floating-point arithmetic of the conversion *)

Lemma rne_Z (n : Z) : IEEE.rne (inject_Z n) = n.
Proof.
  unfold IEEE.rne. rewrite Qfloor_Z.
  replace (inject_Z n - inject_Z n ?= 1 # 2)%Q with Lt; [reflexivity |].
  symmetry. apply (proj1 (Qlt_alt _ _)). lra.
Qed.

Lemma rne_ge (t : Q) (m : Z) : (inject_Z m <= t)%Q -> m <= IEEE.rne t.
Proof.
  intros H. assert (Hf : m <= Qfloor t).
  { rewrite <- (Qfloor_Z m). now apply Qfloor_resp_le. }
  unfold IEEE.rne. destruct (_ ?= _)%Q; [destruct (Z.even _) | |]; lia.
Qed.

Lemma rne_lt (t : Q) (m : Z) : (t < inject_Z m - (1 # 2))%Q -> IEEE.rne t < m.
Proof.
  intros H.
  pose proof (Qfloor_le t) as Hlo.
  assert (Hf : Qfloor t < m).
  { apply Z.lt_nge. intros Hge. apply (Qlt_not_le _ _ H).
    apply Qle_trans with (inject_Z m); [| apply Qle_trans with (inject_Z (Qfloor t)); [| exact Hlo]].
    - lra.
    - rewrite <- Zle_Qle. exact Hge. }
  unfold IEEE.rne.
  destruct (Z.eq_dec (Qfloor t) (m - 1)) as [He | Hne].
  - assert (Hlt : (t - inject_Z (Qfloor t) < 1 # 2)%Q).
    { assert (Hm : (inject_Z (m - 1) == inject_Z m - 1)%Q)
        by (unfold Z.sub; rewrite inject_Z_plus, inject_Z_opp; reflexivity).
      rewrite He, Hm. lra. }
    apply (proj1 (Qlt_alt _ _)) in Hlt. rewrite Hlt. lia.
  - destruct (_ ?= _)%Q; [destruct (Z.even _) | |]; lia.
Qed.

Lemma Qred_inject_Z (n : Z) : Qred (inject_Z n) = inject_Z n.
Proof.
  unfold Qred, inject_Z.
  pose proof (Z.ggcd_gcd n 1) as Hg.
  pose proof (Z.ggcd_correct_divisors n 1) as Hd.
  destruct (Z.ggcd n 1) as [g [a b]]. cbn [fst snd] in *.
  rewrite Z.gcd_1_r in Hg. subst g. destruct Hd as [Ha Hb].
  rewrite Z.mul_1_l in Ha, Hb. subst a b. reflexivity.
Qed.

Lemma mag_inject_Z (n : Z) : n <> 0 -> IEEE.mag (inject_Z n) = Z.log2 (Z.abs n).
Proof.
  intros Hn. unfold IEEE.mag. cbn [Qnum Qden inject_Z].
  change (Z.log2 1) with 0. rewrite Z.sub_0_r.
  pose proof (Z.log2_nonneg (Z.abs n)) as H0.
  destruct (Z.leb_spec 0 (Z.log2 (Z.abs n))) as [_ | H]; [| lia].
  pose proof (Z.log2_spec (Z.abs n) ltac:(lia)) as [Hlo _].
  destruct (Z.leb_spec (1 * 2 ^ Z.log2 (Z.abs n)) (Z.abs n)); lia.
Qed.

Lemma round_Z (prec emin n : Z) :
  0 < prec -> emin <= 0 -> Z.abs n < 2 ^ prec ->
  IEEE.round prec emin (inject_Z n) = inject_Z n.
Proof.
  intros Hp He Hn. unfold IEEE.round. cbn [Qnum inject_Z].
  destruct (Z.eqb_spec n 0) as [-> | Hn0]; [reflexivity |].
  change (n # 1)%Q with (inject_Z n). rewrite (mag_inject_Z n Hn0).
  pose proof (Z.log2_nonneg (Z.abs n)) as H0.
  assert (Hlog : Z.log2 (Z.abs n) < prec) by (apply Z.log2_lt_pow2; lia).
  rewrite Z.max_l by lia.
  destruct (Z.ltb_spec 0 (Z.log2 (Z.abs n) - prec + 1)) as [H | _]; [lia |].
  set (j := - (Z.log2 (Z.abs n) - prec + 1)).
  assert (Hj : 0 <= j) by (subst j; lia).
  assert (Hpow : 0 < 2 ^ j) by (apply Z.pow_pos_nonneg; lia).
  rewrite <- inject_Z_mult, rne_Z.
  etransitivity; [| apply Qred_inject_Z]. apply Qred_complete.
  unfold Qeq. cbn [Qnum Qden inject_Z]. rewrite Z2Pos.id by exact Hpow. lia.
Qed.

Lemma mag_upper (q : Q) (prec : Z) :
  0 < prec -> Qnum q <> 0 -> Z.abs (Qnum q) < Z.pos (Qden q) * 2 ^ prec ->
  IEEE.mag q <= prec - 1.
Proof.
  intros Hp Hq Hlt. unfold IEEE.mag.
  set (a := Z.abs (Qnum q)) in *. set (b := Z.pos (Qden q)) in *.
  assert (Ha : 0 < a) by (subst a; lia). assert (Hb : 0 < b) by (subst b; lia).
  pose proof (Z.log2_spec a Ha) as [Ha1 Ha2].
  pose proof (Z.log2_spec b Hb) as [Hb1 Hb2].
  pose proof (Z.log2_nonneg a). pose proof (Z.log2_nonneg b).
  assert (Hle : Z.log2 a - Z.log2 b <= prec).
  { apply Z.nlt_ge. intros Hgt.
    assert (Hpw : 2 ^ (Z.log2 b + 1 + prec) <= 2 ^ Z.log2 a) by (apply Z.pow_le_mono_r; lia).
    rewrite Z.pow_add_r in Hpw by lia.
    assert (b * 2 ^ prec < 2 ^ (Z.log2 b + 1) * 2 ^ prec).
    { apply Z.mul_lt_mono_pos_r; [apply Z.pow_pos_nonneg; lia | lia]. }
    lia. }
  match goal with |- (if ?c then _ else _) <= _ => destruct c eqn:Hc end; [| lia].
  destruct (Z.leb_spec 0 (Z.log2 a - Z.log2 b)) as [Hpos | Hneg]; [| lia].
  apply Z.leb_le in Hc.
  assert (Hlt' : Z.log2 a - Z.log2 b < prec); [| lia].
  apply Z.nle_gt. intros Hge.
  assert (2 ^ prec <= 2 ^ (Z.log2 a - Z.log2 b)) by (apply Z.pow_le_mono_r; lia).
  assert (b * 2 ^ prec <= b * 2 ^ (Z.log2 a - Z.log2 b)) by (apply Z.mul_le_mono_nonneg_l; lia).
  lia.
Qed.

Lemma mag_lower (q : Q) :
  Qnum q <> 0 -> 0 <= IEEE.mag q ->
  Z.pos (Qden q) * 2 ^ IEEE.mag q <= Z.abs (Qnum q).
Proof.
  intros Hq. unfold IEEE.mag.
  set (a := Z.abs (Qnum q)) in *. set (b := Z.pos (Qden q)) in *.
  assert (Ha : 0 < a) by (subst a; lia). assert (Hb : 0 < b) by (subst b; lia).
  pose proof (Z.log2_spec a Ha) as [Ha1 Ha2].
  pose proof (Z.log2_spec b Hb) as [Hb1 Hb2].
  pose proof (Z.log2_nonneg a). pose proof (Z.log2_nonneg b).
  match goal with |- 0 <= (if ?c then _ else _) -> _ => destruct c eqn:Hc end; intros Hm0.
  - destruct (Z.leb_spec 0 (Z.log2 a - Z.log2 b)) as [_ | Hneg]; [| lia].
    now apply Z.leb_le in Hc.
  - assert (Hlt : b * 2 ^ (Z.log2 a - Z.log2 b - 1) < 2 ^ (Z.log2 b + 1) * 2 ^ (Z.log2 a - Z.log2 b - 1)).
    { apply Z.mul_lt_mono_pos_r; [apply Z.pow_pos_nonneg; lia | lia]. }
    rewrite <- Z.pow_add_r in Hlt by lia.
    replace (Z.log2 b + 1 + (Z.log2 a - Z.log2 b - 1)) with (Z.log2 a) in Hlt by lia.
    lia.
Qed.

Lemma round_floor (prec emin : Z) (q : Q) :
  0 < prec -> emin <= 0 ->
  Z.abs (Qnum q) < 2 ^ prec -> Z.pos (Qden q) < 2 ^ prec ->
  Qfloor (IEEE.round prec emin q) = Qfloor q.
Proof.
  intros Hp He Hn Hd. unfold IEEE.round.
  destruct (Z.eqb_spec (Qnum q) 0) as [H0 | H0].
  { destruct q as [n d]. cbn [Qnum] in H0. subst n. reflexivity. }
  assert (Hpp : 0 < 2 ^ prec) by (apply Z.pow_pos_nonneg; lia).
  assert (Hup : IEEE.mag q <= prec - 1).
  { apply mag_upper; [exact Hp | exact H0 |]. nia. }
  set (e := Z.max (IEEE.mag q) emin).
  assert (Hk : e - prec + 1 <= 0) by (subst e; lia).
  destruct (Z.ltb_spec 0 (e - prec + 1)) as [H | _]; [lia |].
  set (j := - (e - prec + 1)). assert (Hj : 0 <= j) by (subst j; lia).
  assert (HN : 0 < 2 ^ j) by (apply Z.pow_pos_nonneg; lia).
  assert (H2N : Z.pos (Qden q) < 2 * 2 ^ j).
  { replace (2 * 2 ^ j) with (2 ^ (prec - e)).
    2:{ replace (prec - e) with (1 + j) by (subst j; lia).
        rewrite Z.pow_add_r by lia. reflexivity. }
    destruct (Z_le_gt_dec e 0) as [Hle | Hgt].
    - assert (2 ^ prec <= 2 ^ (prec - e)) by (apply Z.pow_le_mono_r; lia). lia.
    - assert (Hem : e = IEEE.mag q) by (subst e; lia).
      pose proof (mag_lower q H0 ltac:(lia)) as Hlow. rewrite <- Hem in Hlow.
      assert (He2 : 0 < 2 ^ e) by (apply Z.pow_pos_nonneg; lia).
      assert (Hmul : 2 ^ (prec - e) * 2 ^ e = 2 ^ prec).
      { rewrite <- Z.pow_add_r by lia. f_equal. lia. }
      nia. }
  rewrite (Qfloor_comp _ _ (Qred_correct _)).
  set (f := Qfloor q).
  pose proof (Qfloor_le q) as Hlo. pose proof (Qlt_floor q) as Hhi. fold f in Hlo, Hhi.
  set (n := IEEE.rne (q * inject_Z (2 ^ j))).
  assert (Hn1 : f * 2 ^ j <= n).
  { apply rne_ge. rewrite inject_Z_mult.
    apply Qmult_le_compat_r; [exact Hlo |]. change 0%Q with (inject_Z 0).
    rewrite <- Zle_Qle. lia. }
  assert (Hn2 : n < (f + 1) * 2 ^ j).
  { apply rne_lt. destruct q as [X D]. cbn [Qnum Qden] in *.
    set (N := 2 ^ j) in *.
    unfold Qlt, Qmult, Qminus, Qplus, Qopp, inject_Z in Hhi |- *. cbn [Qnum Qden] in Hhi |- *.
    rewrite Pos.mul_1_r. change (Z.pos (1 * 2)) with 2.
    clearbody N f n. clear Hlo Hn1.
    assert (Hgap : N * 1 <= N * ((f + 1) * Z.pos D - X))
      by (apply Z.mul_le_mono_nonneg_l; lia).
    nia. }
  unfold Qfloor. cbn [Qnum Qden]. rewrite Z2Pos.id by exact HN.
  symmetry. apply Z.div_unique with (r := n - f * 2 ^ j); [left; lia | lia].
Qed.

Lemma inject_Z_minus_eq (a b : Z) : (inject_Z a - inject_Z b)%Q = inject_Z (a - b).
Proof. unfold Qminus, Qplus, Qopp, inject_Z. cbn [Qnum Qden]. f_equal. lia. Qed.

Lemma toFloat_Z (n : Z) : Z.abs n < 2 ^ 24 -> IEEE.toFloat (inject_Z n) = inject_Z n.
Proof. intros H. apply round_Z; lia. Qed.

Lemma toDouble_Z (n : Z) : Z.abs n < 2 ^ 53 -> IEEE.toDouble (inject_Z n) = inject_Z n.
Proof. intros H. apply round_Z; lia. Qed.

Lemma qFloor_toDouble_div (X D : Z) :
  Z.abs X < 2 ^ 53 -> 0 < D < 2 ^ 53 ->
  qFloor (IEEE.toDouble (inject_Z X / inject_Z D)) = X / D.
Proof.
  intros HX HD. unfold qFloor, IEEE.toDouble.
  rewrite round_floor; [apply Qfloor_div_Z | lia | lia | |].
  - destruct D as [| d | d]; try lia. cbn [Qnum Qden Qdiv Qmult Qinv inject_Z].
    now rewrite Z.mul_1_r.
  - destruct D as [| d | d]; try lia. cbn [Qnum Qden Qdiv Qmult Qinv inject_Z].
    exact (proj2 HD).
Qed.

Lemma lengthSquaredF_Z (c r : QPoint) :
  nearOrigin c -> nearOrigin r ->
  QVector2D.lengthSquared
    (QVector2D.sub (QVector2D.make (inject_Z (fst c)) (inject_Z (snd c)))
                   (QVector2D.make (inject_Z (fst r)) (inject_Z (snd r))))
  = inject_Z (dist2 c r).
Proof.
  intros [Hc1 Hc2] [Hr1 Hr2].
  unfold QVector2D.lengthSquared, QVector2D.sub, QVector2D.make.
  cbn [QVector2D.x QVector2D.y].
  rewrite !toFloat_Z by lia. rewrite !inject_Z_minus_eq.
  rewrite !toFloat_Z by lia.
  rewrite <- !inject_Z_mult.
  assert (Hsq : forall a, -2560 <= a <= 2560 -> 0 <= a * a <= 6553600) by (intros; nia).
  pose proof (Hsq (fst c - fst r) ltac:(lia)). pose proof (Hsq (snd c - snd r) ltac:(lia)).
  rewrite !toFloat_Z by lia. rewrite inject_Z_plus_eq.
  rewrite toFloat_Z by lia. reflexivity.
Qed.

Lemma nearestLoopF_Z (r : QPoint) (cs : list QPoint) :
  nearOrigin r -> Forall nearOrigin cs ->
  forall i nearest minDist,
    nearestLoopF (QVector2D.make (inject_Z (fst r)) (inject_Z (snd r)))
      (List.map (fun c => QVector2D.make (inject_Z (fst c)) (inject_Z (snd c))) cs)
      i nearest (option_map inject_Z minDist)
    = nearestLoopZ r cs i nearest minDist.
Proof.
  intros Hr Hcs. induction Hcs as [| c cs Hc Hcs IH]; intros i nearest minDist; [reflexivity |].
  cbn [List.map nearestLoopF nearestLoopZ].
  rewrite (lengthSquaredF_Z c r Hc Hr).
  destruct minDist as [d |]; cbn [option_map].
  - rewrite Qcompare_inject_Z. unfold Z.ltb.
    destruct (dist2 c r ?= d);
      [apply (IH _ _ (Some d)) | apply (IH _ _ (Some _)) | apply (IH _ _ (Some d))].
  - apply (IH _ _ (Some _)).
Qed.

(** On whole pixels only the narrowing of [rel] and of the centres and the
    arithmetic on them can round: the operations on [double]s are exact. *)
Lemma screenToTileCoordsF_pixel (m : Map.t) (ws : Workspace.t) (pixel : QPoint) :
  hexGeometry m ws ->
  isInt (Workspace.tileWidth ws) -> isInt (Workspace.tileHeight ws) ->
  isInt (fst pixel) -> isInt (snd pixel) ->
  screenToTileCoordsF m ws (inject_Z (fst pixel)) (inject_Z (snd pixel))
  = let p := RenderParams.new m ws in
    let x := if staggerX p
             then fst pixel - (if staggerEven p then tileWidth p else sideOffsetX p)
             else fst pixel in
    let y := if staggerX p
             then snd pixel
             else snd pixel - (if staggerEven p then tileHeight p else sideOffsetY p) in
    let refX := x / (columnWidth p * 2) in
    let refY := y / (rowHeight p * 2) in
    let rel : QPoint := (x - refX * (columnWidth p * 2), y - refY * (rowHeight p * 2)) in
    let adjust (index : Z) := index * 2 + (if staggerEven p then 1 else 0) in
    let referencePoint : QPoint :=
      if staggerX p then (adjust refX, refY) else (refX, adjust refY) in
    let nearest :=
      nearestLoopF (QVector2D.make (inject_Z (fst rel)) (inject_Z (snd rel)))
        (List.map (fun c => QVector2D.make (inject_Z (fst c)) (inject_Z (snd c))) (centers p))
        0 0 None in
    let offsets := if staggerX p then offsetsStaggerX else offsetsStaggerY in
    padd referencePoint (nth nearest offsets (0, 0)).
Proof.
  intros Hg Htw Hth Hpx Hpy.
  pose proof (hexGeometry_params m ws Hg) as (Ht & Ho & Hc & Hl & HX & Hax). cbv zeta in *.
  unfold isInt in *.
  unfold screenToTileCoordsF.
  set (p := RenderParams.new m ws) in *.
  change (2 ^ 31) with 2147483648 in *.
  assert (H53 : 2 ^ 53 = 9007199254740992) by reflexivity.
  set (X := if staggerX p
            then fst pixel - (if staggerEven p then tileWidth p else sideOffsetX p)
            else fst pixel).
  set (Y := if staggerX p
            then snd pixel
            else snd pixel - (if staggerEven p then tileHeight p else sideOffsetY p)).
  assert (HXb : Z.abs X < 4294967296).
  { subst X. destruct (staggerX p); [destruct (staggerEven p) |]; lia. }
  assert (HYb : Z.abs Y < 4294967296).
  { subst Y. destruct (staggerX p); [| destruct (staggerEven p)]; lia. }
  assert (Ex : (if staggerX p
                then IEEE.toDouble (inject_Z (fst pixel)
                       - inject_Z (if staggerEven p then tileWidth p else sideOffsetX p))
                else inject_Z (fst pixel)) = inject_Z X).
  { subst X. destruct (staggerX p); [| reflexivity].
    rewrite inject_Z_minus_eq. apply toDouble_Z. rewrite H53.
    destruct (staggerEven p); lia. }
  assert (Ey : (if staggerX p
                then inject_Z (snd pixel)
                else IEEE.toDouble (inject_Z (snd pixel)
                       - inject_Z (if staggerEven p then tileHeight p else sideOffsetY p)))
               = inject_Z Y).
  { subst Y. destruct (staggerX p); [reflexivity |].
    rewrite inject_Z_minus_eq. apply toDouble_Z. rewrite H53.
    destruct (staggerEven p); lia. }
  rewrite Ex, Ey.
  rewrite !qFloor_toDouble_div by (rewrite H53; lia).
  rewrite !inject_Z_minus_eq.
  pose proof (Z.div_mod X (columnWidth p * 2) ltac:(lia)) as HdX.
  pose proof (Z.mod_pos_bound X (columnWidth p * 2) ltac:(lia)) as HmX.
  pose proof (Z.div_mod Y (rowHeight p * 2) ltac:(lia)) as HdY.
  pose proof (Z.mod_pos_bound Y (rowHeight p * 2) ltac:(lia)) as HmY.
  rewrite !toDouble_Z by (rewrite H53; lia).
  reflexivity.
Qed.

Lemma smallTiles_isInt (m : Map.t) (ws : Workspace.t) :
  hexGeometry m ws -> smallTiles ws ->
  isInt (Workspace.tileWidth ws) /\ isInt (Workspace.tileHeight ws).
Proof.
  intros (_ & Hw & Hh & _) [Hsw Hsh]. unfold isInt. change (2 ^ 31) with 2147483648. lia.
Qed.

(** On whole pixels, for small tiles, the rounding changes nothing. *)
Lemma screenToTileCoordsF_on_pixels (m : Map.t) (ws : Workspace.t) (pixel : QPoint) :
  hexGeometry m ws -> smallTiles ws -> isInt (fst pixel) -> isInt (snd pixel) ->
  screenToTileCoordsF m ws (inject_Z (fst pixel)) (inject_Z (snd pixel))
  = screenToTileCoordsP m ws pixel.
Proof.
  intros Hg Hsm Hpx Hpy.
  destruct (smallTiles_isInt m ws Hg Hsm) as [Htw Hth].
  rewrite (screenToTileCoordsF_pixel m ws pixel Hg Htw Hth Hpx Hpy).
  rewrite screenToTileCoordsP_Z. unfold screenToTileCoordsZ. cbv zeta.
  pose proof (centers_nearOrigin m ws Hg Hsm) as Hcs.
  pose proof (hexGeometry_params m ws Hg) as (Ht & Ho & Hc & Hl & HX & Hax). cbv zeta in *.
  destruct Hsm as [Hsw Hsh].
  set (p := RenderParams.new m ws) in *.
  set (X := if staggerX p
            then fst pixel - (if staggerEven p then tileWidth p else sideOffsetX p)
            else fst pixel).
  set (Y := if staggerX p
            then snd pixel
            else snd pixel - (if staggerEven p then tileHeight p else sideOffsetY p)).
  pose proof (Z.div_mod X (columnWidth p * 2) ltac:(lia)) as HdX.
  pose proof (Z.mod_pos_bound X (columnWidth p * 2) ltac:(lia)) as HmX.
  pose proof (Z.div_mod Y (rowHeight p * 2) ltac:(lia)) as HdY.
  pose proof (Z.mod_pos_bound Y (rowHeight p * 2) ltac:(lia)) as HmY.
  f_equal. f_equal.
  apply (nearestLoopF_Z (X - X / (columnWidth p * 2) * (columnWidth p * 2),
                         Y - Y / (rowHeight p * 2) * (rowHeight p * 2)) (centers p)
           ltac:(unfold nearOrigin; cbn [fst snd]; lia) Hcs 0%nat 0%nat None).
Qed.

Lemma lengthSquared_pixel (c pixel : QPoint) :
  (lengthSquared c (toPointF pixel) == inject_Z (dist2 c pixel))%Q.
Proof. apply lengthSquared_Z; reflexivity. Qed.

(** ** The conversion of a pixel *)

(** C1, as stated, fails, and each condition of the amended statement is
    needed.  (1) With tiles of 32 by 32 pixels and a side length of 16 the
    pixel at offset (6,5) from the position of tile (1,1) is strictly inside
    the outline of that tile, and is resolved to tile (0,0), whose centre is
    nearer.  (2) With a side length of 5 the centres that the code compares
    are not the centres of the tiles: the pixel at offset (18,1) of tile
    (1,1) is inside the outline and strictly nearer to the centre of its
    tile than to the six centres around, and is resolved to tile (2,1).
    (3) Between two pixels the [float]s of [QVector2D] round away the
    difference: the point at offset (7 + 2^-30, 8) of tile (1,1) of the
    scenario, two [double]s, is inside and strictly nearer to its own centre,
    and is resolved to tile (0,0).  (4) So do large tiles on a whole pixel:
    with tiles of 10002 by 9000 pixels the pixel at offset (2001,999) of
    tile (1,1) is inside and strictly nearer to its own centre, and is
    resolved to tile (0,0). *)
Lemma interior_point_resolved_to_neighbour :
  (let m := Map.make Map.Hexagonal Map.StaggerX Map.StaggerEven 16 in
   let ws := Workspace.make 3 3 32 32 in
   let pixel := padd (tileToScreenCoordsP m ws (1, 1)) (6, 5) in
   insideHexagon (RenderParams.new m ws) (toPointF (6, 5)) = true
   /\ screenToTileCoordsF m ws (inject_Z (fst pixel)) (inject_Z (snd pixel)) = (0, 0))
  /\ (let m := Map.make Map.Hexagonal Map.StaggerX Map.StaggerOdd 5 in
      let ws := Workspace.make 3 3 32 32 in
      let pixel := padd (tileToScreenCoordsP m ws (1, 1)) (18, 1) in
      insideHexagon (RenderParams.new m ws) (toPointF (18, 1)) = true
      /\ Forall (fun n => dist2 (centreOf m ws (1, 1)) pixel < dist2 (centreOf m ws n) pixel)
                (neighbours m 1 1)
      /\ screenToTileCoordsF m ws (inject_Z (fst pixel)) (inject_Z (snd pixel)) = (2, 1))
  /\ (let m := scenarioMap in
      let ws := scenarioWorkspace in
      let d : QPointF := ((7 # 1) + (1 # 2 ^ 30), 8 # 1)%Q in
      let q := paddF (tileToScreenCoordsP m ws (1, 1)) d in
      insideHexagon (RenderParams.new m ws) d = true
      /\ Forall (fun n => (lengthSquared (centreOf m ws (1, 1)%Z) q
                           < lengthSquared (centreOf m ws n) q)%Q)
                (neighbours m 1 1)
      /\ IEEE.toDouble (fst q) = fst q /\ IEEE.toDouble (snd q) = snd q
      /\ screenToTileCoordsF m ws (fst q) (snd q) = (0, 0))
  /\ (let m := Map.make Map.Hexagonal Map.StaggerX Map.StaggerEven 5000 in
      let ws := Workspace.make 3 3 10002 9000 in
      let pixel := padd (tileToScreenCoordsP m ws (1, 1)) (2001, 999) in
      insideHexagon (RenderParams.new m ws) (toPointF (2001, 999)) = true
      /\ Forall (fun n => dist2 (centreOf m ws (1, 1)) pixel < dist2 (centreOf m ws n) pixel)
                (neighbours m 1 1)
      /\ screenToTileCoordsF m ws (inject_Z (fst pixel)) (inject_Z (snd pixel)) = (0, 0)).
Proof.
  cbv zeta. split; [| split; [| split]].
  - vm_compute. split; reflexivity.
  - split; [vm_compute; reflexivity | split; [| vm_compute; reflexivity]].
    repeat constructor.
  - split; [vm_compute; reflexivity | split; [| vm_compute; repeat split; reflexivity]].
    repeat constructor.
  - split; [vm_compute; reflexivity | split; [| vm_compute; reflexivity]].
    repeat constructor.
Qed.

(** C1, amended: for a hexagonal map with a validated geometry (tiles of at
    least 2 by 2 pixels, an even side length between 0 and the tile size
    along the stagger axis) and tiles of at most 1024 by 1024 pixels, every
    tile index (x,y) and every whole pixel, of [int] coordinates, strictly
    inside the outline of tile (x,y) that is strictly nearer to the centre of
    that tile than to the centres of the six tiles around it,
    [screenToTileCoords], with the rounding of its arithmetic, returns
    exactly (x,y). *)
Theorem screenToTileCoords_inverse_near_centre
    (m : Map.t) (ws : Workspace.t) (x y : Z) (d : QPoint) :
  validGeometry m ws -> smallTiles ws ->
  let pixel := padd (tileToScreenCoordsP m ws (x, y)) d in
  isInt (fst pixel) -> isInt (snd pixel) ->
  insideHexagon (RenderParams.new m ws) (toPointF d) = true ->
  (forall n, In n (neighbours m x y) ->
     dist2 (centreOf m ws (x, y)) pixel < dist2 (centreOf m ws n) pixel) ->
  screenToTileCoordsF m ws (inject_Z (fst pixel)) (inject_Z (snd pixel)) = (x, y).
Proof.
  intros Hv Hsm pixel Hpx Hpy Hin Hn.
  rewrite (screenToTileCoordsF_on_pixels m ws pixel (validGeometry_hex m ws Hv) Hsm Hpx Hpy).
  unfold screenToTileCoordsP. subst pixel.
  change (inject_Z (fst (padd (tileToScreenCoordsP m ws (x, y)) d)))
    with (fst (toPointF (padd (tileToScreenCoordsP m ws (x, y)) d))).
  change (inject_Z (snd (padd (tileToScreenCoordsP m ws (x, y)) d)))
    with (snd (toPointF (padd (tileToScreenCoordsP m ws (x, y)) d))).
  rewrite <- paddF_toPointF.
  apply (exact_inverse_near_centre m ws x y (toPointF d) Hv Hin).
  intros n Hnn. rewrite paddF_toPointF, !lengthSquared_pixel, <- Zlt_Qlt.
  now apply Hn.
Qed.

Lemma screenToTileCoords_inverse_near_centre_witness :
  screenToTileCoordsF scenarioMap scenarioWorkspace
    (inject_Z (fst (padd (tileToScreenCoordsP scenarioMap scenarioWorkspace (1, 1)) (20, 9))))
    (inject_Z (snd (padd (tileToScreenCoordsP scenarioMap scenarioWorkspace (1, 1)) (20, 9))))
  = (1, 1).
Proof.
  apply (screenToTileCoords_inverse_near_centre scenarioMap scenarioWorkspace 1 1 (20, 9)).
  - unfold validGeometry. cbn. repeat split; try reflexivity; lia.
  - unfold smallTiles. cbn. lia.
  - unfold isInt. cbn. lia.
  - unfold isInt. cbn. lia.
  - reflexivity.
  - intros n Hn. cbn in Hn.
    repeat (destruct Hn as [<- | Hn]; [vm_compute; reflexivity |]).
    contradiction.
Defined.

(** ** Grid lines: every edge exactly once *)

Lemma gridLinesX_kinds (p : RenderParams.t) (ws : Workspace.t) (tile pos : QPoint) :
  gridLinesX p ws tile pos
  = List.map (fun k => octLine p pos k (S k)) (filter (emitsX p ws tile) kindsX).
Proof.
  unfold gridLinesX, emitsX, kindsX. cbn [filter].
  destruct (fst tile =? Workspace.width ws - 1), (snd tile =? Workspace.height ws - 1),
    (doStaggerX p (fst tile)), (fst tile =? 0); reflexivity.
Qed.

(** An equation between the x coordinates of two corners. *)
Lemma corner_eq (cw s D b : Z) :
  0 < cw -> 0 <= s <= cw -> -1 <= b <= 1 -> D * cw = b * s ->
  (b = 0 /\ D = 0) \/ (b <> 0 /\ s = 0 /\ D = 0) \/ (b <> 0 /\ s = cw /\ D = b).
Proof.
  intros Hc Hs Hb H.
  assert (HD : -1 <= D <= 1) by nia.
  assert (Hb3 : b = -1 \/ b = 0 \/ b = 1) by lia.
  assert (HD3 : D = -1 \/ D = 0 \/ D = 1) by lia.
  destruct Hb3 as [-> | [-> | ->]], HD3 as [-> | [-> | ->]]; lia.
Qed.

Lemma level_eq (h D : Z) : 0 < h -> D * h = 0 -> D = 0.
Proof. intros. nia. Qed.

Lemma staggerShift_cases (e : bool) (i : Z) :
  exists u r, i = 2 * u + r /\ (r = 0 \/ r = 1)
              /\ staggerShift e i = if e then 1 - r else r.
Proof.
  unfold staggerShift. destruct (Z.even i) eqn:E.
  - apply Z.even_spec in E. destruct E as [u ->]. exists u, 0.
    destruct e; cbn; repeat split; lia.
  - assert (Ho : Z.odd i = true) by (rewrite <- Z.negb_even, E; reflexivity).
    apply Z.odd_spec in Ho. destruct Ho as [u ->]. exists u, 1.
    destruct e; cbn; repeat split; lia.
Qed.

Ltac in_list :=
  match goal with
  | |- In _ _ =>
      unfold kindsX, kindsY; cbn [In]; repeat (first [left; reflexivity | right])
  end.

Section StaggerXLattice.

Variables (s l h W H : Z) (e : bool).
Hypothesis (Hs : 0 <= s) (Hl : 0 <= l) (Hsl : 0 < s + l) (Hh : 0 < h).

Lemma xcoord_eq (A A' b b' : Z) :
  0 <= b <= 1 -> 0 <= b' <= 1 ->
  A * (s + 2 * l) + b * s = A' * (s + 2 * l) + b' * s ->
  (b = b' /\ A = A') \/ (b <> b' /\ s = 0 /\ A = A')
  \/ (b <> b' /\ l = 0 /\ A + b = A' + b').
Proof.
  intros Hb Hb' Heq.
  destruct (corner_eq (s + 2 * l) s (A - A') (b' - b)) as [? | [? | ?]]; lia.
Qed.

Lemma ycoord_eq (C C' : Z) : C * h = C' * h -> C = C'.
Proof. intros Heq. apply (level_eq h (C - C')) in Hh; lia. Qed.

Lemma segmentX_inj (t t' : QPoint) (k k' : nat) :
  inGrid W H t -> inGrid W H t' -> In k kindsX -> In k' kindsX ->
  emitsXP W H e t k -> emitsXP W H e t' k' ->
  sameSegment (vertexX s l h e t k, vertexX s l h e t (S k)) (vertexX s l h e t' k', vertexX s l h e t' (S k')) ->
  t = t' /\ k = k'.
Proof.
  intros [Hx Hy] [Hx' Hy'] Hk Hk' He He' Hsame.
  destruct t as [x y], t' as [x' y']. cbn [fst snd] in *.
  destruct (staggerShift_cases e x) as (u & r & Hu & Hr & Hsig).
  destruct (staggerShift_cases e x') as (u' & r' & Hu' & Hr' & Hsig').
  unfold vertexX, sameSegment in Hsame. cbn [fst snd] in Hsame.
  rewrite Hsig, Hsig' in *.
  assert (Hgoal : x = x' /\ y = y' /\ k = k'); [| destruct Hgoal as (-> & -> & ->); auto].
  unfold kindsX in Hk, Hk'. cbn [In] in Hk, Hk'.
  destruct Hk as [<- | [<- | [<- | [<- | [<- | [<- | []]]]]]];
  destruct Hk' as [<- | [<- | [<- | [<- | [<- | [<- | []]]]]]];
  cbn [Nat.modulo Nat.divmod Nat.sub fst snd cornerA cornerB cornerC emitsXP] in *.
  all: destruct Hsame as [Hsame | Hsame];
    pose proof (f_equal (fun q => fst (fst q)) Hsame) as X1;
    pose proof (f_equal (fun q => snd (fst q)) Hsame) as Y1;
    pose proof (f_equal (fun q => fst (snd q)) Hsame) as X2;
    pose proof (f_equal (fun q => snd (snd q)) Hsame) as Y2;
    cbn [fst snd] in X1, Y1, X2, Y2; clear Hsame;
    apply ycoord_eq in Y1; apply ycoord_eq in Y2;
    match type of X1 with ?A * _ + ?b * _ = ?A' * _ + ?b' * _ =>
      pose proof (xcoord_eq A A' b b' ltac:(lia) ltac:(lia) X1) as X1' end;
    match type of X2 with ?A * _ + ?b * _ = ?A' * _ + ?b' * _ =>
      pose proof (xcoord_eq A A' b b' ltac:(lia) ltac:(lia) X2) as X2' end;
    clear X1 X2.
  all: destruct e; lia.
Qed.

Lemma segmentX_covered (t : QPoint) (k : nat) :
  inGrid W H t -> In k kindsX ->
  exists t' k',
    inGrid W H t' /\ In k' kindsX /\ emitsXP W H e t' k'
    /\ sameSegment (vertexX s l h e t k, vertexX s l h e t (S k)) (vertexX s l h e t' k', vertexX s l h e t' (S k')).
Proof.
  intros [Hx Hy] Hk. destruct t as [x y]. cbn [fst snd] in *.
  assert (Hself : emitsXP W H e (x, y) k ->
                  exists t' k', inGrid W H t' /\ In k' kindsX /\ emitsXP W H e t' k'
                    /\ sameSegment (vertexX s l h e (x, y) k, vertexX s l h e (x, y) (S k))
                                   (vertexX s l h e t' k', vertexX s l h e t' (S k'))).
  { intros He. exists (x, y), k. repeat split; cbn [fst snd]; try lia; auto.
    now left. }
  destruct (staggerShift_cases e x) as (u & r & Hu & Hr & Hsig).
  destruct (staggerShift_cases e (x + 1)) as (u1 & r1 & Hu1 & Hr1 & Hsig1).
  destruct (staggerShift_cases e (x - 1)) as (u2 & r2 & Hu2 & Hr2 & Hsig2).
  unfold kindsX in Hk. cbn [In] in Hk.
  destruct Hk as [<- | [<- | [<- | [<- | [<- | [<- | []]]]]]];
    try (apply Hself; exact I); clear Hself.
  - (* the edge from corner 5 to corner 6 *)
    destruct (Z.eq_dec x (W - 1)) as [Hlast | Hlast];
      [exists (x, y), 5%nat; repeat split; cbn [fst snd emitsXP]; try lia;
         [in_list | now left] |].
    destruct (Z.eq_dec y (H - 1)) as [Hrow | Hrow];
      [destruct (Z.eq_dec (staggerShift e x) 1) as [Hst | Hst];
         [exists (x, y), 5%nat; repeat split; cbn [fst snd emitsXP]; try lia;
            [in_list | now left] |] |].
    + exists (x + 1, y), 1%nat. unfold inGrid, sameSegment, vertexX, kindsX.
      cbn [fst snd Nat.modulo Nat.divmod Nat.sub cornerA cornerB cornerC emitsXP In].
      rewrite Hsig, Hsig1 in *. repeat split; try lia; try in_list.
      right. apply (f_equal2 (@pair QPoint QPoint)); apply (f_equal2 (@pair Z Z));
        destruct e; nia.
    + exists (x + 1, y + staggerShift e x), 1%nat.
      unfold inGrid, sameSegment, vertexX, kindsX.
      cbn [fst snd Nat.modulo Nat.divmod Nat.sub cornerA cornerB cornerC emitsXP In].
      rewrite Hsig, Hsig1 in *. repeat split; try (destruct e; lia); try in_list.
      right. apply (f_equal2 (@pair QPoint QPoint)); apply (f_equal2 (@pair Z Z));
        destruct e; nia.
  - (* the edge from corner 6 to corner 7 *)
    destruct (Z.eq_dec y (H - 1)) as [Hrow | Hrow];
      [exists (x, y), 6%nat; repeat split; cbn [fst snd emitsXP]; try lia;
         [in_list | now left] |].
    exists (x, y + 1), 2%nat. unfold inGrid, sameSegment, vertexX, kindsX.
    cbn [fst snd Nat.modulo Nat.divmod Nat.sub cornerA cornerB cornerC emitsXP In].
    repeat split; try lia; try in_list.
    right. apply (f_equal2 (@pair QPoint QPoint)); apply (f_equal2 (@pair Z Z)); lia.
  - (* the edge from corner 7 to corner 0 *)
    destruct (Z.eq_dec x 0) as [Hfirst | Hfirst];
      [exists (x, y), 7%nat; repeat split; cbn [fst snd emitsXP]; try lia;
         [in_list | now left] |].
    destruct (Z.eq_dec y (H - 1)) as [Hrow | Hrow];
      [destruct (Z.eq_dec (staggerShift e x) 1) as [Hst | Hst];
         [exists (x, y), 7%nat; repeat split; cbn [fst snd emitsXP]; try lia;
            [in_list | now left] |] |].
    + exists (x - 1, y), 3%nat. unfold inGrid, sameSegment, vertexX, kindsX.
      cbn [fst snd Nat.modulo Nat.divmod Nat.sub cornerA cornerB cornerC emitsXP In].
      rewrite Hsig, Hsig2 in *. repeat split; try lia; try in_list.
      right. apply (f_equal2 (@pair QPoint QPoint)); apply (f_equal2 (@pair Z Z));
        destruct e; nia.
    + exists (x - 1, y + staggerShift e x), 3%nat.
      unfold inGrid, sameSegment, vertexX, kindsX.
      cbn [fst snd Nat.modulo Nat.divmod Nat.sub cornerA cornerB cornerC emitsXP In].
      rewrite Hsig, Hsig2 in *. repeat split; try (destruct e; lia); try in_list.
      right. apply (f_equal2 (@pair QPoint QPoint)); apply (f_equal2 (@pair Z Z));
        destruct e; nia.
Qed.

End StaggerXLattice.

Section StaggerYLattice.

Variables (s l w W H : Z) (e : bool).
Hypothesis (Hs : 0 <= s) (Hl : 0 <= l) (Hsl : 0 < s + l) (Hw : 0 < w).

Lemma segmentY_inj (t t' : QPoint) (k k' : nat) :
  inGrid W H t -> inGrid W H t' -> In k kindsY -> In k' kindsY ->
  emitsYP W H e t k -> emitsYP W H e t' k' ->
  sameSegment (vertexY s l w e t k, vertexY s l w e t (S k)) (vertexY s l w e t' k', vertexY s l w e t' (S k')) ->
  t = t' /\ k = k'.
Proof.
  intros [Hx Hy] [Hx' Hy'] Hk Hk' He He' Hsame.
  destruct t as [x y], t' as [x' y']. cbn [fst snd] in *.
  destruct (staggerShift_cases e y) as (u & r & Hu & Hr & Hsig).
  destruct (staggerShift_cases e y') as (u' & r' & Hu' & Hr' & Hsig').
  unfold vertexY, sameSegment in Hsame. cbn [fst snd] in Hsame.
  rewrite Hsig, Hsig' in *.
  assert (Hgoal : x = x' /\ y = y' /\ k = k'); [| destruct Hgoal as (-> & -> & ->); auto].
  unfold kindsY in Hk, Hk'. cbn [In] in Hk, Hk'.
  destruct Hk as [<- | [<- | [<- | [<- | [<- | [<- | []]]]]]];
  destruct Hk' as [<- | [<- | [<- | [<- | [<- | [<- | []]]]]]];
  cbn [Nat.modulo Nat.divmod Nat.sub fst snd cornerAY cornerBY cornerCY emitsYP] in *.
  all: destruct Hsame as [Hsame | Hsame];
    pose proof (f_equal (fun q => fst (fst q)) Hsame) as X1;
    pose proof (f_equal (fun q => snd (fst q)) Hsame) as Y1;
    pose proof (f_equal (fun q => fst (snd q)) Hsame) as X2;
    pose proof (f_equal (fun q => snd (snd q)) Hsame) as Y2;
    cbn [fst snd] in X1, Y1, X2, Y2; clear Hsame;
    apply (ycoord_eq w Hw) in X1; apply (ycoord_eq w Hw) in X2;
    match type of Y1 with ?A * _ + ?b * _ = ?A' * _ + ?b' * _ =>
      pose proof (xcoord_eq s l Hs Hl Hsl A A' b b' ltac:(lia) ltac:(lia) Y1) as Y1' end;
    match type of Y2 with ?A * _ + ?b * _ = ?A' * _ + ?b' * _ =>
      pose proof (xcoord_eq s l Hs Hl Hsl A A' b b' ltac:(lia) ltac:(lia) Y2) as Y2' end;
    clear Y1 Y2.
  all: destruct e; lia.
Qed.

Lemma segmentY_covered (t : QPoint) (k : nat) :
  inGrid W H t -> In k kindsY ->
  exists t' k',
    inGrid W H t' /\ In k' kindsY /\ emitsYP W H e t' k'
    /\ sameSegment (vertexY s l w e t k, vertexY s l w e t (S k)) (vertexY s l w e t' k', vertexY s l w e t' (S k')).
Proof.
  intros [Hx Hy] Hk. destruct t as [x y]. cbn [fst snd] in *.
  assert (Hself : emitsYP W H e (x, y) k ->
                  exists t' k', inGrid W H t' /\ In k' kindsY /\ emitsYP W H e t' k'
                    /\ sameSegment (vertexY s l w e (x, y) k, vertexY s l w e (x, y) (S k))
                                   (vertexY s l w e t' k', vertexY s l w e t' (S k'))).
  { intros He. exists (x, y), k. repeat split; cbn [fst snd]; try lia; auto.
    now left. }
  destruct (staggerShift_cases e y) as (u & r & Hu & Hr & Hsig).
  destruct (staggerShift_cases e (y + 1)) as (u1 & r1 & Hu1 & Hr1 & Hsig1).
  unfold kindsY in Hk. cbn [In] in Hk.
  destruct Hk as [<- | [<- | [<- | [<- | [<- | [<- | []]]]]]];
    try (apply Hself; exact I); clear Hself.
  - (* the edge from corner 4 to corner 5 *)
    destruct (Z.eq_dec x (W - 1)) as [Hlast | Hlast];
      [exists (x, y), 4%nat; repeat split; cbn [fst snd emitsYP]; try lia;
         [in_list | now left] |].
    exists (x + 1, y), 0%nat. unfold inGrid, sameSegment, vertexY, kindsY.
    cbn [fst snd Nat.modulo Nat.divmod Nat.sub cornerAY cornerBY cornerCY emitsYP In].
    repeat split; try lia.
    right. apply (f_equal2 (@pair QPoint QPoint)); apply (f_equal2 (@pair Z Z)); lia.
  - (* the edge from corner 5 to corner 6 *)
    destruct (Z.eq_dec y (H - 1)) as [Hrow | Hrow];
      [exists (x, y), 5%nat; repeat split; cbn [fst snd emitsYP]; try lia;
         [in_list | now left] |].
    destruct (Z.eq_dec x (W - 1)) as [Hlast | Hlast];
      [destruct (Z.eq_dec (staggerShift e y) 1) as [Hst | Hst];
         [exists (x, y), 5%nat; repeat split; cbn [fst snd emitsYP]; try lia;
            [in_list | now left] |] |].
    + exists (x, y + 1), 1%nat. unfold inGrid, sameSegment, vertexY, kindsY.
      cbn [fst snd Nat.modulo Nat.divmod Nat.sub cornerAY cornerBY cornerCY emitsYP In].
      rewrite Hsig, Hsig1 in *. repeat split; try lia.
      right. apply (f_equal2 (@pair QPoint QPoint)); apply (f_equal2 (@pair Z Z));
        destruct e; nia.
    + exists (x + staggerShift e y, y + 1), 1%nat.
      unfold inGrid, sameSegment, vertexY, kindsY.
      cbn [fst snd Nat.modulo Nat.divmod Nat.sub cornerAY cornerBY cornerCY emitsYP In].
      rewrite Hsig, Hsig1 in *. repeat split; try (destruct e; lia).
      right. apply (f_equal2 (@pair QPoint QPoint)); apply (f_equal2 (@pair Z Z));
        destruct e; nia.
  - (* the edge from corner 7 to corner 0 *)
    destruct (Z.eq_dec y (H - 1)) as [Hrow | Hrow];
      [exists (x, y), 7%nat; repeat split; cbn [fst snd emitsYP]; try lia;
         [in_list | now left] |].
    destruct (Z.eq_dec x 0) as [Hfirst | Hfirst];
      [destruct (Z.eq_dec (staggerShift e y) 0) as [Hst | Hst];
         [exists (x, y), 7%nat; repeat split; cbn [fst snd emitsYP]; try lia;
            [in_list | now left] |] |].
    + exists (x, y + 1), 3%nat. unfold inGrid, sameSegment, vertexY, kindsY.
      cbn [fst snd Nat.modulo Nat.divmod Nat.sub cornerAY cornerBY cornerCY emitsYP In].
      rewrite Hsig, Hsig1 in *. repeat split; try (destruct e; lia).
      right. apply (f_equal2 (@pair QPoint QPoint)); apply (f_equal2 (@pair Z Z));
        destruct e; nia.
    + exists (x + staggerShift e y - 1, y + 1), 3%nat.
      unfold inGrid, sameSegment, vertexY, kindsY.
      cbn [fst snd Nat.modulo Nat.divmod Nat.sub cornerAY cornerBY cornerCY emitsYP In].
      rewrite Hsig, Hsig1 in *. repeat split; try (destruct e; lia).
      right. apply (f_equal2 (@pair QPoint QPoint)); apply (f_equal2 (@pair Z Z));
        destruct e; nia.
Qed.

End StaggerYLattice.

(** ** Undirected segments *)

Lemma pointLeb_total (a b : QPoint) : pointLeb a b = false -> pointLeb b a = true.
Proof.
  unfold pointLeb. intros H.
  apply orb_false_iff in H. destruct H as [H1 H2].
  apply Z.ltb_ge in H1. apply andb_false_iff in H2.
  apply orb_true_iff.
  destruct (Z.eq_dec (fst a) (fst b)) as [E | E].
  - right. apply andb_true_iff. split; [apply Z.eqb_eq; lia |].
    destruct H2 as [H2 | H2]; [apply Z.eqb_neq in H2; lia |].
    apply Z.leb_gt in H2. apply Z.leb_le. lia.
  - left. apply Z.ltb_lt. lia.
Qed.

Lemma pointLeb_antisym (a b : QPoint) :
  pointLeb a b = true -> pointLeb b a = true -> a = b.
Proof.
  unfold pointLeb. intros H1 H2. destruct a as [a1 a2], b as [b1 b2]. cbn [fst snd] in *.
  apply orb_true_iff in H1, H2.
  rewrite !andb_true_iff, !Z.ltb_lt, !Z.eqb_eq, !Z.leb_le in *.
  apply (f_equal2 (@pair Z Z)); lia.
Qed.

Lemma normLine_same (a b : QLine) : normLine a = normLine b <-> sameSegment a b.
Proof.
  unfold normLine, sameSegment. destruct a as [a1 a2], b as [b1 b2]. cbn [fst snd].
  split.
  - destruct (pointLeb a1 a2), (pointLeb b1 b2); intros H; inversion H; auto.
  - intros [H | H]; inversion H; subst; [reflexivity |].
    destruct (pointLeb b2 b1) eqn:E1, (pointLeb b1 b2) eqn:E2; try reflexivity.
    + now rewrite (pointLeb_antisym _ _ E1 E2).
    + apply pointLeb_total in E1. congruence.
Qed.

(** ** Ranges and lists of tiles *)

Lemma zrange_nil (lo hi : Z) : hi < lo -> zrange lo hi = [].
Proof. intros H. unfold zrange. replace (Z.to_nat (hi - lo + 1)) with 0%nat by lia. reflexivity. Qed.

Lemma zrange_cons (lo hi : Z) : lo <= hi -> zrange lo hi = lo :: zrange (lo + 1) hi.
Proof.
  intros H. unfold zrange.
  replace (Z.to_nat (hi - lo + 1)) with (S (Z.to_nat (hi - (lo + 1) + 1))) by lia.
  cbn [seq List.map]. f_equal; [lia |].
  rewrite <- seq_shift, map_map. apply map_ext. intros i. lia.
Qed.

Lemma in_zrange (lo hi z : Z) : In z (zrange lo hi) <-> lo <= z <= hi.
Proof.
  unfold zrange. rewrite in_map_iff. split.
  - intros (i & <- & Hi). apply in_seq in Hi. lia.
  - intros Hz. exists (Z.to_nat (z - lo)). split; [lia |]. apply in_seq. lia.
Qed.

Lemma zrange_NoDup (lo hi : Z) : NoDup (zrange lo hi).
Proof.
  unfold zrange. apply NoDup_map_NoDup_ForallPairs; [| apply seq_NoDup].
  intros i j _ _ Hij. lia.
Qed.

Lemma NoDup_flat_map_inj {A B : Type} (f : A -> list B) (l : list A) :
  NoDup l -> (forall a, In a l -> NoDup (f a)) ->
  (forall a a' b, In a l -> In a' l -> In b (f a) -> In b (f a') -> a = a') ->
  NoDup (flat_map f l).
Proof.
  induction l as [| a l IH]; intros Hl Hf Hsep; cbn [flat_map]; [constructor |].
  inversion Hl as [| ? ? Hna Hl']; subst.
  apply NoDup_app.
  - apply Hf. now left.
  - apply IH; [exact Hl' | intros; apply Hf; now right |].
    intros a1 a2 b H1 H2. apply Hsep; now right.
  - intros b Hb Hb'. apply in_flat_map in Hb'. destruct Hb' as (a' & Ha' & Hb').
    assert (a = a') by (apply (Hsep a a' b); auto; [now left | now right]).
    subst. contradiction.
Qed.

Lemma flat_map_ext_in {A B : Type} (f g : A -> list B) (l : list A) :
  (forall a, In a l -> f a = g a) -> flat_map f l = flat_map g l.
Proof.
  induction l as [| a l IH]; intros H; [reflexivity |].
  cbn [flat_map]. rewrite (H a) by (now left). rewrite IH; [reflexivity |].
  intros b Hb. apply H. now right.
Qed.

(** ** The sweeps of [drawGrid] when no guard on the pixel position fails *)

Lemma gridColumnX_full (p : RenderParams.t) (ws : Workspace.t) (rect : QRect.t)
    (x px : Z) (n : nat) :
  forall y0 py,
    n = Z.to_nat (Workspace.height ws - y0) ->
    (forall y, y0 <= y < Workspace.height ws ->
               py + (y - y0) * (tileHeight p + sideLengthY p) <= QRect.bottom rect) ->
    gridColumnX n p ws rect (x, y0) (px, py)
    = flat_map (fun y => gridLinesX p ws (x, y)
                           (px, py + (y - y0) * (tileHeight p + sideLengthY p)))
               (zrange y0 (Workspace.height ws - 1)).
Proof.
  induction n as [| n IH]; intros y0 py Hn Hfit.
  - rewrite zrange_nil by lia. reflexivity.
  - rewrite zrange_cons by lia. cbn [gridColumnX flat_map fst snd].
    assert (Hg : (py <=? QRect.bottom rect) && (y0 <? Workspace.height ws) = true).
    { apply andb_true_iff. split; [apply Z.leb_le | apply Z.ltb_lt; lia].
      specialize (Hfit y0 ltac:(lia)). lia. }
    rewrite Hg. f_equal.
    + do 2 f_equal. lia.
    + rewrite IH by (try lia; intros y Hy; specialize (Hfit y ltac:(lia)); lia).
      apply flat_map_ext_in. intros y Hy. do 2 f_equal. lia.
Qed.

Lemma gridSweepX_full (p : RenderParams.t) (ws : Workspace.t) (rect : QRect.t)
    (y0 py : Z) (n : nat) :
  forall x0 px,
    n = Z.to_nat (Workspace.width ws - x0) ->
    (forall x, x0 <= x < Workspace.width ws ->
               px + (x - x0) * columnWidth p <= QRect.right rect) ->
    gridSweepX n p ws rect (x0, y0) (px, py)
    = flat_map (fun x =>
                  gridColumnX (Z.to_nat (Workspace.height ws - y0)) p ws rect (x, y0)
                    (px + (x - x0) * columnWidth p,
                     if doStaggerX p x then py + rowHeight p else py))
               (zrange x0 (Workspace.width ws - 1)).
Proof.
  induction n as [| n IH]; intros x0 px Hn Hfit.
  - rewrite zrange_nil by lia. reflexivity.
  - rewrite zrange_cons by lia. cbn [gridSweepX flat_map fst snd].
    assert (Hg : (px <=? QRect.right rect) && (x0 <? Workspace.width ws) = true).
    { apply andb_true_iff. split; [apply Z.leb_le | apply Z.ltb_lt; lia].
      specialize (Hfit x0 ltac:(lia)). lia. }
    rewrite Hg. f_equal.
    + replace (px + (x0 - x0) * columnWidth p) with px by lia.
      destruct (doStaggerX p x0); reflexivity.
    + rewrite IH by (try lia; intros x Hx; specialize (Hfit x ltac:(lia)); lia).
      apply flat_map_ext_in. intros x Hx. do 2 f_equal. lia.
Qed.

Lemma gridRowY_full (p : RenderParams.t) (ws : Workspace.t) (rect : QRect.t)
    (y py : Z) (n : nat) :
  forall x0 px,
    n = Z.to_nat (Workspace.width ws - x0) ->
    (forall x, x0 <= x < Workspace.width ws ->
               px + (x - x0) * (tileWidth p + sideLengthX p) <= QRect.right rect) ->
    gridRowY n p ws rect (x0, y) (px, py)
    = flat_map (fun x => gridLinesY p ws (x, y)
                           (px + (x - x0) * (tileWidth p + sideLengthX p), py))
               (zrange x0 (Workspace.width ws - 1)).
Proof.
  induction n as [| n IH]; intros x0 px Hn Hfit.
  - rewrite zrange_nil by lia. reflexivity.
  - rewrite zrange_cons by lia. cbn [gridRowY flat_map fst snd].
    assert (Hg : (px <=? QRect.right rect) && (x0 <? Workspace.width ws) = true).
    { apply andb_true_iff. split; [apply Z.leb_le | apply Z.ltb_lt; lia].
      specialize (Hfit x0 ltac:(lia)). lia. }
    rewrite Hg. f_equal.
    + do 2 f_equal. lia.
    + rewrite IH by (try lia; intros x Hx; specialize (Hfit x ltac:(lia)); lia).
      apply flat_map_ext_in. intros x Hx. do 2 f_equal. lia.
Qed.

Lemma gridSweepY_full (p : RenderParams.t) (ws : Workspace.t) (rect : QRect.t)
    (x0 px : Z) (n : nat) :
  forall y0 py,
    n = Z.to_nat (Workspace.height ws - y0) ->
    (forall y, y0 <= y < Workspace.height ws ->
               py + (y - y0) * rowHeight p <= QRect.bottom rect) ->
    gridSweepY n p ws rect (x0, y0) (px, py)
    = flat_map (fun y =>
                  gridRowY (Z.to_nat (Workspace.width ws - x0)) p ws rect (x0, y)
                    ((if doStaggerY p y then px + columnWidth p else px),
                     py + (y - y0) * rowHeight p))
               (zrange y0 (Workspace.height ws - 1)).
Proof.
  induction n as [| n IH]; intros y0 py Hn Hfit.
  - rewrite zrange_nil by lia. reflexivity.
  - rewrite zrange_cons by lia. cbn [gridSweepY flat_map fst snd].
    assert (Hg : (py <=? QRect.bottom rect) && (y0 <? Workspace.height ws) = true).
    { apply andb_true_iff. split; [apply Z.leb_le | apply Z.ltb_lt; lia].
      specialize (Hfit y0 ltac:(lia)). lia. }
    rewrite Hg. f_equal.
    + replace (py + (y0 - y0) * rowHeight p) with py by lia.
      destruct (doStaggerY p y0); reflexivity.
    + rewrite IH by (try lia; intros y Hy; specialize (Hfit y ltac:(lia)); lia).
      apply flat_map_ext_in. intros y Hy. do 2 f_equal. lia.
Qed.

(** ** The tile at which [drawGrid] starts *)

Lemma nearest4_cases (rel c0 c1 c2 c3 : QPoint) :
  let n := nearestLoopZ rel [c0; c1; c2; c3] 0 0 None in
  (n = 0 \/ n = 1 \/ n = 2 \/ n = 3)%nat
  /\ (n = 3%nat -> dist2 c3 rel < dist2 c0 rel).
Proof.
  cbn [nearestLoopZ].
  repeat match goal with |- context [?a <? ?b] => destruct (Z.ltb_spec a b) end;
    split; auto; intros; try discriminate; lia.
Qed.

Lemma screenToTileCoords_before_origin (m : Map.t) (ws : Workspace.t) (px py : Z) :
  hexGeometry m ws -> px <= 0 -> py <= 0 ->
  let t := screenToTileCoordsP m ws (px, py) in
  if Map.isStaggerX m
  then (fst t <= 0 \/ fst t = 1) /\ snd t <= 0
  else fst t <= 0 /\ (snd t <= 0 \/ snd t = 1).
Proof.
  intros Hv Hx Hy. cbv zeta. rewrite screenToTileCoordsP_Z.
  unfold screenToTileCoordsZ, centers.
  destruct (Map.isStaggerX m) eqn:HX.
  - destruct (hex_shapeX m ws Hv HX) as (T & o & s & h & HT & Ho & Hs & Hos & Hh & ->).
    cbn [tileWidth tileHeight sideLengthX sideLengthY sideOffsetX sideOffsetY
         rowHeight columnWidth staggerX staggerEven fst snd].
    rewrite !quot2_double.
    pose proof (quot2_nonneg s Hs) as Hl. set (l := s ÷ 2) in *.
    set (X := px - (if Map.isStaggerEven m then T else o)).
    pose proof (Z.div_le_upper_bound py (h * 2) 0 ltac:(lia) ltac:(lia)) as HrefY.
    pose proof (Z.div_le_upper_bound X ((o + s) * 2) 0 ltac:(lia)
                  ltac:(subst X; destruct (Map.isStaggerEven m); lia)) as HrefX.
    pose proof (Z.mul_div_le X ((o + s) * 2) ltac:(lia)) as HX1.
    pose proof (Z.mul_div_le py (h * 2) ltac:(lia)) as HY1.
    match goal with |- context [nearestLoopZ ?rel [?c0; ?c1; ?c2; ?c3] 0 0 None] =>
      remember (nearestLoopZ rel [c0; c1; c2; c3] 0 0 None) as n eqn:En;
      assert (Hcases : (n = 0 \/ n = 1 \/ n = 2 \/ n = 3)%nat
                       /\ (n = 3%nat -> dist2 c3 rel < dist2 c0 rel))
        by (subst n; apply nearest4_cases)
    end.
    clear En. destruct Hcases as [Hn H3].
    unfold dist2 in H3. cbn [fst snd] in H3.
    set (refX := X / ((o + s) * 2)) in *.
    set (refY := py / (h * 2)) in *.
    destruct Hn as [Hn | [Hn | [Hn | Hn]]]; subst n;
      cbn [nth offsetsStaggerX padd fst snd]; unfold padd; cbn [fst snd].
    all: try specialize (H3 eq_refl).
    all: assert (Href : refX <= -1 \/ refX = 0) by lia.
    all: destruct Href as [Href | Href]; [| rewrite Href in *].
    all: subst X; destruct (Map.isStaggerEven m); split; try lia.
    all: exfalso; nia.
  - destruct (hex_shapeY m ws Hv HX) as (T & o & s & w & HT & Ho & Hs & Hos & Hw & ->).
    cbn [tileWidth tileHeight sideLengthX sideLengthY sideOffsetX sideOffsetY
         rowHeight columnWidth staggerX staggerEven fst snd].
    rewrite !quot2_double.
    pose proof (quot2_nonneg s Hs) as Hl. set (l := s ÷ 2) in *.
    set (Y := py - (if Map.isStaggerEven m then T else o)).
    pose proof (Z.div_le_upper_bound px (w * 2) 0 ltac:(lia) ltac:(lia)) as HrefX.
    pose proof (Z.div_le_upper_bound Y ((o + s) * 2) 0 ltac:(lia)
                  ltac:(subst Y; destruct (Map.isStaggerEven m); lia)) as HrefY.
    pose proof (Z.mul_div_le Y ((o + s) * 2) ltac:(lia)) as HY1.
    pose proof (Z.mul_div_le px (w * 2) ltac:(lia)) as HX1.
    match goal with |- context [nearestLoopZ ?rel [?c0; ?c1; ?c2; ?c3] 0 0 None] =>
      remember (nearestLoopZ rel [c0; c1; c2; c3] 0 0 None) as n eqn:En;
      assert (Hcases : (n = 0 \/ n = 1 \/ n = 2 \/ n = 3)%nat
                       /\ (n = 3%nat -> dist2 c3 rel < dist2 c0 rel))
        by (subst n; apply nearest4_cases)
    end.
    clear En. destruct Hcases as [Hn H3].
    unfold dist2 in H3. cbn [fst snd] in H3.
    set (refY := Y / ((o + s) * 2)) in *.
    set (refX := px / (w * 2)) in *.
    destruct Hn as [Hn | [Hn | [Hn | Hn]]]; subst n;
      cbn [nth offsetsStaggerY padd fst snd]; unfold padd; cbn [fst snd].
    all: try specialize (H3 eq_refl).
    all: assert (Href : refY <= -1 \/ refY = 0) by lia.
    all: destruct Href as [Href | Href]; [| rewrite Href in *].
    all: subst Y; destruct (Map.isStaggerEven m); split; try lia.
    all: exfalso; nia.
Qed.

Lemma tileToScreenCoordsP_eq (m : Map.t) (ws : Workspace.t) (x y : Z) :
  tileToScreenCoordsP m ws (x, y)
  = let p := RenderParams.new m ws in
    if staggerX p
    then (x * columnWidth p,
          y * (tileHeight p + sideLengthY p) + (if doStaggerX p x then rowHeight p else 0))
    else (x * (tileWidth p + sideLengthX p) + (if doStaggerY p y then columnWidth p else 0),
          y * rowHeight p).
Proof.
  unfold tileToScreenCoordsP, tileToScreenCoords, qFloor. cbn [fst snd].
  rewrite !Qfloor_Z. cbv zeta.
  destruct (staggerX (RenderParams.new m ws)).
  - destruct (doStaggerX (RenderParams.new m ws) x); apply (f_equal2 (@pair Z Z)); lia.
  - destruct (doStaggerY (RenderParams.new m ws) y); apply (f_equal2 (@pair Z Z)); lia.
Qed.

Lemma drawGrid_full (m : Map.t) (ws : Workspace.t) (exposed : QRectF.t) :
  hexGeometry m ws ->
  1 <= Workspace.width ws -> 1 <= Workspace.height ws ->
  coversGrid m ws exposed ->
  let p := RenderParams.new m ws in
  drawGrid m exposed ws
  = if Map.isStaggerX m
    then flat_map (fun x =>
           flat_map (fun y => gridLinesX p ws (x, y) (tileToScreenCoordsP m ws (x, y)))
                    (zrange 0 (Workspace.height ws - 1)))
         (zrange 0 (Workspace.width ws - 1))
    else flat_map (fun y =>
           flat_map (fun x => gridLinesY p ws (x, y) (tileToScreenCoordsP m ws (x, y)))
                    (zrange 0 (Workspace.width ws - 1)))
         (zrange 0 (Workspace.height ws - 1)).
Proof.
  intros Hv HW HH (HL & HT & HR & HB). cbv zeta.
  unfold drawGrid.
  set (rect := QRectF.toAlignedRect exposed) in *.
  pose proof (screenToTileCoords_before_origin m ws (QRect.left rect) (QRect.top rect)
                Hv HL HT) as Hstart.
  cbv zeta in Hstart. change (QRect.left rect, QRect.top rect) with (QRect.topLeft rect) in Hstart.
  set (t0 := screenToTileCoordsP m ws (QRect.topLeft rect)) in *.
  destruct t0 as [tx ty]. rewrite (tileToScreenCoordsP_eq m ws tx ty).
  rewrite (tileToScreenCoordsP_eq m ws (Z.max 0 _) (Z.max 0 _)).
  unfold workSize in HR, HB.
  unfold startTileOf. cbv zeta in *.
  change (staggerX (RenderParams.new m ws)) with (Map.isStaggerX m) in *.
  destruct (Map.isStaggerX m) eqn:HX; cbn [fst snd] in *.
  - destruct (hex_shapeX m ws Hv HX) as (T & o & s & h & HT' & Ho & Hs & Hos & Hh & Hnew).
    set (p := RenderParams.new m ws) in *.
    assert (Hcw : columnWidth p = o + s) by (rewrite Hnew; reflexivity).
    assert (Hso : sideOffsetX p = o) by (rewrite Hnew; reflexivity).
    assert (Hrh : rowHeight p = h) by (rewrite Hnew; reflexivity).
    assert (Hth : tileHeight p + sideLengthY p = 2 * h) by (rewrite Hnew; cbn; lia).
    rewrite Hcw, Hso, Hrh, Hth in *.
    assert (Hnull : QRect.isNull rect = false).
    { unfold QRect.isNull. apply andb_false_iff. left. apply Z.eqb_neq.
      unfold QRect.left, QRect.right in *.
      destruct (1 <? Workspace.width ws); cbn [fst] in HR; nia. }
    rewrite Hnull.
    assert (Hmx : Z.max 0 (if QRect.x rect - tx * (o + s) <? o then tx - 1 else tx) = 0).
    { apply Z.max_l. destruct Hstart as [[Htx | Htx] _].
      - destruct (QRect.x rect - tx * (o + s) <? o); lia.
      - subst tx. unfold QRect.x, QRect.left in *.
        destruct (Z.ltb_spec (QRect.x1 rect - 1 * (o + s)) o); lia. }
    assert (Hmy : forall b : bool, Z.max 0 (if b then ty - 1 else ty) = 0).
    { intros b. apply Z.max_l. destruct Hstart as [_ Hty]. destruct b; lia. }
    rewrite Hmx, Hmy. cbn [fst snd].
    assert (Hbot : forall x y, 0 <= x < Workspace.width ws -> 0 <= y < Workspace.height ws ->
                     (if doStaggerX p x then h else 0) + y * (2 * h) <= QRect.bottom rect).
    { intros x y Hx Hy.
      assert (Hyy : y * (2 * h) <= (Workspace.height ws - 1) * (2 * h)) by nia.
      destruct (1 <? Workspace.width ws); cbn [snd] in HB; destruct (doStaggerX p x); lia. }
    assert (Hright : forall x, 0 <= x < Workspace.width ws ->
                     x * (o + s) <= QRect.right rect).
    { intros x Hx.
      assert (Hxx : x * (o + s) <= (Workspace.width ws - 1) * (o + s)) by nia.
      destruct (1 <? Workspace.width ws); cbn [fst] in HR; lia. }
    destruct (doStaggerX p 0) eqn:H0; cbn [fst snd].
    all: rewrite (gridSweepX_full p ws rect 0 _ _ 0 _);
      [ apply flat_map_ext_in; intros x Hx; apply in_zrange in Hx;
        rewrite gridColumnX_full;
        [ apply flat_map_ext_in; intros y Hy; apply in_zrange in Hy;
          rewrite tileToScreenCoordsP_eq; cbv zeta; fold p;
          change (staggerX p) with (Map.isStaggerX m); rewrite HX, Hcw, Hrh, Hth;
          f_equal; apply (f_equal2 (@pair Z Z)); [lia |];
          destruct (doStaggerX p x); lia
        | lia
        | intros y Hy; rewrite Hrh, Hth;
          specialize (Hbot x y ltac:(lia) ltac:(lia)); destruct (doStaggerX p x); lia ]
      | now rewrite Z.sub_0_r
      | intros x Hx; rewrite Hcw; specialize (Hright x ltac:(lia)); lia ].
  - destruct (hex_shapeY m ws Hv HX) as (T & o & s & w & HT' & Ho & Hs & Hos & Hw & Hnew).
    set (p := RenderParams.new m ws) in *.
    assert (Hcw : columnWidth p = w) by (rewrite Hnew; reflexivity).
    assert (Hso : sideOffsetY p = o) by (rewrite Hnew; reflexivity).
    assert (Hrh : rowHeight p = o + s) by (rewrite Hnew; reflexivity).
    assert (Htw : tileWidth p + sideLengthX p = 2 * w) by (rewrite Hnew; cbn; lia).
    rewrite Hcw, Hso, Hrh, Htw in *.
    assert (Hnull : QRect.isNull rect = false).
    { unfold QRect.isNull. apply andb_false_iff. left. apply Z.eqb_neq.
      unfold QRect.left, QRect.right in *.
      destruct (1 <? Workspace.height ws); cbn [fst] in HR; nia. }
    rewrite Hnull.
    assert (Hmy : Z.max 0 (if QRect.y rect - ty * (o + s) <? o then ty - 1 else ty) = 0).
    { apply Z.max_l. destruct Hstart as [_ [Hty | Hty]].
      - destruct (QRect.y rect - ty * (o + s) <? o); lia.
      - subst ty. unfold QRect.y, QRect.top in *.
        destruct (Z.ltb_spec (QRect.y1 rect - 1 * (o + s)) o); lia. }
    assert (Hmx : forall b : bool, Z.max 0 (if b then tx - 1 else tx) = 0).
    { intros b. apply Z.max_l. destruct Hstart as [Htx _]. destruct b; lia. }
    rewrite Hmx, Hmy. cbn [fst snd].
    assert (Hbot : forall y, 0 <= y < Workspace.height ws ->
                     y * (o + s) <= QRect.bottom rect).
    { intros y Hy.
      assert (Hyy : y * (o + s) <= (Workspace.height ws - 1) * (o + s)) by nia.
      destruct (1 <? Workspace.height ws); cbn [snd] in HB; lia. }
    assert (Hright : forall x y, 0 <= x < Workspace.width ws -> 0 <= y < Workspace.height ws ->
                     (if doStaggerY p y then w else 0) + x * (2 * w) <= QRect.right rect).
    { intros x y Hx Hy.
      assert (Hxx : x * (2 * w) <= (Workspace.width ws - 1) * (2 * w)) by nia.
      destruct (1 <? Workspace.height ws); cbn [fst] in HR; destruct (doStaggerY p y); lia. }
    destruct (doStaggerY p 0) eqn:H0; cbn [fst snd].
    all: rewrite (gridSweepY_full p ws rect 0 _ _ 0 _);
      [ apply flat_map_ext_in; intros y Hy; apply in_zrange in Hy;
        rewrite gridRowY_full;
        [ apply flat_map_ext_in; intros x Hx; apply in_zrange in Hx;
          rewrite tileToScreenCoordsP_eq; cbv zeta; fold p;
          change (staggerX p) with (Map.isStaggerX m); rewrite HX, Hcw, Hrh, Htw;
          f_equal; apply (f_equal2 (@pair Z Z)); [| lia];
          destruct (doStaggerY p y); lia
        | lia
        | intros x Hx; rewrite Hcw, Htw;
          specialize (Hright x y ltac:(lia) ltac:(lia)); destruct (doStaggerY p y); lia ]
      | now rewrite Z.sub_0_r
      | intros y Hy; rewrite Hrh; specialize (Hbot y ltac:(lia)); lia ].
Qed.

Lemma map_over_flat_map {A B C : Type} (f : B -> C) (g : A -> list B) (l : list A) :
  List.map f (flat_map g l) = flat_map (fun a => List.map f (g a)) l.
Proof.
  induction l as [| a l IH]; [reflexivity |].
  cbn [flat_map]. now rewrite map_app, IH.
Qed.

(** ** Every edge exactly once, for any sweep over a lattice of tiles *)

Section EdgesOnce.

Variables (tiles : list QPoint) (kinds : list nat).
Variables (edge : QPoint -> nat -> QLine) (emits : QPoint -> nat -> bool).

Hypothesis tiles_NoDup : NoDup tiles.
Hypothesis kinds_NoDup : NoDup kinds.
Hypothesis edge_inj :
  forall t t' k k',
    In t tiles -> In t' tiles -> In k kinds -> In k' kinds ->
    emits t k = true -> emits t' k' = true ->
    sameSegment (edge t k) (edge t' k') -> t = t' /\ k = k'.
Hypothesis edge_covered :
  forall t k,
    In t tiles -> In k kinds ->
    exists t' k', In t' tiles /\ In k' kinds /\ emits t' k' = true
                  /\ sameSegment (edge t k) (edge t' k').

Local Notation "'drawn'" :=
  (List.map normLine
     (flat_map (fun t => List.map (edge t) (filter (emits t) kinds)) tiles)).

Lemma drawn_flat :
  drawn = flat_map (fun t => List.map (fun k => normLine (edge t k))
                                      (filter (emits t) kinds)) tiles.
Proof.
  rewrite map_over_flat_map.
  apply flat_map_ext_in. intros t _. apply map_map.
Qed.

Lemma in_drawn (a : QLine) :
  In a drawn <->
  exists t k, In t tiles /\ In k kinds /\ emits t k = true /\ a = normLine (edge t k).
Proof.
  rewrite drawn_flat, in_flat_map. split.
  - intros (t & Ht & Ha). apply in_map_iff in Ha. destruct Ha as (k & <- & Hk).
    apply filter_In in Hk. destruct Hk as [Hk He]. exists t, k. auto.
  - intros (t & k & Ht & Hk & He & ->). exists t. split; [exact Ht |].
    apply in_map_iff. exists k. split; [reflexivity |]. apply filter_In. now split.
Qed.

Lemma drawn_NoDup : NoDup drawn.
Proof.
  rewrite drawn_flat. apply NoDup_flat_map_inj; [exact tiles_NoDup | |].
  - intros t Ht. apply NoDup_map_NoDup_ForallPairs; [| now apply NoDup_filter].
    intros k k' Hk Hk' Heq.
    apply filter_In in Hk, Hk'. destruct Hk as [Hk He], Hk' as [Hk' He'].
    apply normLine_same in Heq.
    now destruct (edge_inj t t k k' Ht Ht Hk Hk' He He' Heq).
  - intros t t' a Ht Ht' Ha Ha'.
    apply in_map_iff in Ha, Ha'.
    destruct Ha as (k & <- & Hk), Ha' as (k' & Heq & Hk').
    apply filter_In in Hk, Hk'. destruct Hk as [Hk He], Hk' as [Hk' He'].
    symmetry in Heq. apply normLine_same in Heq.
    now destruct (edge_inj t t' k k' Ht Ht' Hk Hk' He He' Heq).
Qed.

Lemma edge_drawn_once (t : QPoint) (k : nat) :
  In t tiles -> In k kinds ->
  count_occ QLine_eq_dec drawn (normLine (edge t k)) = 1%nat.
Proof.
  intros Ht Hk. apply (proj1 (NoDup_count_occ' QLine_eq_dec drawn) drawn_NoDup).
  destruct (edge_covered t k Ht Hk) as (t' & k' & Ht' & Hk' & He' & Hsame).
  apply in_drawn. exists t', k'. repeat split; auto. now apply normLine_same.
Qed.

End EdgesOnce.

(** ** The lattice and the code *)

Lemma gridLinesY_kinds (p : RenderParams.t) (ws : Workspace.t) (tile pos : QPoint) :
  gridLinesY p ws tile pos
  = List.map (fun k => octLine p pos k (S k)) (filter (emitsY p ws tile) kindsY).
Proof.
  unfold gridLinesY, emitsY, kindsY. cbn [filter].
  destruct (fst tile =? Workspace.width ws - 1), (snd tile =? Workspace.height ws - 1),
    (doStaggerY p (snd tile)), (fst tile =? 0); reflexivity.
Qed.

Lemma in_tilesByColumn (W H : Z) (t : QPoint) : In t (tilesByColumn W H) <-> inGrid W H t.
Proof.
  unfold tilesByColumn, inGrid. rewrite in_flat_map. split.
  - intros (x & Hx & Ht). apply in_map_iff in Ht. destruct Ht as (y & <- & Hy).
    apply in_zrange in Hx, Hy. cbn [fst snd]. lia.
  - intros [Hx Hy]. destruct t as [x y]. cbn [fst snd] in *.
    exists x. split; [apply in_zrange; lia |].
    apply in_map_iff. exists y. split; [reflexivity | apply in_zrange; lia].
Qed.

Lemma in_tilesByRow (W H : Z) (t : QPoint) : In t (tilesByRow W H) <-> inGrid W H t.
Proof.
  unfold tilesByRow, inGrid. rewrite in_flat_map. split.
  - intros (y & Hy & Ht). apply in_map_iff in Ht. destruct Ht as (x & <- & Hx).
    apply in_zrange in Hx, Hy. cbn [fst snd]. lia.
  - intros [Hx Hy]. destruct t as [x y]. cbn [fst snd] in *.
    exists y. split; [apply in_zrange; lia |].
    apply in_map_iff. exists x. split; [reflexivity | apply in_zrange; lia].
Qed.

Lemma tilesByColumn_NoDup (W H : Z) : NoDup (tilesByColumn W H).
Proof.
  apply NoDup_flat_map_inj; [apply zrange_NoDup | |].
  - intros x _. apply NoDup_map_NoDup_ForallPairs; [| apply zrange_NoDup].
    intros y y' _ _ Heq. now inversion Heq.
  - intros x x' t _ _ Ht Ht'. apply in_map_iff in Ht, Ht'.
    destruct Ht as (y & <- & _), Ht' as (y' & Heq & _). now inversion Heq.
Qed.

Lemma tilesByRow_NoDup (W H : Z) : NoDup (tilesByRow W H).
Proof.
  apply NoDup_flat_map_inj; [apply zrange_NoDup | |].
  - intros y _. apply NoDup_map_NoDup_ForallPairs; [| apply zrange_NoDup].
    intros x x' _ _ Heq. now inversion Heq.
  - intros y y' t _ _ Ht Ht'. apply in_map_iff in Ht, Ht'.
    destruct Ht as (x & <- & _), Ht' as (x' & Heq & _). now inversion Heq.
Qed.

Lemma flat_map_nested {A B C : Type} (f : A -> list B) (g : B -> list C) (l : list A) :
  flat_map g (flat_map f l) = flat_map (fun a => flat_map g (f a)) l.
Proof.
  induction l as [| a l IH]; [reflexivity |].
  cbn [flat_map]. now rewrite flat_map_app, IH.
Qed.

Lemma flat_map_of_map {A B C : Type} (f : A -> B) (g : B -> list C) (l : list A) :
  flat_map g (List.map f l) = flat_map (fun a => g (f a)) l.
Proof.
  induction l as [| a l IH]; [reflexivity |]. cbn [flat_map List.map]. now rewrite IH.
Qed.

Lemma staggerShift_doStagger (p : RenderParams.t) (i : Z) :
  staggerShift (staggerEven p) i = if isStaggeredIndex p i then 1 else 0.
Proof. unfold staggerShift, isStaggeredIndex. now rewrite rem2_even. Qed.

Lemma kinds_NoDup : NoDup kindsX /\ NoDup kindsY.
Proof.
  split; unfold kindsX, kindsY;
    repeat (constructor; [cbn [In]; intros Hin; decompose [or] Hin; try discriminate; auto |]);
    constructor.
Qed.

Lemma corner_vertexX (m : Map.t) (ws : Workspace.t) (s l h : Z) (t : QPoint) (k : nat) :
  RenderParams.new m ws
  = RenderParams.make (2 * (s + l)) (2 * h) (2 * l) 0 s h h (s + 2 * l)
                      true (Map.isStaggerEven m) ->
  padd (tileToScreenCoordsP m ws t) (octAt (RenderParams.new m ws) k)
  = vertexX s l h (Map.isStaggerEven m) t k.
Proof.
  intros Hnew. destruct t as [x y]. rewrite tileToScreenCoordsP_eq. cbv zeta.
  unfold octAt, oct, vertexX, doStaggerX, isStaggeredIndex.
  rewrite Hnew.
  cbn [tileWidth tileHeight sideLengthX sideLengthY sideOffsetX sideOffsetY
       rowHeight columnWidth staggerX staggerEven fst snd].
  rewrite rem2_even.
  pose proof (Nat.mod_upper_bound k 8 ltac:(lia)) as Hk.
  unfold staggerShift.
  destruct (k mod 8)%nat as [| [| [| [| [| [| [| [| j]]]]]]]]; [.. | lia];
    cbn [nth cornerA cornerB cornerC padd fst snd];
    destruct (if Map.isStaggerEven m then Z.even x else negb (Z.even x));
    apply (f_equal2 (@pair Z Z)); cbn [fst snd]; lia.
Qed.

Lemma corner_vertexY (m : Map.t) (ws : Workspace.t) (s l w : Z) (t : QPoint) (k : nat) :
  RenderParams.new m ws
  = RenderParams.make (2 * w) (2 * (s + l)) 0 (2 * l) w s (s + 2 * l) w
                      false (Map.isStaggerEven m) ->
  padd (tileToScreenCoordsP m ws t) (octAt (RenderParams.new m ws) k)
  = vertexY s l w (Map.isStaggerEven m) t k.
Proof.
  intros Hnew. destruct t as [x y]. rewrite tileToScreenCoordsP_eq. cbv zeta.
  unfold octAt, oct, vertexY, doStaggerY, isStaggeredIndex.
  rewrite Hnew.
  cbn [tileWidth tileHeight sideLengthX sideLengthY sideOffsetX sideOffsetY
       rowHeight columnWidth staggerX staggerEven fst snd].
  rewrite rem2_even.
  pose proof (Nat.mod_upper_bound k 8 ltac:(lia)) as Hk.
  unfold staggerShift.
  destruct (k mod 8)%nat as [| [| [| [| [| [| [| [| j]]]]]]]]; [.. | lia];
    cbn [nth cornerAY cornerBY cornerCY padd fst snd];
    destruct (if Map.isStaggerEven m then Z.even y else negb (Z.even y));
    apply (f_equal2 (@pair Z Z)); cbn [fst snd]; lia.
Qed.

Lemma emitsX_iff (p : RenderParams.t) (ws : Workspace.t) (t : QPoint) (k : nat) :
  In k kindsX ->
  emitsX p ws t k = true
  <-> emitsXP (Workspace.width ws) (Workspace.height ws) (staggerEven p) t k.
Proof.
  unfold kindsX, emitsX, emitsXP, doStaggerX. cbn [In].
  rewrite staggerShift_doStagger.
  intros [<- | [<- | [<- | [<- | [<- | [<- | []]]]]]];
    rewrite ?orb_true_iff, ?andb_true_iff, ?Z.eqb_eq;
    destruct (isStaggeredIndex p (fst t)); intuition (try discriminate; try lia).
Qed.

Lemma emitsY_iff (p : RenderParams.t) (ws : Workspace.t) (t : QPoint) (k : nat) :
  In k kindsY ->
  emitsY p ws t k = true
  <-> emitsYP (Workspace.width ws) (Workspace.height ws) (staggerEven p) t k.
Proof.
  unfold kindsY, emitsY, emitsYP, doStaggerY. cbn [In].
  rewrite staggerShift_doStagger.
  intros [<- | [<- | [<- | [<- | [<- | [<- | []]]]]]];
    rewrite ?orb_true_iff, ?andb_true_iff, ?negb_true_iff, ?Z.eqb_eq;
    destruct (isStaggeredIndex p (snd t)); intuition (try discriminate; try lia).
Qed.

Lemma staggerX_edges (m : Map.t) (ws : Workspace.t) :
  validGeometry m ws -> Map.isStaggerX m = true ->
  let p := RenderParams.new m ws in
  let W := Workspace.width ws in
  let H := Workspace.height ws in
  (forall t t' k k',
      inGrid W H t -> inGrid W H t' -> In k kindsX -> In k' kindsX ->
      emitsX p ws t k = true -> emitsX p ws t' k' = true ->
      sameSegment (tileEdge m ws t k) (tileEdge m ws t' k') -> t = t' /\ k = k')
  /\ (forall t k,
      inGrid W H t -> In k kindsX ->
      exists t' k', inGrid W H t' /\ In k' kindsX /\ emitsX p ws t' k' = true
                    /\ sameSegment (tileEdge m ws t k) (tileEdge m ws t' k')).
Proof.
  intros Hv HX. cbv zeta.
  destruct (new_shapeX m ws Hv HX) as (s & l & h & Hs & Hl & Hsl & Hh & Hnew).
  assert (Hedge : forall t k,
             tileEdge m ws t k
             = (vertexX s l h (Map.isStaggerEven m) t k,
                vertexX s l h (Map.isStaggerEven m) t (S k))).
  { intros t k. unfold tileEdge, octLine. now rewrite !(corner_vertexX m ws s l h). }
  split.
  - intros t t' k k' Ht Ht' Hk Hk' He He' Hsame.
    rewrite !Hedge in Hsame.
    apply (proj1 (emitsX_iff _ ws t k Hk)) in He. apply (proj1 (emitsX_iff _ ws t' k' Hk')) in He'.
    exact (segmentX_inj s l h _ _ _ Hs Hl Hsl Hh t t' k k' Ht Ht' Hk Hk' He He' Hsame).
  - intros t k Ht Hk.
    destruct (segmentX_covered s l h _ _ (Map.isStaggerEven m) Hh t k Ht Hk)
      as (t' & k' & Ht' & Hk' & He' & Hsame).
    exists t', k'. rewrite !Hedge.
    split; [exact Ht' | split; [exact Hk' | split; [| exact Hsame]]].
    apply (proj2 (emitsX_iff (RenderParams.new m ws) ws t' k' Hk')). exact He'.
Qed.

Lemma staggerY_edges (m : Map.t) (ws : Workspace.t) :
  validGeometry m ws -> Map.isStaggerX m = false ->
  let p := RenderParams.new m ws in
  let W := Workspace.width ws in
  let H := Workspace.height ws in
  (forall t t' k k',
      inGrid W H t -> inGrid W H t' -> In k kindsY -> In k' kindsY ->
      emitsY p ws t k = true -> emitsY p ws t' k' = true ->
      sameSegment (tileEdge m ws t k) (tileEdge m ws t' k') -> t = t' /\ k = k')
  /\ (forall t k,
      inGrid W H t -> In k kindsY ->
      exists t' k', inGrid W H t' /\ In k' kindsY /\ emitsY p ws t' k' = true
                    /\ sameSegment (tileEdge m ws t k) (tileEdge m ws t' k')).
Proof.
  intros Hv HX. cbv zeta.
  destruct (new_shapeY m ws Hv HX) as (s & l & w & Hs & Hl & Hsl & Hw & Hnew).
  assert (Hedge : forall t k,
             tileEdge m ws t k
             = (vertexY s l w (Map.isStaggerEven m) t k,
                vertexY s l w (Map.isStaggerEven m) t (S k))).
  { intros t k. unfold tileEdge, octLine. now rewrite !(corner_vertexY m ws s l w). }
  split.
  - intros t t' k k' Ht Ht' Hk Hk' He He' Hsame.
    rewrite !Hedge in Hsame.
    apply (proj1 (emitsY_iff _ ws t k Hk)) in He. apply (proj1 (emitsY_iff _ ws t' k' Hk')) in He'.
    exact (segmentY_inj s l w _ _ _ Hs Hl Hsl Hw t t' k k' Ht Ht' Hk Hk' He He' Hsame).
  - intros t k Ht Hk.
    destruct (segmentY_covered s l w _ _ (Map.isStaggerEven m) Hw t k Ht Hk)
      as (t' & k' & Ht' & Hk' & He' & Hsame).
    exists t', k'. rewrite !Hedge.
    split; [exact Ht' | split; [exact Hk' | split; [| exact Hsame]]].
    apply (proj2 (emitsY_iff (RenderParams.new m ws) ws t' k' Hk')). exact He'.
Qed.

Lemma drawGrid_by_tiles (m : Map.t) (ws : Workspace.t) (exposed : QRectF.t) :
  hexGeometry m ws ->
  1 <= Workspace.width ws -> 1 <= Workspace.height ws ->
  coversGrid m ws exposed ->
  let p := RenderParams.new m ws in
  drawGrid m exposed ws
  = if Map.isStaggerX m
    then flat_map (fun t => List.map (tileEdge m ws t) (filter (emitsX p ws t) kindsX))
                  (tilesByColumn (Workspace.width ws) (Workspace.height ws))
    else flat_map (fun t => List.map (tileEdge m ws t) (filter (emitsY p ws t) kindsY))
                  (tilesByRow (Workspace.width ws) (Workspace.height ws)).
Proof.
  intros Hv HW HH Hc. cbv zeta. rewrite (drawGrid_full m ws exposed Hv HW HH Hc). cbv zeta.
  destruct (Map.isStaggerX m).
  - unfold tilesByColumn. rewrite flat_map_nested.
    apply flat_map_ext_in. intros x _. rewrite flat_map_of_map.
    apply flat_map_ext_in. intros y _. apply gridLinesX_kinds.
  - unfold tilesByRow. rewrite flat_map_nested.
    apply flat_map_ext_in. intros y _. rewrite flat_map_of_map.
    apply flat_map_ext_in. intros x _. apply gridLinesY_kinds.
Qed.

(** ** Grids without tiles *)




(** With an even side length, on pixels: no segment is drawn twice, each
    edge of the outline of each tile is among the segments drawn, and nothing
    else is drawn. *)
Lemma drawGrid_edges_once_nonempty (m : Map.t) (ws : Workspace.t) (exposed : QRectF.t) :
  validGeometry m ws ->
  1 <= Workspace.width ws -> 1 <= Workspace.height ws ->
  coversGrid m ws exposed ->
  let lines := List.map normLine (drawGrid m exposed ws) in
  NoDup lines
  /\ (forall x y e,
         0 <= x < Workspace.width ws -> 0 <= y < Workspace.height ws ->
         In e (outline m ws (x, y)) ->
         count_occ QLine_eq_dec lines (normLine e) = 1%nat)
  /\ (forall l,
         In l lines ->
         exists x y,
           0 <= x < Workspace.width ws /\ 0 <= y < Workspace.height ws
           /\ In l (List.map normLine (outline m ws (x, y)))).
Proof.
  intros Hv HW HH Hc. cbv zeta.
  rewrite (drawGrid_by_tiles m ws exposed (validGeometry_hex m ws Hv) HW HH Hc). cbv zeta.
  unfold outline. change (staggerX (RenderParams.new m ws)) with (Map.isStaggerX m).
  fold (tileEdge m ws).
  destruct (Map.isStaggerX m) eqn:HX.
  - destruct (staggerX_edges m ws Hv HX) as [Hinj Hcov]. cbv zeta in Hinj, Hcov.
    assert (Hinj' : forall t t' k k',
               In t (tilesByColumn (Workspace.width ws) (Workspace.height ws)) ->
               In t' (tilesByColumn (Workspace.width ws) (Workspace.height ws)) ->
               In k kindsX -> In k' kindsX ->
               emitsX (RenderParams.new m ws) ws t k = true ->
               emitsX (RenderParams.new m ws) ws t' k' = true ->
               sameSegment (tileEdge m ws t k) (tileEdge m ws t' k') -> t = t' /\ k = k').
    { intros t t' k k' Ht Ht'. apply in_tilesByColumn in Ht, Ht'. now apply Hinj. }
    split; [| split].
    + apply (drawn_NoDup (tilesByColumn (Workspace.width ws) (Workspace.height ws)) kindsX
               (tileEdge m ws) (emitsX (RenderParams.new m ws) ws));
        [apply tilesByColumn_NoDup | apply kinds_NoDup | exact Hinj'].
    + intros x y e Hx Hy He. apply in_map_iff in He. destruct He as (k & <- & Hk).
      change (octLine (RenderParams.new m ws) (tileToScreenCoordsP m ws (x, y)) k (S k))
        with (tileEdge m ws (x, y) k).
      apply (edge_drawn_once (tilesByColumn (Workspace.width ws) (Workspace.height ws)) kindsX
               (tileEdge m ws) (emitsX (RenderParams.new m ws) ws));
        [apply tilesByColumn_NoDup | apply kinds_NoDup | exact Hinj' | |
         apply in_tilesByColumn; split; assumption | exact Hk].
      intros t k0 Ht Hk0. apply in_tilesByColumn in Ht.
      destruct (Hcov t k0 Ht Hk0) as (t' & k' & Ht' & Hk' & He' & Hsame).
      exists t', k'.
      split; [now apply in_tilesByColumn | split; [exact Hk' | split; assumption]].
    + intros l0 Hl0. apply in_drawn in Hl0. unfold tileEdge.
      destruct Hl0 as (t & k & Ht & Hk & _ & ->).
      apply in_tilesByColumn in Ht. destruct t as [x y]. destruct Ht as [Hx Hy].
      cbn [fst snd] in Hx, Hy. exists x, y.
      split; [exact Hx | split; [exact Hy |]].
      apply in_map. apply in_map_iff. now exists k.
  - destruct (staggerY_edges m ws Hv HX) as [Hinj Hcov]. cbv zeta in Hinj, Hcov.
    assert (Hinj' : forall t t' k k',
               In t (tilesByRow (Workspace.width ws) (Workspace.height ws)) ->
               In t' (tilesByRow (Workspace.width ws) (Workspace.height ws)) ->
               In k kindsY -> In k' kindsY ->
               emitsY (RenderParams.new m ws) ws t k = true ->
               emitsY (RenderParams.new m ws) ws t' k' = true ->
               sameSegment (tileEdge m ws t k) (tileEdge m ws t' k') -> t = t' /\ k = k').
    { intros t t' k k' Ht Ht'. apply in_tilesByRow in Ht, Ht'. now apply Hinj. }
    split; [| split].
    + apply (drawn_NoDup (tilesByRow (Workspace.width ws) (Workspace.height ws)) kindsY
               (tileEdge m ws) (emitsY (RenderParams.new m ws) ws));
        [apply tilesByRow_NoDup | apply kinds_NoDup | exact Hinj'].
    + intros x y e Hx Hy He. apply in_map_iff in He. destruct He as (k & <- & Hk).
      change (octLine (RenderParams.new m ws) (tileToScreenCoordsP m ws (x, y)) k (S k))
        with (tileEdge m ws (x, y) k).
      apply (edge_drawn_once (tilesByRow (Workspace.width ws) (Workspace.height ws)) kindsY
               (tileEdge m ws) (emitsY (RenderParams.new m ws) ws));
        [apply tilesByRow_NoDup | apply kinds_NoDup | exact Hinj' | |
         apply in_tilesByRow; split; assumption | exact Hk].
      intros t k0 Ht Hk0. apply in_tilesByRow in Ht.
      destruct (Hcov t k0 Ht Hk0) as (t' & k' & Ht' & Hk' & He' & Hsame).
      exists t', k'.
      split; [now apply in_tilesByRow | split; [exact Hk' | split; assumption]].
    + intros l0 Hl0. apply in_drawn in Hl0. unfold tileEdge.
      destruct Hl0 as (t & k & Ht & Hk & _ & ->).
      apply in_tilesByRow in Ht. destruct t as [x y]. destruct Ht as [Hx Hy].
      cbn [fst snd] in Hx, Hy. exists x, y.
      split; [exact Hx | split; [exact Hy |]].
      apply in_map. apply in_map_iff. now exists k.
Qed.

(** ** Grid lines: every edge of the tiling exactly once *)
















(** With a side length of 5 and a grid of 2 by 1 tiles, 11 lines are drawn;
    the edge between the two tiles is drawn once, by tile (1,0), one pixel
    beside the lower right edge of the outline of tile (0,0). *)
Lemma odd_side_length_shared_edge :
  let m := Map.make Map.Hexagonal Map.StaggerX Map.StaggerOdd 5 in
  let ws := Workspace.make 2 1 32 32 in
  let exposed := QRectF.make 0 0 49 48 in
  length (drawGrid m exposed ws) = 11%nat
  /\ across m ((0, 0), 5%nat) = ((1, 0), 1%nat)
  /\ count_occ Edge_eq_dec (drawnEdges m ws) ((1, 0), 1%nat) = 1%nat
  /\ count_occ Edge_eq_dec (drawnEdges m ws) ((0, 0), 5%nat) = 0%nat
  /\ edgeLine m ws ((0, 0), 5%nat) = ((32, 16), (19, 32))
  /\ edgeLine m ws ((1, 0), 1%nat) = ((18, 32), (31, 16)).
Proof. vm_compute. repeat split; reflexivity. Qed.

(** * Further properties *)

(** ** The render parameters of any workspace *)

(** X1: the tile size of the render parameters is the tile size of the
    workspace rounded down to an even number, for every workspace. *)
Theorem tile_size_rounded_down_to_even (m : Map.t) (ws : Workspace.t) :
  let p := RenderParams.new m ws in
  Z.even (tileWidth p) = true /\ Z.even (tileHeight p) = true
  /\ Workspace.tileWidth ws - 1 <= tileWidth p <= Workspace.tileWidth ws
  /\ Workspace.tileHeight ws - 1 <= tileHeight p <= Workspace.tileHeight ws.
Proof.
  cbv zeta. unfold RenderParams.new. cbn [tileWidth tileHeight].
  rewrite !land_not1_even, !Z.even_mul. cbn [Z.even orb].
  pose proof (Z.div_mod (Workspace.tileWidth ws) 2 ltac:(lia)).
  pose proof (Z.mod_pos_bound (Workspace.tileWidth ws) 2 ltac:(lia)).
  pose proof (Z.div_mod (Workspace.tileHeight ws) 2 ltac:(lia)).
  pose proof (Z.mod_pos_bound (Workspace.tileHeight ws) 2 ltac:(lia)).
  repeat split; lia.
Qed.

Lemma quot2_twice_iff (a : Z) : 2 * (a ÷ 2) = a <-> Z.even a = true.
Proof.
  split.
  - intros H. rewrite <- H, Z.even_mul. reflexivity.
  - intros H. apply Z.even_spec in H. destruct H as [k ->]. now rewrite quot2_double.
Qed.

(** X2: the outline of a tile is symmetric, that is the side offset plus the
    column width (the row height) is the tile width (the tile height),
    exactly when the side length of a hexagonal map is even. *)
Theorem outline_symmetric_iff_even_side (m : Map.t) (ws : Workspace.t) :
  let p := RenderParams.new m ws in
  (sideOffsetX p + columnWidth p = tileWidth p /\ sideOffsetY p + rowHeight p = tileHeight p)
  <-> (Map.orientation m = Map.Hexagonal -> Z.even (Map.hexSideLength m) = true).
Proof.
  cbv zeta. unfold RenderParams.new.
  cbn [tileWidth tileHeight sideOffsetX sideOffsetY columnWidth rowHeight].
  rewrite !land_not1_even.
  set (tw := Workspace.tileWidth ws / 2). set (th := Workspace.tileHeight ws / 2).
  assert (E0 : forall t, (2 * t - 0) ÷ 2 = t) by (intros t; rewrite Z.sub_0_r; apply quot2_double).
  assert (Ev : forall t s, 2 * ((2 * t - s) ÷ 2) = 2 * t - s <-> Z.even s = true).
  { intros t s. rewrite quot2_twice_iff, Z.even_sub, Z.even_mul. cbn [Z.even orb].
    destruct (Z.even s); cbn; split; congruence. }
  unfold Map.isHexagonal.
  destruct (Map.orientation m); cbn [andb]; rewrite ?E0;
    try (split; [intros _ HH; discriminate HH | intros _; split; lia]).
  destruct (Map.isStaggerX m); cbn [negb]; rewrite ?E0.
  - specialize (Ev tw (Map.hexSideLength m)). split.
    + intros [H1 _] _. apply Ev. lia.
    + intros H. specialize (H eq_refl). apply Ev in H. split; lia.
  - specialize (Ev th (Map.hexSideLength m)). split.
    + intros [_ H1] _. apply Ev. lia.
    + intros H. specialize (H eq_refl). apply Ev in H. split; lia.
Qed.

(** ** The two conversions together *)

Lemma isStaggeredIndex_succ (p : RenderParams.t) (i : Z) :
  isStaggeredIndex p (i + 1) = negb (isStaggeredIndex p i).
Proof.
  unfold isStaggeredIndex. rewrite !rem2_even, Z.even_add. cbn [Z.even].
  destruct (staggerEven p), (Z.even i); reflexivity.
Qed.

Lemma isStaggeredIndex_pred (p : RenderParams.t) (i : Z) :
  isStaggeredIndex p (i - 1) = negb (isStaggeredIndex p i).
Proof.
  unfold isStaggeredIndex. rewrite !rem2_even, Z.even_sub. cbn [Z.even].
  destruct (staggerEven p), (Z.even i); reflexivity.
Qed.

Lemma staggerX_pitch (m : Map.t) (ws : Workspace.t) :
  let p := RenderParams.new m ws in
  staggerX p = true -> tileHeight p + sideLengthY p = 2 * rowHeight p.
Proof.
  cbv zeta. unfold RenderParams.new.
  cbn [tileHeight sideLengthY rowHeight staggerX sideOffsetY].
  intros ->. rewrite andb_false_r, land_not1_even, Z.sub_0_r, quot2_double. lia.
Qed.

Lemma staggerY_pitch (m : Map.t) (ws : Workspace.t) :
  let p := RenderParams.new m ws in
  staggerX p = false -> tileWidth p + sideLengthX p = 2 * columnWidth p.
Proof.
  cbv zeta. unfold RenderParams.new.
  cbn [tileWidth sideLengthX columnWidth staggerX sideOffsetX].
  intros ->. rewrite andb_false_r, land_not1_even, Z.sub_0_r, quot2_double. lia.
Qed.

(** X3: on the screen the four neighbour lookups lead to the tiles one
    column width to the left or right and one row height up or down, for
    every map, workspace and tile. *)
Theorem neighbours_are_adjacent_on_screen (m : Map.t) (ws : Workspace.t) (x y : Z) :
  let p := RenderParams.new m ws in
  let pos := tileToScreenCoordsP m ws (x, y) in
  tileToScreenCoordsP m ws (topLeft m x y) = padd pos (- columnWidth p, - rowHeight p)
  /\ tileToScreenCoordsP m ws (topRight m x y) = padd pos (columnWidth p, - rowHeight p)
  /\ tileToScreenCoordsP m ws (bottomLeft m x y) = padd pos (- columnWidth p, rowHeight p)
  /\ tileToScreenCoordsP m ws (bottomRight m x y) = padd pos (columnWidth p, rowHeight p).
Proof.
  cbv zeta. unfold topLeft, topRight, bottomLeft, bottomRight.
  rewrite !(parityXorIndex_staggered m ws).
  pose proof (staggerX_pitch m ws) as HX. pose proof (staggerY_pitch m ws) as HY.
  cbv zeta in HX, HY.
  assert (Hax : staggerX (RenderParams.new m ws) = Map.isStaggerX m) by reflexivity.
  unfold Map.isStaggerX in Hax.
  destruct (Map.staggerAxis m).
  - specialize (HX Hax). clear HY.
    destruct (isStaggeredIndex (RenderParams.new m ws) x) eqn:E;
      rewrite !tileToScreenCoordsP_eq; cbv zeta; rewrite Hax;
      unfold doStaggerX; rewrite ?isStaggeredIndex_succ, ?isStaggeredIndex_pred, E;
      unfold padd; cbn [negb fst snd]; rewrite HX;
      repeat split; apply (f_equal2 (@pair Z Z)); lia.
  - specialize (HY Hax). clear HX.
    destruct (isStaggeredIndex (RenderParams.new m ws) y) eqn:E;
      rewrite !tileToScreenCoordsP_eq; cbv zeta; rewrite Hax;
      unfold doStaggerY; rewrite ?isStaggeredIndex_succ, ?isStaggeredIndex_pred, E;
      unfold padd; cbn [negb fst snd]; rewrite HY;
      repeat split; apply (f_equal2 (@pair Z Z)); lia.
Qed.

(** X4: under a validated geometry two tiles at the same screen position are
    the same tile. *)
Theorem tileToScreenCoords_injective (m : Map.t) (ws : Workspace.t) (a b : QPoint) :
  validGeometry m ws ->
  tileToScreenCoordsP m ws a = tileToScreenCoordsP m ws b -> a = b.
Proof.
  intros Hv. destruct a as [x y], b as [x' y'].
  rewrite !tileToScreenCoordsP_eq. cbv zeta.
  unfold doStaggerX, doStaggerY.
  destruct (Map.isStaggerX m) eqn:HX.
  - destruct (new_shapeX m ws Hv HX) as (s & l & h & Hs & Hl & Hsl & Hh & ->).
    cbn [tileWidth tileHeight sideLengthX sideLengthY sideOffsetX sideOffsetY
         rowHeight columnWidth staggerX staggerEven].
    intros E. pose proof (f_equal fst E) as E1. pose proof (f_equal snd E) as E2.
    cbn [fst snd] in E1, E2.
    assert (x = x') by nia. subst x'.
    destruct (isStaggeredIndex _ x); assert (y = y') by nia; now subst.
  - destruct (new_shapeY m ws Hv HX) as (s & l & w & Hs & Hl & Hsl & Hw & ->).
    cbn [tileWidth tileHeight sideLengthX sideLengthY sideOffsetX sideOffsetY
         rowHeight columnWidth staggerX staggerEven].
    intros E. pose proof (f_equal fst E) as E1. pose proof (f_equal snd E) as E2.
    cbn [fst snd] in E1, E2.
    assert (y = y') by nia. subst y'.
    destruct (isStaggeredIndex _ y); assert (x = x') by nia; now subst.
Qed.

Lemma tileToScreenCoords_injective_witness :
  ((2, 1) : QPoint) = (2, 1).
Proof.
  apply (tileToScreenCoords_injective scenarioMap scenarioWorkspace (2, 1) (2, 1)).
  - unfold validGeometry. cbn. repeat split; try reflexivity; lia.
  - reflexivity.
Defined.

Lemma Qfloor_unique (q : Q) (k : Z) :
  (inject_Z k <= q)%Q -> (q < inject_Z (k + 1))%Q -> Qfloor q = k.
Proof.
  intros Hlo Hhi.
  apply Qfloor_resp_le in Hlo. rewrite Qfloor_Z in Hlo.
  pose proof (Qfloor_le q) as H3.
  assert (H4 : (inject_Z (Qfloor q) < inject_Z (k + 1))%Q)
    by (eapply Qle_lt_trans; eassumption).
  rewrite <- Zlt_Qlt in H4. lia.
Qed.

Lemma Qfloor_plus_Z (q : Q) (a : Z) : Qfloor (q + inject_Z a) = Qfloor q + a.
Proof.
  apply Qfloor_unique.
  - rewrite inject_Z_plus. pose proof (Qfloor_le q). lra.
  - replace (Qfloor q + a + 1) with ((Qfloor q + 1) + a) by lia.
    rewrite inject_Z_plus. pose proof (Qlt_floor q). lra.
Qed.

Lemma Qfloor_shift (X : Q) (c a : Z) :
  c <> 0 -> Qfloor ((X + inject_Z (a * c)) / inject_Z c) = Qfloor (X / inject_Z c) + a.
Proof.
  intros Hc. rewrite <- Qfloor_plus_Z. apply Qfloor_comp.
  rewrite inject_Z_mult. field.
  intros H. apply Hc. apply inject_Z_injective. exact H.
Qed.

Lemma lengthSquared_Qeq (c : QPoint) (r r' : QPointF) :
  (fst r == fst r')%Q -> (snd r == snd r')%Q ->
  (lengthSquared c r == lengthSquared c r')%Q.
Proof. intros Hx Hy. unfold lengthSquared. now rewrite Hx, Hy. Qed.

Lemma nearestLoop_Qeq (r r' : QPointF) (cs : list QPoint) :
  (fst r == fst r')%Q -> (snd r == snd r')%Q ->
  forall (i nearest : nat) (md md' : option Q),
    sameDist md md' ->
    nearestLoop r cs i nearest md = nearestLoop r' cs i nearest md'.
Proof.
  intros Hx Hy. induction cs as [| c cs IH]; intros i nearest md md' Hm; [reflexivity |].
  cbn [nearestLoop].
  pose proof (lengthSquared_Qeq c r r' Hx Hy) as Hd.
  destruct md as [d |], md' as [d' |]; cbn in Hm; try contradiction.
  - rewrite (Qcompare_comp _ _ Hd _ _ Hm).
    destruct (lengthSquared c r' ?= d')%Q; apply IH; cbn; auto.
  - apply IH. exact Hd.
Qed.

(** With exact arithmetic both conversions commute with a shift by whole
    periods of the grid, at every point of rational coordinates. *)
Lemma exact_conversions_commute_with_periods
    (m : Map.t) (ws : Workspace.t) (x y : Q) (t : QPoint) (a b : Z) :
  let p := RenderParams.new m ws in
  let tiles : QPoint := if staggerX p then (2 * a, b) else (a, 2 * b) in
  columnWidth p <> 0 -> rowHeight p <> 0 ->
  tileToScreenCoordsP m ws (padd t tiles)
  = padd (tileToScreenCoordsP m ws t) (a * (2 * columnWidth p), b * (2 * rowHeight p))
  /\ screenToTileCoords m ws (x + inject_Z (a * (2 * columnWidth p)))
                             (y + inject_Z (b * (2 * rowHeight p)))
     = padd (screenToTileCoords m ws x y) tiles.
Proof.
  cbv zeta. intros Hc Hr. split.
  - destruct t as [tx ty].
    pose proof (staggerX_pitch m ws) as HX. pose proof (staggerY_pitch m ws) as HY.
    cbv zeta in HX, HY.
    destruct (staggerX (RenderParams.new m ws)) eqn:E; unfold padd; cbn [fst snd];
      rewrite !tileToScreenCoordsP_eq; cbv zeta; rewrite E;
      unfold doStaggerX, doStaggerY, isStaggeredIndex;
      rewrite !rem2_even, Z.even_add, Z.even_mul; cbn [Z.even orb fst snd].
    + specialize (HX eq_refl). rewrite HX.
      destruct (Z.even tx), (staggerEven (RenderParams.new m ws)); cbn [Bool.eqb negb];
        apply (f_equal2 (@pair Z Z)); lia.
    + specialize (HY eq_refl). rewrite HY.
      destruct (Z.even ty), (staggerEven (RenderParams.new m ws)); cbn [Bool.eqb negb];
        apply (f_equal2 (@pair Z Z)); lia.
  - unfold screenToTileCoords, qFloor.
    set (p := RenderParams.new m ws) in *.
    set (kx := inject_Z (if staggerEven p then tileWidth p else sideOffsetX p)).
    set (ky := inject_Z (if staggerEven p then tileHeight p else sideOffsetY p)).
    replace (a * (2 * columnWidth p)) with (a * (columnWidth p * 2)) by lia.
    replace (b * (2 * rowHeight p)) with (b * (rowHeight p * 2)) by lia.
    set (cw := columnWidth p * 2) in *. set (rh := rowHeight p * 2) in *.
    assert (Hcw : cw <> 0) by (subst cw; lia).
    assert (Hrh : rh <> 0) by (subst rh; lia).
    assert (FX : forall X X' : Q, (X' == X + inject_Z (a * cw))%Q ->
               Qfloor (X' / inject_Z cw) = Qfloor (X / inject_Z cw) + a).
    { intros X X' ->. now apply Qfloor_shift. }
    assert (FY : forall Y Y' : Q, (Y' == Y + inject_Z (b * rh))%Q ->
               Qfloor (Y' / inject_Z rh) = Qfloor (Y / inject_Z rh) + b).
    { intros Y Y' ->. now apply Qfloor_shift. }
    destruct (staggerX p).
    + rewrite (FX (x - kx)%Q (x + inject_Z (a * cw) - kx)%Q) by ring.
      rewrite (FY y (y + inject_Z (b * rh))%Q) by reflexivity.
      set (rx := Qfloor ((x - kx) / inject_Z cw)). set (ry := Qfloor (y / inject_Z rh)).
      rewrite (nearestLoop_Qeq
                 (x + inject_Z (a * cw) - kx - inject_Z ((rx + a) * cw),
                  y + inject_Z (b * rh) - inject_Z ((ry + b) * rh))%Q
                 (x - kx - inject_Z (rx * cw), y - inject_Z (ry * rh))%Q
                 (centers p)) with (md' := None);
        [| cbn [fst snd]; rewrite !inject_Z_mult, !inject_Z_plus; ring ..| exact I].
      unfold padd; cbn [fst snd]. apply (f_equal2 (@pair Z Z)); lia.
    + rewrite (FX x (x + inject_Z (a * cw))%Q) by reflexivity.
      rewrite (FY (y - ky)%Q (y + inject_Z (b * rh) - ky)%Q) by ring.
      set (rx := Qfloor (x / inject_Z cw)). set (ry := Qfloor ((y - ky) / inject_Z rh)).
      rewrite (nearestLoop_Qeq
                 (x + inject_Z (a * cw) - inject_Z ((rx + a) * cw),
                  y + inject_Z (b * rh) - ky - inject_Z ((ry + b) * rh))%Q
                 (x - inject_Z (rx * cw), y - ky - inject_Z (ry * rh))%Q
                 (centers p)) with (md' := None);
        [| cbn [fst snd]; rewrite !inject_Z_mult, !inject_Z_plus; ring ..| exact I].
      unfold padd; cbn [fst snd]. apply (f_equal2 (@pair Z Z)); lia.
Qed.

(** X5: both conversions commute with a shift by whole periods of the
    grid: two columns and one row under stagger-X, one column and two rows
    under stagger-Y, that is [a] times twice the column width and [b] times
    twice the row height on the screen.  For [screenToTileCoords], with the
    rounding of its arithmetic, this is on whole pixels, the tile size and
    the coordinates of the two pixels being [int]s. *)
Theorem conversions_commute_with_periods
    (m : Map.t) (ws : Workspace.t) (pixel t : QPoint) (a b : Z) :
  hexGeometry m ws ->
  isInt (Workspace.tileWidth ws) -> isInt (Workspace.tileHeight ws) ->
  let p := RenderParams.new m ws in
  let tiles : QPoint := if staggerX p then (2 * a, b) else (a, 2 * b) in
  let shift : QPoint := (a * (2 * columnWidth p), b * (2 * rowHeight p)) in
  isInt (fst pixel) -> isInt (snd pixel) ->
  isInt (fst (padd pixel shift)) -> isInt (snd (padd pixel shift)) ->
  tileToScreenCoordsP m ws (padd t tiles) = padd (tileToScreenCoordsP m ws t) shift
  /\ screenToTileCoordsF m ws (inject_Z (fst (padd pixel shift)))
                              (inject_Z (snd (padd pixel shift)))
     = padd (screenToTileCoordsF m ws (inject_Z (fst pixel)) (inject_Z (snd pixel))) tiles.
Proof.
  intros Hg Htw Hth p tiles shift Hpx Hpy Hsx Hsy.
  pose proof (hexGeometry_params m ws Hg) as (_ & _ & Hc & _). cbv zeta in Hc. fold p in Hc.
  split.
  - apply (exact_conversions_commute_with_periods m ws 0%Q 0%Q t a b); fold p; lia.
  - rewrite (screenToTileCoordsF_pixel m ws (padd pixel shift) Hg Htw Hth Hsx Hsy).
    rewrite (screenToTileCoordsF_pixel m ws pixel Hg Htw Hth Hpx Hpy).
    cbv zeta. fold p.
    assert (E1 : fst (padd pixel shift) = fst pixel + a * (2 * columnWidth p)) by reflexivity.
    assert (E2 : snd (padd pixel shift) = snd pixel + b * (2 * rowHeight p)) by reflexivity.
    rewrite E1, E2. subst tiles. clear E1 E2 Hsx Hsy. clearbody shift.
    assert (HDx : forall X, (X + a * (2 * columnWidth p)) / (columnWidth p * 2)
                            = X / (columnWidth p * 2) + a).
    { intros X. replace (a * (2 * columnWidth p)) with (a * (columnWidth p * 2)) by lia.
      apply Z.div_add. lia. }
    assert (HDy : forall Y, (Y + b * (2 * rowHeight p)) / (rowHeight p * 2)
                            = Y / (rowHeight p * 2) + b).
    { intros Y. replace (b * (2 * rowHeight p)) with (b * (rowHeight p * 2)) by lia.
      apply Z.div_add. lia. }
    destruct (staggerX p).
    + replace (fst pixel + a * (2 * columnWidth p)
               - (if staggerEven p then tileWidth p else sideOffsetX p))
        with (fst pixel - (if staggerEven p then tileWidth p else sideOffsetX p)
              + a * (2 * columnWidth p)) by lia.
      rewrite HDx, HDy.
      set (X := fst pixel - (if staggerEven p then tileWidth p else sideOffsetX p)).
      replace (X + a * (2 * columnWidth p) - (X / (columnWidth p * 2) + a) * (columnWidth p * 2))
        with (X - X / (columnWidth p * 2) * (columnWidth p * 2)) by lia.
      replace (snd pixel + b * (2 * rowHeight p)
               - (snd pixel / (rowHeight p * 2) + b) * (rowHeight p * 2))
        with (snd pixel - snd pixel / (rowHeight p * 2) * (rowHeight p * 2)) by lia.
      unfold padd. cbn [fst snd]. apply (f_equal2 (@pair Z Z)); lia.
    + replace (snd pixel + b * (2 * rowHeight p)
               - (if staggerEven p then tileHeight p else sideOffsetY p))
        with (snd pixel - (if staggerEven p then tileHeight p else sideOffsetY p)
              + b * (2 * rowHeight p)) by lia.
      rewrite HDx, HDy.
      set (Y := snd pixel - (if staggerEven p then tileHeight p else sideOffsetY p)).
      replace (Y + b * (2 * rowHeight p) - (Y / (rowHeight p * 2) + b) * (rowHeight p * 2))
        with (Y - Y / (rowHeight p * 2) * (rowHeight p * 2)) by lia.
      replace (fst pixel + a * (2 * columnWidth p)
               - (fst pixel / (columnWidth p * 2) + a) * (columnWidth p * 2))
        with (fst pixel - fst pixel / (columnWidth p * 2) * (columnWidth p * 2)) by lia.
      unfold padd. cbn [fst snd]. apply (f_equal2 (@pair Z Z)); lia.
Qed.

Lemma conversions_commute_with_periods_witness :
  let p := RenderParams.new scenarioMap scenarioWorkspace in
  let shift : QPoint := (3 * (2 * columnWidth p), -2 * (2 * rowHeight p)) in
  tileToScreenCoordsP scenarioMap scenarioWorkspace (padd (1, 1) (2 * 3, -2))
  = padd (tileToScreenCoordsP scenarioMap scenarioWorkspace (1, 1)) shift
  /\ screenToTileCoordsF scenarioMap scenarioWorkspace
       (inject_Z (fst (padd (25, 40) shift))) (inject_Z (snd (padd (25, 40) shift)))
     = padd (screenToTileCoordsF scenarioMap scenarioWorkspace (inject_Z 25) (inject_Z 40))
            (2 * 3, -2).
Proof.
  apply (conversions_commute_with_periods scenarioMap scenarioWorkspace
           (25, 40) (1, 1) 3 (-2)).
  - unfold hexGeometry. cbn. repeat split; try reflexivity; lia.
  - unfold isInt. cbn. lia.
  - unfold isInt. cbn. lia.
  - unfold isInt. cbn. lia.
  - unfold isInt. cbn. lia.
  - unfold isInt. cbn. lia.
  - unfold isInt. cbn. lia.
Defined.

(** X6: [pixelToTileCoords] returns the tile (x,y) at the centre of the
    rectangle of the tile that [tileToPixelCoords] places, under a validated
    geometry. *)
Theorem pixelToTileCoords_inverts_tileToPixelCoords_at_centre
    (m : Map.t) (ws : Workspace.t) (x y : Z) :
  validGeometry m ws ->
  let p := RenderParams.new m ws in
  let pos := tileToPixelCoords m ws (inject_Z x) (inject_Z y) in
  pixelToTileCoords m ws (inject_Z (fst pos + tileWidth p ÷ 2))
                         (inject_Z (snd pos + tileHeight p ÷ 2)) = (x, y).
Proof.
  intros Hv. cbv zeta. apply (screenToTileCoords_at_centre m ws x y Hv).
Qed.

Lemma pixelToTileCoords_inverts_tileToPixelCoords_at_centre_witness :
  let p := RenderParams.new scenarioMap scenarioWorkspace in
  let pos := tileToPixelCoords scenarioMap scenarioWorkspace (inject_Z 2) (inject_Z 1) in
  pixelToTileCoords scenarioMap scenarioWorkspace
    (inject_Z (fst pos + tileWidth p ÷ 2)) (inject_Z (snd pos + tileHeight p ÷ 2)) = (2, 1).
Proof.
  apply (pixelToTileCoords_inverts_tileToPixelCoords_at_centre scenarioMap scenarioWorkspace 2 1).
  unfold validGeometry. cbn. repeat split; try reflexivity; lia.
Defined.

Lemma nearest4_argmin (rel : QPointF) (c0 c1 c2 c3 : QPoint) :
  let cs := [c0; c1; c2; c3] in
  forall n, n = nearestLoop rel cs 0 0 None ->
  (n < 4)%nat
  /\ forall j, (j < 4)%nat ->
       (lengthSquared (nth n cs (0, 0)%Z) rel <= lengthSquared (nth j cs (0, 0)%Z) rel)%Q
       /\ ((j < n)%nat ->
           (lengthSquared (nth n cs (0, 0)%Z) rel < lengthSquared (nth j cs (0, 0)%Z) rel)%Q).
Proof.
  cbv zeta. intros n ->. cbn [nearestLoop].
  repeat match goal with
         | |- context [(?a ?= ?b)%Q] =>
             let H := fresh in destruct (Qcompare_spec a b) as [H | H | H]
         end.
  all: split; [lia |].
  all: intros j Hj; destruct j as [| [| [| [| j]]]]; [.. | lia]; cbn [nth]; split;
    try (intros Hlt; exfalso; lia); try lra.
Qed.

(** With exact arithmetic the conversion returns, at every point of rational
    coordinates, the first of the four candidate tiles whose centre is
    nearest. *)
Lemma exact_nearest_candidate (m : Map.t) (ws : Workspace.t) (x y : Q) :
  validGeometry m ws ->
  let cands := candidateTiles m ws x y in
  exists i, (i < 4)%nat
    /\ screenToTileCoords m ws x y = nth i cands (0, 0)
    /\ forall j, (j < 4)%nat ->
         (lengthSquared (centreOf m ws (nth i cands (0, 0)%Z)) (x, y)
          <= lengthSquared (centreOf m ws (nth j cands (0, 0)%Z)) (x, y))%Q
         /\ ((j < i)%nat ->
             (lengthSquared (centreOf m ws (nth i cands (0, 0)%Z)) (x, y)
              < lengthSquared (centreOf m ws (nth j cands (0, 0)%Z)) (x, y))%Q).
Proof.
  intros Hv. cbv zeta.
  unfold candidateTiles, referencePoint, screenToTileCoords, centers, qFloor.
  unfold centreOf, hexCentre. 
  destruct (Map.isStaggerX m) eqn:HX.
  - destruct (new_shapeX m ws Hv HX) as (s & l & h & Hs & Hl & Hsl & Hh & Hnew).
    assert (Hpos : forall tx ty,
               tileToScreenCoordsP m ws (tx, ty)
               = (tx * (s + 2 * l),
                  ty * (2 * h) + (if (if Map.isStaggerEven m then Z.even tx else negb (Z.even tx))
                                  then h else 0))).
    { intros tx ty. rewrite tileToScreenCoordsP_eq. cbv zeta.
      unfold doStaggerX, isStaggeredIndex. rewrite Hnew, rem2_even.
      cbn [tileWidth tileHeight sideLengthX sideLengthY sideOffsetX sideOffsetY
           rowHeight columnWidth staggerX staggerEven].
      apply (f_equal2 (@pair Z Z)); lia. }
    rewrite Hnew.
    cbn [tileWidth tileHeight sideLengthX sideLengthY sideOffsetX sideOffsetY
         rowHeight columnWidth staggerX staggerEven fst snd].
    rewrite !quot2_double.
    set (K := inject_Z (if Map.isStaggerEven m then 2 * (s + l) else s)).
    set (rx := Qfloor ((x - K) / inject_Z ((s + 2 * l) * 2))).
    set (ry := Qfloor (y / inject_Z (h * 2))).
    match goal with |- context [nearestLoop ?rel [?c0; ?c1; ?c2; ?c3] 0 0 None] =>
      remember (nearestLoop rel [c0; c1; c2; c3] 0 0 None) as n eqn:En;
      pose proof (nearest4_argmin rel c0 c1 c2 c3 n En) as Hmin; cbv zeta in Hmin
    end.
    clear En. destruct Hmin as [Hn Hmin].
    exists n. split; [exact Hn |]. split.
    { destruct n as [| [| [| [| n]]]]; [.. | lia]; reflexivity. }
    assert (Hc : forall j, (j < 4)%nat ->
      (lengthSquared
         (padd (tileToScreenCoordsP m ws
                  (nth j (List.map (padd (rx * 2 + (if Map.isStaggerEven m then 1 else 0), ry)%Z)
                                   offsetsStaggerX) (0, 0)%Z))
               (s + l, h)%Z) (x, y)
       == lengthSquared
            (nth j [(l, h); (l + (s + 2 * l), h - h); (l + (s + 2 * l), h + h);
                    (l + (s + 2 * l) + (s + 2 * l), h)]%Z (0, 0)%Z)
            ((x - K - inject_Z (rx * ((s + 2 * l) * 2)))%Q,
             (y - inject_Z (ry * (h * 2)))%Q))%Q).
    { intros j Hj. subst K.
      destruct j as [| [| [| [| j]]]]; [.. | lia];
        cbn [nth List.map offsetsStaggerX]; unfold padd at 2; cbn [fst snd];
        rewrite Hpos; unfold padd, lengthSquared; cbn [fst snd];
        rewrite ?Z.even_add, ?Z.even_mul; cbn [Z.even orb andb]; rewrite ?orb_true_r;
        destruct (Map.isStaggerEven m); cbn [Z.even Bool.eqb negb];
        qnorm; ring. }
    intros j Hj. rewrite (Hc n Hn), (Hc j Hj). exact (Hmin j Hj).
  - destruct (new_shapeY m ws Hv HX) as (s & l & w & Hs & Hl & Hsl & Hw & Hnew).
    assert (Hpos : forall tx ty,
               tileToScreenCoordsP m ws (tx, ty)
               = (tx * (2 * w) + (if (if Map.isStaggerEven m then Z.even ty else negb (Z.even ty))
                                  then w else 0),
                  ty * (s + 2 * l))).
    { intros tx ty. rewrite tileToScreenCoordsP_eq. cbv zeta.
      unfold doStaggerY, isStaggeredIndex. rewrite Hnew, rem2_even.
      cbn [tileWidth tileHeight sideLengthX sideLengthY sideOffsetX sideOffsetY
           rowHeight columnWidth staggerX staggerEven].
      apply (f_equal2 (@pair Z Z)); lia. }
    rewrite Hnew.
    cbn [tileWidth tileHeight sideLengthX sideLengthY sideOffsetX sideOffsetY
         rowHeight columnWidth staggerX staggerEven fst snd].
    rewrite !quot2_double.
    set (K := inject_Z (if Map.isStaggerEven m then 2 * (s + l) else s)).
    set (rx := Qfloor (x / inject_Z (w * 2))).
    set (ry := Qfloor ((y - K) / inject_Z ((s + 2 * l) * 2))).
    match goal with |- context [nearestLoop ?rel [?c0; ?c1; ?c2; ?c3] 0 0 None] =>
      remember (nearestLoop rel [c0; c1; c2; c3] 0 0 None) as n eqn:En;
      pose proof (nearest4_argmin rel c0 c1 c2 c3 n En) as Hmin; cbv zeta in Hmin
    end.
    clear En. destruct Hmin as [Hn Hmin].
    exists n. split; [exact Hn |]. split.
    { destruct n as [| [| [| [| n]]]]; [.. | lia]; reflexivity. }
    assert (Hc : forall j, (j < 4)%nat ->
      (lengthSquared
         (padd (tileToScreenCoordsP m ws
                  (nth j (List.map (padd (rx, ry * 2 + (if Map.isStaggerEven m then 1 else 0))%Z)
                                   offsetsStaggerY) (0, 0)%Z))
               (w, s + l)%Z) (x, y)
       == lengthSquared
            (nth j [(w, l); (w - w, l + (s + 2 * l)); (w + w, l + (s + 2 * l));
                    (w, l + (s + 2 * l) + (s + 2 * l))]%Z (0, 0)%Z)
            ((x - inject_Z (rx * (w * 2)))%Q,
             (y - K - inject_Z (ry * ((s + 2 * l) * 2)))%Q))%Q).
    { intros j Hj. subst K.
      destruct j as [| [| [| [| j]]]]; [.. | lia];
        cbn [nth List.map offsetsStaggerY]; unfold padd at 2; cbn [fst snd];
        rewrite Hpos; unfold padd, lengthSquared; cbn [fst snd];
        rewrite ?Z.even_add, ?Z.even_mul; cbn [Z.even orb andb]; rewrite ?orb_true_r;
        destruct (Map.isStaggerEven m); cbn [Z.even Bool.eqb negb];
        qnorm; ring. }
    intros j Hj. rewrite (Hc n Hn), (Hc j Hj). exact (Hmin j Hj).
Qed.

(** X7: on a whole pixel, for tiles of at most 1024 by 1024 pixels,
    [screenToTileCoords], with the rounding of its arithmetic, returns, among
    the four candidate tiles around the reference tile, the first one whose
    centre, as [tileToScreenCoords] places it, is nearest to the pixel: no
    candidate is nearer and the ones before it in the list are farther. *)
Theorem screenToTileCoords_nearest_candidate
    (m : Map.t) (ws : Workspace.t) (pixel : QPoint) :
  validGeometry m ws -> smallTiles ws -> isInt (fst pixel) -> isInt (snd pixel) ->
  let x := inject_Z (fst pixel) in
  let y := inject_Z (snd pixel) in
  let cands := candidateTiles m ws x y in
  exists i, (i < 4)%nat
    /\ screenToTileCoordsF m ws x y = nth i cands (0, 0)
    /\ forall j, (j < 4)%nat ->
         dist2 (centreOf m ws (nth i cands (0, 0))) pixel
         <= dist2 (centreOf m ws (nth j cands (0, 0))) pixel
         /\ ((j < i)%nat ->
             dist2 (centreOf m ws (nth i cands (0, 0))) pixel
             < dist2 (centreOf m ws (nth j cands (0, 0))) pixel).
Proof.
  intros Hv Hsm Hpx Hpy. cbv zeta.
  rewrite (screenToTileCoordsF_on_pixels m ws pixel (validGeometry_hex m ws Hv) Hsm Hpx Hpy).
  destruct (exact_nearest_candidate m ws
              (inject_Z (fst pixel)) (inject_Z (snd pixel)) Hv) as (i & Hi & Heq & Hmin).
  exists i. split; [exact Hi |]. split; [exact Heq |].
  intros j Hj. specialize (Hmin j Hj).
  change (inject_Z (fst pixel), inject_Z (snd pixel)) with (toPointF pixel) in Hmin.
  rewrite !lengthSquared_pixel in Hmin. rewrite <- Zle_Qle, <- Zlt_Qlt in Hmin.
  exact Hmin.
Qed.

Lemma screenToTileCoords_nearest_candidate_witness :
  let m := scenarioMap in
  let ws := scenarioWorkspace in
  let pixel : QPoint := (25, 41) in
  let x := inject_Z (fst pixel) in
  let y := inject_Z (snd pixel) in
  let cands := candidateTiles m ws x y in
  exists i, (i < 4)%nat
    /\ screenToTileCoordsF m ws x y = nth i cands (0, 0)
    /\ forall j, (j < 4)%nat ->
         dist2 (centreOf m ws (nth i cands (0, 0))) pixel
         <= dist2 (centreOf m ws (nth j cands (0, 0))) pixel
         /\ ((j < i)%nat ->
             dist2 (centreOf m ws (nth i cands (0, 0))) pixel
             < dist2 (centreOf m ws (nth j cands (0, 0))) pixel).
Proof.
  apply (screenToTileCoords_nearest_candidate scenarioMap scenarioWorkspace (25, 41)).
  - unfold validGeometry. cbn. repeat split; try reflexivity; lia.
  - unfold smallTiles. cbn. lia.
  - unfold isInt. cbn. lia.
  - unfold isInt. cbn. lia.
Defined.

(** ** The polygon of a tile and the selection *)

Lemma default_params (m : Map.t) :
  exists s : Z,
    RenderParams.new m Workspace.default
    = if Map.isStaggerX m
      then RenderParams.make 0 0 s 0 ((0 - s) ÷ 2) 0 0 ((0 - s) ÷ 2 + s)
                             true (Map.isStaggerEven m)
      else RenderParams.make 0 0 0 s 0 ((0 - s) ÷ 2) ((0 - s) ÷ 2 + s) 0
                             false (Map.isStaggerEven m).
Proof.
  unfold RenderParams.new, Workspace.default. cbn [Workspace.tileWidth Workspace.tileHeight].
  change (Z.land 0 (Z.lnot 1)) with 0.
  destruct (Map.isHexagonal m), (Map.isStaggerX m); cbn [andb negb];
    [exists (Map.hexSideLength m) | exists (Map.hexSideLength m) | exists 0 | exists 0];
    reflexivity.
Qed.

(** X8: the polygon of a tile has eight corners, all on one line: under
    stagger-X they have the y of the position of the tile, under stagger-Y
    its x. *)
Theorem tileToScreenPolygon_has_no_area (m : Map.t) (x y : Z) :
  let pos := tileToScreenCoordsP m Workspace.default (x, y) in
  length (tileToScreenPolygon m x y) = 8%nat
  /\ Forall (fun corner => if Map.isStaggerX m then snd corner = snd pos
                           else fst corner = fst pos)
            (tileToScreenPolygon m x y).
Proof.
  cbv zeta. unfold tileToScreenPolygon. cbv zeta. split; [reflexivity |].
  generalize (tileToScreenCoordsP m Workspace.default (x, y)). intros pos.
  destruct (default_params m) as (s & ->).
  destruct (Map.isStaggerX m); unfold oct;
    cbn [tileWidth tileHeight sideOffsetX sideOffsetY List.map]; unfold padd;
    repeat (apply Forall_cons; [cbn [fst snd]; lia |]); apply Forall_nil.
Qed.

Lemma fold_min_same (a : Z) (l : list Z) : Forall (eq a) l -> fold_left Z.min l a = a.
Proof. induction 1 as [| b l <- _ IH]; cbn; [reflexivity |]. now rewrite Z.min_id. Qed.

Lemma fold_max_same (a : Z) (l : list Z) : Forall (eq a) l -> fold_left Z.max l a = a.
Proof. induction 1 as [| b l <- _ IH]; cbn; [reflexivity |]. now rewrite Z.max_id. Qed.

Lemma spansMeet_empty (p : Q) (b : Q * Q) :
  QRectF.spansMeet (QRectF.span p (inject_Z 0)) b = false.
Proof.
  unfold QRectF.span. change (QRectF.Qltb (inject_Z 0) 0) with false. cbv iota.
  unfold QRectF.spansMeet. cbn [fst snd].
  assert (E : Qeq_bool p (p + inject_Z 0) = true).
  { apply Qeq_bool_iff. change (inject_Z 0) with 0%Q. ring. }
  now rewrite E.
Qed.

Lemma polygon_never_intersects (m : Map.t) (x y : Z) (exposed : QRectF.t) :
  QRectF.intersects (polygonBoundingRect (tileToScreenPolygon m x y)) exposed = false.
Proof.
  pose proof (tileToScreenPolygon_has_no_area m x y) as [_ Hline]. cbv zeta in Hline.
  unfold tileToScreenPolygon in *. cbv zeta in *.
  revert Hline.
  generalize (tileToScreenCoordsP m Workspace.default (x, y)). intros pos.
  generalize (oct (RenderParams.new m Workspace.default)). intros o.
  destruct o as [| c o]; [intros _; reflexivity |].
  cbn [List.map]. intros H. inversion H as [| ? ? Hc Ho]; subst.
  unfold polygonBoundingRect, QRectF.intersects, QRectF.ofPoints.
  cbn [QRectF.xp QRectF.yp QRectF.w QRectF.h].
  destruct (Map.isStaggerX m).
  - apply andb_false_intro2.
    rewrite fold_min_same, fold_max_same.
    + rewrite Z.sub_diag. apply spansMeet_empty.
    + rewrite Hc. apply Forall_map. eapply Forall_impl; [| exact Ho]. intros; now symmetry.
    + rewrite Hc. apply Forall_map. eapply Forall_impl; [| exact Ho]. intros; now symmetry.
  - apply andb_false_intro1.
    rewrite fold_min_same, fold_max_same.
    + rewrite Z.sub_diag. apply spansMeet_empty.
    + rewrite Hc. apply Forall_map. eapply Forall_impl; [| exact Ho]. intros; now symmetry.
    + rewrite Hc. apply Forall_map. eapply Forall_impl; [| exact Ho]. intros; now symmetry.
Qed.

(** X9: [drawTileSelection] fills no polygon, whatever the map, the region
    and the exposed rectangle: the bounding rectangle of a polygon of no area
    intersects nothing. *)
Theorem drawTileSelection_draws_nothing
    (m : Map.t) (region : list QRect.t) (ws : Workspace.t) (exposed : QRectF.t) :
  drawTileSelection m region ws exposed = [].
Proof.
  unfold drawTileSelection.
  assert (H : forall (A : Type) (l : list A) (B : Type) (f : A -> list B),
             (forall a, f a = []) -> flat_map f l = []).
  { intros A l B f Hf. induction l as [| a l IH]; cbn; [reflexivity |]. now rewrite Hf, IH. }
  apply H. intros r. apply H. intros y'. apply H. intros x'.
  cbv zeta. now rewrite polygon_never_intersects.
Qed.

(** ** What the bounding rectangle and the work size contain *)

Lemma staggerShift_01 (e : bool) (i : Z) : staggerShift e i = 0 \/ staggerShift e i = 1.
Proof. unfold staggerShift. destruct (if e then _ else _); auto. Qed.

Lemma corner_ranges (k : nat) :
  (cornerA k = 0 \/ cornerA k = 1) /\ (cornerB k = 0 \/ cornerB k = 1)
  /\ 0 <= cornerC k <= 2
  /\ (cornerAY k = 0 \/ cornerAY k = 1) /\ (cornerBY k = 0 \/ cornerBY k = 1)
  /\ 0 <= cornerCY k <= 2.
Proof.
  destruct k as [| [| [| [| [| [| [| [| j]]]]]]]]; cbn; repeat split; auto; lia.
Qed.

Lemma tiles_within_boundingRect
    (m : Map.t) (ws : Workspace.t) (r : QRect.t) (t : QPoint) (k : nat) :
  validGeometry m ws ->
  QRect.left r <= fst t <= QRect.right r ->
  QRect.top r <= snd t <= QRect.bottom r ->
  let b := boundingRect m ws r in
  let corner := padd (tileToScreenCoordsP m ws t) (octAt (RenderParams.new m ws) k) in
  QRect.x b <= fst corner <= QRect.x b + QRect.width b
  /\ QRect.y b <= snd corner <= QRect.y b + QRect.height b.
Proof.
  intros Hv Hx Hy. cbv zeta.
  destruct r as [x1 y1 x2 y2]. destruct t as [tx ty].
  unfold QRect.left, QRect.right, QRect.top, QRect.bottom in *.
  cbn [QRect.x1 QRect.y1 QRect.x2 QRect.y2 fst snd] in *.
  unfold boundingRect. cbv zeta.
  unfold QRect.topLeft, QRect.width, QRect.height, QRect.x, QRect.y.
  cbn [QRect.x1 QRect.y1 QRect.x2 QRect.y2].
  rewrite (tileToScreenCoordsP_eq m ws x1 y1). cbv zeta.
  unfold doStaggerX, doStaggerY.
  pose proof (staggerShift_doStagger (RenderParams.new m ws)) as Hshift.
  destruct (corner_ranges (k mod 8)) as (A & B & C & AY & BY & CY).
  destruct (Map.isStaggerX m) eqn:HX.
  - destruct (new_shapeX m ws Hv HX) as (s & l & h & Hs & Hl & Hsl & Hh & Hnew).
    rewrite (corner_vertexX m ws s l h (tx, ty) k Hnew).
    rewrite Hnew in *. clear Hnew.
    cbn [tileWidth tileHeight sideLengthX sideLengthY sideOffsetX sideOffsetY
         rowHeight columnWidth staggerX staggerEven fst snd] in *.
    unfold vertexX. cbn [fst snd].
    pose proof (Hshift x1) as S1.
    destruct (staggerShift_01 (Map.isStaggerEven m) tx) as [St | St]; rewrite St.
    all: destruct (1 <? x2 - x1 + 1) eqn:W1;
      [apply Z.ltb_lt in W1 | apply Z.ltb_ge in W1; assert (tx = x1) by lia; subst tx].
    all: destruct (isStaggeredIndex _ x1); unfold QRect.make;
      cbn [QRect.x1 QRect.y1 QRect.x2 QRect.y2 fst snd]; try rewrite S1 in St.
    all: try discriminate St.
    all: split; nia.
  - destruct (new_shapeY m ws Hv HX) as (s & l & w & Hs & Hl & Hsl & Hw & Hnew).
    rewrite (corner_vertexY m ws s l w (tx, ty) k Hnew).
    rewrite Hnew in *. clear Hnew.
    cbn [tileWidth tileHeight sideLengthX sideLengthY sideOffsetX sideOffsetY
         rowHeight columnWidth staggerX staggerEven fst snd] in *.
    unfold vertexY. cbn [fst snd].
    pose proof (Hshift y1) as S1.
    destruct (staggerShift_01 (Map.isStaggerEven m) ty) as [St | St]; rewrite St.
    all: destruct (1 <? y2 - y1 + 1) eqn:W1;
      [apply Z.ltb_lt in W1 | apply Z.ltb_ge in W1; assert (ty = y1) by lia; subst ty].
    all: destruct (isStaggeredIndex _ y1); unfold QRect.make;
      cbn [QRect.x1 QRect.y1 QRect.x2 QRect.y2 fst snd]; try rewrite S1 in St.
    all: try discriminate St.
    all: split; nia.
Qed.

(** X10: under a validated geometry every corner of the outline of every
    tile of a range of tiles lies within the bounding rectangle of the
    range. *)
Theorem boundingRect_contains_tiles
    (m : Map.t) (ws : Workspace.t) (r : QRect.t) (t : QPoint) (k : nat) :
  validGeometry m ws ->
  QRect.left r <= fst t <= QRect.right r ->
  QRect.top r <= snd t <= QRect.bottom r ->
  let b := boundingRect m ws r in
  let corner := padd (tileToScreenCoordsP m ws t) (octAt (RenderParams.new m ws) k) in
  QRect.x b <= fst corner <= QRect.x b + QRect.width b
  /\ QRect.y b <= snd corner <= QRect.y b + QRect.height b.
Proof. exact (tiles_within_boundingRect m ws r t k). Qed.

Lemma boundingRect_contains_tiles_witness :
  let b := boundingRect scenarioMap scenarioWorkspace (QRect.make 0 0 3 3) in
  let corner := padd (tileToScreenCoordsP scenarioMap scenarioWorkspace (2, 1))
                     (octAt (RenderParams.new scenarioMap scenarioWorkspace) 5) in
  QRect.x b <= fst corner <= QRect.x b + QRect.width b
  /\ QRect.y b <= snd corner <= QRect.y b + QRect.height b.
Proof.
  apply (boundingRect_contains_tiles scenarioMap scenarioWorkspace (QRect.make 0 0 3 3) (2, 1) 5).
  - unfold validGeometry. cbn. repeat split; try reflexivity; lia.
  - cbn. lia.
  - cbn. lia.
Defined.

(** X11: under a validated geometry every corner of the outline of every
    tile of the grid lies within the work size, when the grid has more than
    one column under stagger-X (row under stagger-Y) or the stagger index is
    odd. *)
Theorem workSize_contains_tiles (m : Map.t) (ws : Workspace.t) (t : QPoint) (k : nat) :
  validGeometry m ws ->
  inGrid (Workspace.width ws) (Workspace.height ws) t ->
  1 < (if Map.isStaggerX m then Workspace.width ws else Workspace.height ws)
  \/ Map.isStaggerEven m = false ->
  let corner := padd (tileToScreenCoordsP m ws t) (octAt (RenderParams.new m ws) k) in
  0 <= fst corner <= fst (workSize m ws) /\ 0 <= snd corner <= snd (workSize m ws).
Proof.
  intros Hv [Hx Hy] Hmany. cbv zeta. destruct t as [tx ty]. cbn [fst snd] in *.
  unfold workSize. cbv zeta.
  destruct (corner_ranges (k mod 8)) as (A & B & C & AY & BY & CY).
  destruct (Map.isStaggerX m) eqn:HX.
  - destruct (new_shapeX m ws Hv HX) as (s & l & h & Hs & Hl & Hsl & Hh & Hnew).
    rewrite (corner_vertexX m ws s l h (tx, ty) k Hnew).
    rewrite Hnew in *. clear Hnew.
    cbn [tileWidth tileHeight sideLengthX sideLengthY sideOffsetX sideOffsetY
         rowHeight columnWidth staggerX staggerEven fst snd] in *.
    unfold vertexX. cbn [fst snd].
    destruct (staggerShift_01 (Map.isStaggerEven m) tx) as [St | St]; rewrite St.
    all: destruct (1 <? Workspace.width ws) eqn:W1;
      [apply Z.ltb_lt in W1 | apply Z.ltb_ge in W1; assert (tx = 0) by lia; subst tx].
    all: cbn [fst snd].
    all: try (split; nia).
    destruct Hmany as [Hmany | Hodd]; [lia |].
    rewrite Hodd in St. discriminate St.
  - destruct (new_shapeY m ws Hv HX) as (s & l & w & Hs & Hl & Hsl & Hw & Hnew).
    rewrite (corner_vertexY m ws s l w (tx, ty) k Hnew).
    rewrite Hnew in *. clear Hnew.
    cbn [tileWidth tileHeight sideLengthX sideLengthY sideOffsetX sideOffsetY
         rowHeight columnWidth staggerX staggerEven fst snd] in *.
    unfold vertexY. cbn [fst snd].
    destruct (staggerShift_01 (Map.isStaggerEven m) ty) as [St | St]; rewrite St.
    all: destruct (1 <? Workspace.height ws) eqn:W1;
      [apply Z.ltb_lt in W1 | apply Z.ltb_ge in W1; assert (ty = 0) by lia; subst ty].
    all: cbn [fst snd].
    all: try (split; nia).
    destruct Hmany as [Hmany | Hodd]; [lia |].
    rewrite Hodd in St. discriminate St.
Qed.

Lemma workSize_contains_tiles_witness :
  let corner := padd (tileToScreenCoordsP scenarioMap scenarioWorkspace (2, 2))
                     (octAt (RenderParams.new scenarioMap scenarioWorkspace) 6) in
  0 <= fst corner <= fst (workSize scenarioMap scenarioWorkspace)
  /\ 0 <= snd corner <= snd (workSize scenarioMap scenarioWorkspace).
Proof.
  apply (workSize_contains_tiles scenarioMap scenarioWorkspace (2, 2) 6).
  - unfold validGeometry. cbn. repeat split; try reflexivity; lia.
  - unfold inGrid. cbn. lia.
  - left. cbn. lia.
Defined.

(** X12: in a grid of one column under stagger-X (one row under stagger-Y)
    and an even stagger index, the last tile ends one row height below the
    work size (one column width right of it). *)
Theorem workSize_cuts_single_staggered_line (m : Map.t) (ws : Workspace.t) :
  validGeometry m ws ->
  Map.isStaggerEven m = true ->
  1 <= Workspace.width ws -> 1 <= Workspace.height ws ->
  (if Map.isStaggerX m then Workspace.width ws else Workspace.height ws) = 1 ->
  let p := RenderParams.new m ws in
  let last := (Workspace.width ws - 1, Workspace.height ws - 1) in
  let pos := tileToScreenCoordsP m ws last in
  if Map.isStaggerX m
  then snd pos + tileHeight p = snd (workSize m ws) + rowHeight p /\ 0 < rowHeight p
  else fst pos + tileWidth p = fst (workSize m ws) + columnWidth p /\ 0 < columnWidth p.
Proof.
  intros Hv He HW HH H1. cbv zeta.
  rewrite tileToScreenCoordsP_eq. cbv zeta. unfold workSize. cbv zeta.
  unfold doStaggerX, doStaggerY, isStaggeredIndex.
  destruct (Map.isStaggerX m) eqn:HX.
  - destruct (new_shapeX m ws Hv HX) as (s & l & h & Hs & Hl & Hsl & Hh & ->).
    cbn [tileWidth tileHeight sideLengthX sideLengthY sideOffsetX sideOffsetY
         rowHeight columnWidth staggerX staggerEven fst snd].
    rewrite He, H1. cbn [Z.sub Z.add Z.opp Z.pos_sub Z.rem Z.quotrem Z.eqb Z.ltb Z.compare Pos.compare
                         Pos.compare_cont fst snd].
    split; lia.
  - destruct (new_shapeY m ws Hv HX) as (s & l & w & Hs & Hl & Hsl & Hw & ->).
    cbn [tileWidth tileHeight sideLengthX sideLengthY sideOffsetX sideOffsetY
         rowHeight columnWidth staggerX staggerEven fst snd].
    rewrite He, H1. cbn [Z.sub Z.add Z.opp Z.pos_sub Z.rem Z.quotrem Z.eqb Z.ltb Z.compare Pos.compare
                         Pos.compare_cont fst snd].
    split; lia.
Qed.

Lemma workSize_cuts_single_staggered_line_witness :
  let m := scenarioMap in
  let ws := Workspace.make 1 3 32 32 in
  snd (tileToScreenCoordsP m ws (1 - 1, 3 - 1)) + tileHeight (RenderParams.new m ws)
  = snd (workSize m ws) + rowHeight (RenderParams.new m ws)
  /\ 0 < rowHeight (RenderParams.new m ws).
Proof.
  apply (workSize_cuts_single_staggered_line scenarioMap (Workspace.make 1 3 32 32)).
  - unfold validGeometry. cbn. repeat split; try reflexivity; lia.
  - reflexivity.
  - cbn. lia.
  - cbn. lia.
  - reflexivity.
Defined.

(** ** The grid under any exposed rectangle *)

Lemma gridColumnX_sound (p : RenderParams.t) (ws : Workspace.t) (rect : QRect.t) (l : QLine) :
  forall (fuel : nat) (x y px py : Z),
    In l (gridColumnX fuel p ws rect (x, y) (px, py)) ->
    exists j, 0 <= j /\ y + j < Workspace.height ws
              /\ py + j * (tileHeight p + sideLengthY p) <= QRect.bottom rect
              /\ In l (gridLinesX p ws (x, y + j)
                         (px, py + j * (tileHeight p + sideLengthY p))).
Proof.
  induction fuel as [| fuel IH]; intros x y px py Hin; [contradiction |].
  cbn [gridColumnX fst snd] in Hin.
  destruct (_ && _) eqn:G; [| contradiction].
  apply andb_true_iff in G. destruct G as [G' G]. apply Z.ltb_lt in G. apply Z.leb_le in G'.
  apply in_app_or in Hin. destruct Hin as [Hin | Hin].
  - exists 0. rewrite Z.add_0_r, Z.mul_0_l, Z.add_0_r. repeat split; [lia | lia | lia | exact Hin].
  - apply IH in Hin. destruct Hin as (j & Hj & Hy & Hb & Hin).
    exists (j + 1).
    replace (y + (j + 1)) with (y + 1 + j) by lia.
    replace (py + (j + 1) * (tileHeight p + sideLengthY p))
      with (py + (tileHeight p + sideLengthY p) + j * (tileHeight p + sideLengthY p)) by lia.
    repeat split; [lia | lia | lia | exact Hin].
Qed.

Lemma gridSweepX_sound (p : RenderParams.t) (ws : Workspace.t) (rect : QRect.t) (l : QLine) :
  forall (fuel : nat) (x y px py : Z),
    In l (gridSweepX fuel p ws rect (x, y) (px, py)) ->
    exists i j, 0 <= i /\ x + i < Workspace.width ws
                /\ 0 <= j /\ y + j < Workspace.height ws
                /\ px + i * columnWidth p <= QRect.right rect
                /\ py + (if doStaggerX p (x + i) then rowHeight p else 0)
                   + j * (tileHeight p + sideLengthY p) <= QRect.bottom rect
                /\ In l (gridLinesX p ws (x + i, y + j)
                           (px + i * columnWidth p,
                            py + (if doStaggerX p (x + i) then rowHeight p else 0)
                            + j * (tileHeight p + sideLengthY p))).
Proof.
  induction fuel as [| fuel IH]; intros x y px py Hin; [contradiction |].
  cbn [gridSweepX fst snd] in Hin.
  destruct (_ && _) eqn:G; [| contradiction].
  apply andb_true_iff in G. destruct G as [G' G]. apply Z.ltb_lt in G. apply Z.leb_le in G'.
  apply in_app_or in Hin. destruct Hin as [Hin | Hin].
  - assert (Hpos : (if doStaggerX p x then (px, py + rowHeight p) else (px, py))
                   = (px, py + (if doStaggerX p x then rowHeight p else 0)))
      by (destruct (doStaggerX p x); [reflexivity | now rewrite Z.add_0_r]).
    rewrite Hpos in Hin.
    apply gridColumnX_sound in Hin. destruct Hin as (j & Hj & Hy & Hb & Hin).
    exists 0, j. rewrite Z.add_0_r, Z.mul_0_l, Z.add_0_r.
    repeat split; [lia | lia | lia | lia | lia | lia | exact Hin].
  - apply IH in Hin. destruct Hin as (i & j & Hi & Hx & Hj & Hy & Hr & Hb & Hin).
    exists (i + 1), j.
    replace (x + (i + 1)) with (x + 1 + i) by lia.
    replace (px + (i + 1) * columnWidth p) with (px + columnWidth p + i * columnWidth p) by lia.
    repeat split; [lia | lia | lia | lia | lia | lia | exact Hin].
Qed.

Lemma gridRowY_sound (p : RenderParams.t) (ws : Workspace.t) (rect : QRect.t) (l : QLine) :
  forall (fuel : nat) (x y px py : Z),
    In l (gridRowY fuel p ws rect (x, y) (px, py)) ->
    exists i, 0 <= i /\ x + i < Workspace.width ws
              /\ px + i * (tileWidth p + sideLengthX p) <= QRect.right rect
              /\ In l (gridLinesY p ws (x + i, y)
                         (px + i * (tileWidth p + sideLengthX p), py)).
Proof.
  induction fuel as [| fuel IH]; intros x y px py Hin; [contradiction |].
  cbn [gridRowY fst snd] in Hin.
  destruct (_ && _) eqn:G; [| contradiction].
  apply andb_true_iff in G. destruct G as [G' G]. apply Z.ltb_lt in G. apply Z.leb_le in G'.
  apply in_app_or in Hin. destruct Hin as [Hin | Hin].
  - exists 0. rewrite Z.add_0_r, Z.mul_0_l, Z.add_0_r. repeat split; [lia | lia | lia | exact Hin].
  - apply IH in Hin. destruct Hin as (i & Hi & Hx & Hr & Hin).
    exists (i + 1).
    replace (x + (i + 1)) with (x + 1 + i) by lia.
    replace (px + (i + 1) * (tileWidth p + sideLengthX p))
      with (px + (tileWidth p + sideLengthX p) + i * (tileWidth p + sideLengthX p)) by lia.
    repeat split; [lia | lia | lia | exact Hin].
Qed.

Lemma gridSweepY_sound (p : RenderParams.t) (ws : Workspace.t) (rect : QRect.t) (l : QLine) :
  forall (fuel : nat) (x y px py : Z),
    In l (gridSweepY fuel p ws rect (x, y) (px, py)) ->
    exists i j, 0 <= i /\ x + i < Workspace.width ws
                /\ 0 <= j /\ y + j < Workspace.height ws
                /\ px + (if doStaggerY p (y + j) then columnWidth p else 0)
                   + i * (tileWidth p + sideLengthX p) <= QRect.right rect
                /\ py + j * rowHeight p <= QRect.bottom rect
                /\ In l (gridLinesY p ws (x + i, y + j)
                           (px + (if doStaggerY p (y + j) then columnWidth p else 0)
                            + i * (tileWidth p + sideLengthX p),
                            py + j * rowHeight p)).
Proof.
  induction fuel as [| fuel IH]; intros x y px py Hin; [contradiction |].
  cbn [gridSweepY fst snd] in Hin.
  destruct (_ && _) eqn:G; [| contradiction].
  apply andb_true_iff in G. destruct G as [G' G]. apply Z.ltb_lt in G. apply Z.leb_le in G'.
  apply in_app_or in Hin. destruct Hin as [Hin | Hin].
  - assert (Hpos : (if doStaggerY p y then (px + columnWidth p, py) else (px, py))
                   = (px + (if doStaggerY p y then columnWidth p else 0), py))
      by (destruct (doStaggerY p y); [reflexivity | now rewrite Z.add_0_r]).
    rewrite Hpos in Hin.
    apply gridRowY_sound in Hin. destruct Hin as (i & Hi & Hx & Hr & Hin).
    exists i, 0. rewrite Z.add_0_r, Z.mul_0_l, Z.add_0_r.
    repeat split; [lia | lia | lia | lia | lia | lia | exact Hin].
  - apply IH in Hin. destruct Hin as (i & j & Hi & Hx & Hj & Hy & Hr & Hb & Hin).
    exists i, (j + 1).
    replace (y + (j + 1)) with (y + 1 + j) by lia.
    replace (py + (j + 1) * rowHeight p) with (py + rowHeight p + j * rowHeight p) by lia.
    repeat split; [lia | lia | lia | lia | lia | lia | exact Hin].
Qed.

Lemma in_gridLines_edge (m : Map.t) (ws : Workspace.t) (t : QPoint) (l : QLine) :
  let p := RenderParams.new m ws in
  In l (gridLinesX p ws t (tileToScreenCoordsP m ws t))
  \/ In l (gridLinesY p ws t (tileToScreenCoordsP m ws t)) ->
  exists k, (k < 8)%nat /\ l = tileEdge m ws t k.
Proof.
  cbv zeta. rewrite gridLinesX_kinds, gridLinesY_kinds.
  intros [Hin | Hin]; apply in_map_iff in Hin; destruct Hin as (k & <- & Hk);
    apply filter_In in Hk; destruct Hk as [Hk _]; exists k; (split; [| reflexivity]);
    unfold kindsX, kindsY in Hk; cbn [In] in Hk; lia.
Qed.

(** X13: whatever the exposed rectangle, every line that [drawGrid] draws is
    an edge of the outline of a tile of the grid, and that tile does not
    start right of or below the aligned exposed rectangle. *)
Theorem drawGrid_draws_only_tile_edges (m : Map.t) (exposed : QRectF.t) (ws : Workspace.t) :
  Forall (fun l => exists t k,
              inGrid (Workspace.width ws) (Workspace.height ws) t
              /\ (k < 8)%nat /\ l = tileEdge m ws t k
              /\ fst (tileToScreenCoordsP m ws t) <= QRect.right (QRectF.toAlignedRect exposed)
              /\ snd (tileToScreenCoordsP m ws t) <= QRect.bottom (QRectF.toAlignedRect exposed))
         (drawGrid m exposed ws).
Proof.
  apply Forall_forall. intros l Hin. unfold drawGrid in Hin.
  destruct (QRect.isNull _); [contradiction |]. cbv zeta in Hin.
  set (p := RenderParams.new m ws) in *.
  match type of Hin with context [startTileOf p ?r ?a ?b] =>
    set (st := startTileOf p r a b) in *; clearbody st; set (rect := r) in * end.
  set (X := Z.max 0 (fst st)) in *. set (Y := Z.max 0 (snd st)) in *.
  cbn [fst snd] in Hin.
  rewrite (tileToScreenCoordsP_eq m ws X Y) in Hin. cbv zeta in Hin. fold p in Hin.
  destruct (staggerX p) eqn:HX.
  - cbn [fst snd] in Hin.
    assert (Hpos : (if doStaggerX p X
                    then (X * columnWidth p,
                          Y * (tileHeight p + sideLengthY p)
                          + (if doStaggerX p X then rowHeight p else 0) - rowHeight p)
                    else (X * columnWidth p,
                          Y * (tileHeight p + sideLengthY p)
                          + (if doStaggerX p X then rowHeight p else 0)))
                   = (X * columnWidth p, Y * (tileHeight p + sideLengthY p)))
      by (destruct (doStaggerX p X); apply (f_equal2 (@pair Z Z)); lia).
    rewrite Hpos in Hin.
    apply gridSweepX_sound in Hin.
    destruct Hin as (i & j & Hi & Hx & Hj & Hy & Hr & Hb & Hin).
    assert (Htile : tileToScreenCoordsP m ws (X + i, Y + j)
                    = (X * columnWidth p + i * columnWidth p,
                       Y * (tileHeight p + sideLengthY p)
                       + (if doStaggerX p (X + i) then rowHeight p else 0)
                       + j * (tileHeight p + sideLengthY p))).
    { rewrite tileToScreenCoordsP_eq. cbv zeta. fold p. rewrite HX.
      apply (f_equal2 (@pair Z Z)); lia. }
    destruct (in_gridLines_edge m ws (X + i, Y + j) l) as (k & Hk & ->).
    { left. rewrite Htile. exact Hin. }
    exists (X + i, Y + j), k. rewrite Htile. unfold inGrid. cbn [fst snd].
    repeat split; lia.
  - cbn [fst snd] in Hin.
    assert (Hpos : (if doStaggerY p Y
                    then (X * (tileWidth p + sideLengthX p)
                          + (if doStaggerY p Y then columnWidth p else 0) - columnWidth p,
                          Y * rowHeight p)
                    else (X * (tileWidth p + sideLengthX p)
                          + (if doStaggerY p Y then columnWidth p else 0),
                          Y * rowHeight p))
                   = (X * (tileWidth p + sideLengthX p), Y * rowHeight p))
      by (destruct (doStaggerY p Y); apply (f_equal2 (@pair Z Z)); lia).
    rewrite Hpos in Hin.
    apply gridSweepY_sound in Hin.
    destruct Hin as (i & j & Hi & Hx & Hj & Hy & Hr & Hb & Hin).
    assert (Htile : tileToScreenCoordsP m ws (X + i, Y + j)
                    = (X * (tileWidth p + sideLengthX p)
                       + (if doStaggerY p (Y + j) then columnWidth p else 0)
                       + i * (tileWidth p + sideLengthX p),
                       Y * rowHeight p + j * rowHeight p)).
    { rewrite tileToScreenCoordsP_eq. cbv zeta. fold p. rewrite HX.
      apply (f_equal2 (@pair Z Z)); lia. }
    destruct (in_gridLines_edge m ws (X + i, Y + j) l) as (k & Hk & ->).
    { right. rewrite Htile. exact Hin. }
    exists (X + i, Y + j), k. rewrite Htile. unfold inGrid. cbn [fst snd].
    repeat split; lia.
Qed.

Lemma gridColumnX_tiles (p : RenderParams.t) (ws : Workspace.t) (rect : QRect.t) :
  forall (fuel : nat) (x y px py : Z),
    exists ys : list Z,
      NoDup ys /\ Forall (fun y' => y <= y' < Workspace.height ws) ys
      /\ gridColumnX fuel p ws rect (x, y) (px, py)
         = flat_map (fun y' => gridLinesX p ws (x, y')
                                 (px, py + (y' - y) * (tileHeight p + sideLengthY p))) ys.
Proof.
  induction fuel as [| fuel IH]; intros x y px py.
  - exists []. repeat split; constructor.
  - cbn [gridColumnX fst snd].
    destruct (_ && _) eqn:G; [| exists []; repeat split; constructor].
    apply andb_true_iff in G. destruct G as [_ G]. apply Z.ltb_lt in G.
    destruct (IH x (y + 1) px (py + (tileHeight p + sideLengthY p))) as (ys & Hnd & Hall & ->).
    exists (y :: ys). split; [| split].
    + constructor; [| exact Hnd]. intros Hin.
      rewrite Forall_forall in Hall. specialize (Hall y Hin). lia.
    + constructor; [lia |]. eapply Forall_impl; [| exact Hall]. cbn beta. intros; lia.
    + cbn [flat_map]. rewrite Z.sub_diag, Z.mul_0_l, Z.add_0_r. f_equal.
      apply flat_map_ext_in. intros y' _. do 2 f_equal. lia.
Qed.

Lemma gridSweepX_tiles (p : RenderParams.t) (ws : Workspace.t) (rect : QRect.t) :
  forall (fuel : nat) (x y px py : Z),
    exists ts : list QPoint,
      NoDup ts
      /\ Forall (fun t => x <= fst t < Workspace.width ws
                          /\ y <= snd t < Workspace.height ws) ts
      /\ gridSweepX fuel p ws rect (x, y) (px, py)
         = flat_map (fun t => gridLinesX p ws t
                                (px + (fst t - x) * columnWidth p,
                                 py + (if doStaggerX p (fst t) then rowHeight p else 0)
                                 + (snd t - y) * (tileHeight p + sideLengthY p))) ts.
Proof.
  induction fuel as [| fuel IH]; intros x y px py.
  - exists []. repeat split; constructor.
  - cbn [gridSweepX fst snd].
    destruct (_ && _) eqn:G; [| exists []; repeat split; constructor].
    apply andb_true_iff in G. destruct G as [_ G]. apply Z.ltb_lt in G.
    assert (Hpos : (if doStaggerX p x then (px, py + rowHeight p) else (px, py))
                   = (px, py + (if doStaggerX p x then rowHeight p else 0)))
      by (destruct (doStaggerX p x); [reflexivity | now rewrite Z.add_0_r]).
    rewrite Hpos.
    destruct (gridColumnX_tiles p ws rect (Z.to_nat (Workspace.height ws - y)) x y px
                (py + (if doStaggerX p x then rowHeight p else 0))) as (ys & Hnd & Hall & ->).
    destruct (IH (x + 1) y (px + columnWidth p) py) as (ts & Hnd' & Hall' & ->).
    exists (List.map (pair x) ys ++ ts). split; [| split].
    + apply NoDup_app; [| exact Hnd' |].
      * apply NoDup_map_NoDup_ForallPairs; [| exact Hnd].
        intros a b _ _ E. now inversion E.
      * intros t Ht Ht'. apply in_map_iff in Ht. destruct Ht as (y' & <- & _).
        rewrite Forall_forall in Hall'. specialize (Hall' _ Ht'). cbn [fst] in Hall'. lia.
    + apply Forall_app. split.
      * apply Forall_map. eapply Forall_impl; [| exact Hall]. cbn beta. cbn [fst snd]. intros; lia.
      * eapply Forall_impl; [| exact Hall']. cbn beta. intros; lia.
    + rewrite flat_map_app, flat_map_of_map. f_equal.
      * apply flat_map_ext_in. intros y' _. cbn [fst snd].
        rewrite Z.sub_diag, Z.mul_0_l, Z.add_0_r. reflexivity.
      * apply flat_map_ext_in. intros t _. do 2 f_equal. lia.
Qed.

Lemma gridRowY_tiles (p : RenderParams.t) (ws : Workspace.t) (rect : QRect.t) :
  forall (fuel : nat) (x y px py : Z),
    exists xs : list Z,
      NoDup xs /\ Forall (fun x' => x <= x' < Workspace.width ws) xs
      /\ gridRowY fuel p ws rect (x, y) (px, py)
         = flat_map (fun x' => gridLinesY p ws (x', y)
                                 (px + (x' - x) * (tileWidth p + sideLengthX p), py)) xs.
Proof.
  induction fuel as [| fuel IH]; intros x y px py.
  - exists []. repeat split; constructor.
  - cbn [gridRowY fst snd].
    destruct (_ && _) eqn:G; [| exists []; repeat split; constructor].
    apply andb_true_iff in G. destruct G as [_ G]. apply Z.ltb_lt in G.
    destruct (IH (x + 1) y (px + (tileWidth p + sideLengthX p)) py) as (xs & Hnd & Hall & ->).
    exists (x :: xs). split; [| split].
    + constructor; [| exact Hnd]. intros Hin.
      rewrite Forall_forall in Hall. specialize (Hall x Hin). lia.
    + constructor; [lia |]. eapply Forall_impl; [| exact Hall]. cbn beta. intros; lia.
    + cbn [flat_map]. rewrite Z.sub_diag, Z.mul_0_l, Z.add_0_r. f_equal.
      apply flat_map_ext_in. intros x' _. f_equal. apply (f_equal2 (@pair Z Z)); lia.
Qed.

Lemma gridSweepY_tiles (p : RenderParams.t) (ws : Workspace.t) (rect : QRect.t) :
  forall (fuel : nat) (x y px py : Z),
    exists ts : list QPoint,
      NoDup ts
      /\ Forall (fun t => x <= fst t < Workspace.width ws
                          /\ y <= snd t < Workspace.height ws) ts
      /\ gridSweepY fuel p ws rect (x, y) (px, py)
         = flat_map (fun t => gridLinesY p ws t
                                (px + (if doStaggerY p (snd t) then columnWidth p else 0)
                                 + (fst t - x) * (tileWidth p + sideLengthX p),
                                 py + (snd t - y) * rowHeight p)) ts.
Proof.
  induction fuel as [| fuel IH]; intros x y px py.
  - exists []. repeat split; constructor.
  - cbn [gridSweepY fst snd].
    destruct (_ && _) eqn:G; [| exists []; repeat split; constructor].
    apply andb_true_iff in G. destruct G as [_ G]. apply Z.ltb_lt in G.
    assert (Hpos : (if doStaggerY p y then (px + columnWidth p, py) else (px, py))
                   = (px + (if doStaggerY p y then columnWidth p else 0), py))
      by (destruct (doStaggerY p y); [reflexivity | now rewrite Z.add_0_r]).
    rewrite Hpos.
    destruct (gridRowY_tiles p ws rect (Z.to_nat (Workspace.width ws - x)) x y
                (px + (if doStaggerY p y then columnWidth p else 0)) py)
      as (xs & Hnd & Hall & ->).
    destruct (IH x (y + 1) px (py + rowHeight p)) as (ts & Hnd' & Hall' & ->).
    exists (List.map (fun x' => (x', y)) xs ++ ts). split; [| split].
    + apply NoDup_app; [| exact Hnd' |].
      * apply NoDup_map_NoDup_ForallPairs; [| exact Hnd].
        intros a b _ _ E. now inversion E.
      * intros t Ht Ht'. apply in_map_iff in Ht. destruct Ht as (x' & <- & _).
        rewrite Forall_forall in Hall'. specialize (Hall' _ Ht'). cbn [snd] in Hall'. lia.
    + apply Forall_app. split.
      * apply Forall_map. eapply Forall_impl; [| exact Hall]. cbn beta. cbn [fst snd]. intros; lia.
      * eapply Forall_impl; [| exact Hall']. cbn beta. intros; lia.
    + rewrite flat_map_app, flat_map_of_map. f_equal.
      * apply flat_map_ext_in. intros x' _. cbn [fst snd].
        rewrite Z.sub_diag, Z.mul_0_l, Z.add_0_r. reflexivity.
      * apply flat_map_ext_in. intros t _. f_equal. apply (f_equal2 (@pair Z Z)); lia.
Qed.

Lemma drawGrid_tiles (m : Map.t) (exposed : QRectF.t) (ws : Workspace.t) :
  let p := RenderParams.new m ws in
  exists ts : list QPoint,
    NoDup ts
    /\ Forall (inGrid (Workspace.width ws) (Workspace.height ws)) ts
    /\ drawGrid m exposed ws
       = flat_map (fun t => List.map (tileEdge m ws t)
                              (filter ((if staggerX p then emitsX else emitsY) p ws t)
                                      (if staggerX p then kindsX else kindsY))) ts.
Proof.
  cbv zeta. unfold drawGrid.
  destruct (QRect.isNull _); [exists []; repeat split; constructor |]. cbv zeta.
  set (p := RenderParams.new m ws) in *.
  match goal with |- context [startTileOf p ?r ?a ?b] =>
    set (st := startTileOf p r a b) in *; clearbody st; set (rect := r) in * end.
  set (X := Z.max 0 (fst st)) in *. set (Y := Z.max 0 (snd st)) in *.
  cbn [fst snd].
  rewrite (tileToScreenCoordsP_eq m ws X Y). cbv zeta. fold p.
  destruct (staggerX p) eqn:HX.
  - cbn [fst snd].
    assert (Hpos : (if doStaggerX p X
                    then (X * columnWidth p,
                          Y * (tileHeight p + sideLengthY p)
                          + (if doStaggerX p X then rowHeight p else 0) - rowHeight p)
                    else (X * columnWidth p,
                          Y * (tileHeight p + sideLengthY p)
                          + (if doStaggerX p X then rowHeight p else 0)))
                   = (X * columnWidth p, Y * (tileHeight p + sideLengthY p)))
      by (destruct (doStaggerX p X); apply (f_equal2 (@pair Z Z)); lia).
    rewrite Hpos.
    destruct (gridSweepX_tiles p ws rect (Z.to_nat (Workspace.width ws - X)) X Y
                (X * columnWidth p) (Y * (tileHeight p + sideLengthY p)))
      as (ts & Hnd & Hall & ->).
    exists ts. split; [exact Hnd | split].
    + eapply Forall_impl; [| exact Hall]. cbn beta. unfold inGrid. intros; lia.
    + apply flat_map_ext_in. intros [tx ty] _. cbn [fst snd].
      unfold tileEdge. fold p. rewrite <- gridLinesX_kinds. f_equal.
      rewrite tileToScreenCoordsP_eq. cbv zeta. fold p. rewrite HX.
      apply (f_equal2 (@pair Z Z)); lia.
  - cbn [fst snd].
    assert (Hpos : (if doStaggerY p Y
                    then (X * (tileWidth p + sideLengthX p)
                          + (if doStaggerY p Y then columnWidth p else 0) - columnWidth p,
                          Y * rowHeight p)
                    else (X * (tileWidth p + sideLengthX p)
                          + (if doStaggerY p Y then columnWidth p else 0),
                          Y * rowHeight p))
                   = (X * (tileWidth p + sideLengthX p), Y * rowHeight p))
      by (destruct (doStaggerY p Y); apply (f_equal2 (@pair Z Z)); lia).
    rewrite Hpos.
    destruct (gridSweepY_tiles p ws rect (Z.to_nat (Workspace.height ws - Y)) X Y
                (X * (tileWidth p + sideLengthX p)) (Y * rowHeight p))
      as (ts & Hnd & Hall & ->).
    exists ts. split; [exact Hnd | split].
    + eapply Forall_impl; [| exact Hall]. cbn beta. unfold inGrid. intros; lia.
    + apply flat_map_ext_in. intros [tx ty] _. cbn [fst snd].
      unfold tileEdge. fold p. rewrite <- gridLinesY_kinds. f_equal.
      rewrite tileToScreenCoordsP_eq. cbv zeta. fold p. rewrite HX.
      apply (f_equal2 (@pair Z Z)); lia.
Qed.

(** X14: under a validated geometry [drawGrid] draws no segment twice,
    whatever the exposed rectangle. *)
Theorem drawGrid_draws_no_segment_twice (m : Map.t) (exposed : QRectF.t) (ws : Workspace.t) :
  validGeometry m ws ->
  NoDup (List.map normLine (drawGrid m exposed ws)).
Proof.
  intros Hv.
  destruct (drawGrid_tiles m exposed ws) as (ts & Hnd & Hall & ->). cbv zeta.
  rewrite Forall_forall in Hall.
  assert (HX : staggerX (RenderParams.new m ws) = Map.isStaggerX m) by reflexivity.
  rewrite HX. destruct (Map.isStaggerX m) eqn:E.
  - apply drawn_NoDup; [exact Hnd | exact (proj1 kinds_NoDup) |].
    intros t t' k k' Ht Ht'. apply (proj1 (staggerX_edges m ws Hv E)); auto.
  - apply drawn_NoDup; [exact Hnd | exact (proj2 kinds_NoDup) |].
    intros t t' k k' Ht Ht'. apply (proj1 (staggerY_edges m ws Hv E)); auto.
Qed.

Lemma drawGrid_draws_no_segment_twice_witness :
  NoDup (List.map normLine
           (drawGrid scenarioMap (QRectF.make (21 # 2) (33 # 2) 40 30) scenarioWorkspace)).
Proof.
  apply (drawGrid_draws_no_segment_twice scenarioMap (QRectF.make (21 # 2) (33 # 2) 40 30)
           scenarioWorkspace).
  unfold validGeometry. cbn. repeat split; try reflexivity; lia.
Defined.

Lemma nearest4_far (rel c0 c1 c2 c3 : QPoint) (n : nat) :
  n = nearestLoopZ rel [c0; c1; c2; c3] 0 0 None ->
  (n < 4)%nat /\ (n = 3%nat -> dist2 c3 rel < dist2 c0 rel).
Proof.
  intros ->. cbn [nearestLoopZ].
  repeat match goal with |- context [?a <? ?b] => destruct (Z.ltb_spec a b) end;
    split; try lia; intros; try discriminate; lia.
Qed.

Lemma startTile_bound (m : Map.t) (ws : Workspace.t) (rect : QRect.t) :
  validGeometry m ws ->
  let p := RenderParams.new m ws in
  let s0 := screenToTileCoordsP m ws (QRect.topLeft rect) in
  let st := startTileOf p rect s0 (tileToScreenCoordsP m ws s0) in
  if staggerX p
  then fst st * columnWidth p + sideOffsetX p <= QRect.left rect
       /\ snd st * (2 * rowHeight p) + rowHeight p <= QRect.top rect
  else fst st * (2 * columnWidth p) + columnWidth p <= QRect.left rect
       /\ snd st * rowHeight p + sideOffsetY p <= QRect.top rect.
Proof.
  intros Hv. cbv zeta. rewrite screenToTileCoordsP_Z.
  destruct rect as [px py x2 y2].
  unfold QRect.topLeft, QRect.left, QRect.top, startTileOf, QRect.x, QRect.y.
  cbn [QRect.x1 QRect.y1].
  unfold screenToTileCoordsZ, centers.
  destruct (Map.isStaggerX m) eqn:HX.
  - destruct (new_shapeX m ws Hv HX) as (s & l & h & Hs & Hl & Hsl & Hh & Hnew).
    assert (Hpos : forall tx ty,
               tileToScreenCoordsP m ws (tx, ty)
               = (tx * (s + 2 * l),
                  ty * (2 * h) + (if (if Map.isStaggerEven m then Z.even tx else negb (Z.even tx))
                                  then h else 0))).
    { intros tx ty. rewrite tileToScreenCoordsP_eq. cbv zeta.
      unfold doStaggerX, isStaggeredIndex. rewrite Hnew, rem2_even.
      cbn [tileWidth tileHeight sideLengthX sideLengthY sideOffsetX sideOffsetY
           rowHeight columnWidth staggerX staggerEven].
      apply (f_equal2 (@pair Z Z)); lia. }
    rewrite Hnew.
    cbn [tileWidth tileHeight sideLengthX sideLengthY sideOffsetX sideOffsetY
         rowHeight columnWidth staggerX staggerEven fst snd].
    rewrite !quot2_double.
    set (X := px - (if Map.isStaggerEven m then 2 * (s + l) else s)).
    pose proof (Z.div_mod X ((s + 2 * l) * 2) ltac:(lia)) as HX1.
    pose proof (Z.mod_pos_bound X ((s + 2 * l) * 2) ltac:(lia)) as HX2.
    pose proof (Z.div_mod py (h * 2) ltac:(lia)) as HY1.
    pose proof (Z.mod_pos_bound py (h * 2) ltac:(lia)) as HY2.
    replace (X - X / ((s + 2 * l) * 2) * ((s + 2 * l) * 2))
      with (X mod ((s + 2 * l) * 2)) by lia.
    replace (py - py / (h * 2) * (h * 2)) with (py mod (h * 2)) by lia.
    set (refX := X / ((s + 2 * l) * 2)) in *. set (relX := X mod ((s + 2 * l) * 2)) in *.
    set (refY := py / (h * 2)) in *. set (relY := py mod (h * 2)) in *.
    clearbody refX relX refY relY.
    match goal with |- context [nearestLoopZ ?rel [?c0; ?c1; ?c2; ?c3] 0 0 None] =>
      remember (nearestLoopZ rel [c0; c1; c2; c3] 0 0 None) as n eqn:En;
      pose proof (nearest4_far rel c0 c1 c2 c3 n En) as [Hn H3]
    end.
    clear En. unfold dist2 in H3. cbn [fst snd] in H3.
    assert (Hpx : px = X + (if Map.isStaggerEven m then 2 * (s + l) else s)) by (subst X; lia).
    clearbody X.
    destruct n as [| [| [| [| n]]]]; [.. | lia];
      cbn [nth offsetsStaggerX]; unfold padd; cbn [fst snd];
      rewrite Hpos; cbn [fst snd];
      rewrite ?Z.even_add, ?Z.even_mul; cbn [Z.even orb andb]; rewrite ?orb_true_r;
      destruct (Map.isStaggerEven m); cbn [Z.even Bool.eqb negb];
      try specialize (H3 eq_refl);
      repeat match goal with |- context [?a <? ?b] => destruct (Z.ltb_spec a b) end;
      split; nia.
  - destruct (new_shapeY m ws Hv HX) as (s & l & w & Hs & Hl & Hsl & Hw & Hnew).
    assert (Hpos : forall tx ty,
               tileToScreenCoordsP m ws (tx, ty)
               = (tx * (2 * w) + (if (if Map.isStaggerEven m then Z.even ty else negb (Z.even ty))
                                  then w else 0),
                  ty * (s + 2 * l))).
    { intros tx ty. rewrite tileToScreenCoordsP_eq. cbv zeta.
      unfold doStaggerY, isStaggeredIndex. rewrite Hnew, rem2_even.
      cbn [tileWidth tileHeight sideLengthX sideLengthY sideOffsetX sideOffsetY
           rowHeight columnWidth staggerX staggerEven].
      apply (f_equal2 (@pair Z Z)); lia. }
    rewrite Hnew.
    cbn [tileWidth tileHeight sideLengthX sideLengthY sideOffsetX sideOffsetY
         rowHeight columnWidth staggerX staggerEven fst snd].
    rewrite !quot2_double.
    set (Y := py - (if Map.isStaggerEven m then 2 * (s + l) else s)).
    pose proof (Z.div_mod Y ((s + 2 * l) * 2) ltac:(lia)) as HY1.
    pose proof (Z.mod_pos_bound Y ((s + 2 * l) * 2) ltac:(lia)) as HY2.
    pose proof (Z.div_mod px (w * 2) ltac:(lia)) as HX1.
    pose proof (Z.mod_pos_bound px (w * 2) ltac:(lia)) as HX2.
    replace (Y - Y / ((s + 2 * l) * 2) * ((s + 2 * l) * 2))
      with (Y mod ((s + 2 * l) * 2)) by lia.
    replace (px - px / (w * 2) * (w * 2)) with (px mod (w * 2)) by lia.
    set (refY := Y / ((s + 2 * l) * 2)) in *. set (relY := Y mod ((s + 2 * l) * 2)) in *.
    set (refX := px / (w * 2)) in *. set (relX := px mod (w * 2)) in *.
    clearbody refX relX refY relY.
    match goal with |- context [nearestLoopZ ?rel [?c0; ?c1; ?c2; ?c3] 0 0 None] =>
      remember (nearestLoopZ rel [c0; c1; c2; c3] 0 0 None) as n eqn:En;
      pose proof (nearest4_far rel c0 c1 c2 c3 n En) as [Hn H3]
    end.
    clear En. unfold dist2 in H3. cbn [fst snd] in H3.
    assert (Hpy : py = Y + (if Map.isStaggerEven m then 2 * (s + l) else s)) by (subst Y; lia).
    clearbody Y.
    destruct n as [| [| [| [| n]]]]; [.. | lia];
      cbn [nth offsetsStaggerY]; unfold padd; cbn [fst snd];
      rewrite Hpos; cbn [fst snd];
      rewrite ?Z.even_add, ?Z.even_mul; cbn [Z.even orb andb]; rewrite ?orb_true_r;
      destruct (Map.isStaggerEven m); cbn [Z.even Bool.eqb negb];
      try specialize (H3 eq_refl);
      repeat match goal with |- context [?a <? ?b] => destruct (Z.ltb_spec a b) end;
      split; nia.
Qed.

Section GridComplete.

Variables (p : RenderParams.t) (ws : Workspace.t) (rect : QRect.t) (l : QLine).

Lemma gridColumnX_complete (x px : Z) :
  0 <= tileHeight p + sideLengthY p ->
  forall (fuel : nat) (y py j : Z),
    0 <= j -> (Z.to_nat j < fuel)%nat ->
    py + j * (tileHeight p + sideLengthY p) <= QRect.bottom rect ->
    y + j < Workspace.height ws ->
    In l (gridLinesX p ws (x, y + j) (px, py + j * (tileHeight p + sideLengthY p))) ->
    In l (gridColumnX fuel p ws rect (x, y) (px, py)).
Proof.
  intros Hstep.
  induction fuel as [| fuel IH]; intros y py j Hj Hfuel Hb Hh Hin; [lia |].
  cbn [gridColumnX fst snd].
  assert (G : (py <=? QRect.bottom rect) && (y <? Workspace.height ws) = true).
  { apply andb_true_intro. split; [apply Z.leb_le; nia | apply Z.ltb_lt; lia]. }
  rewrite G. apply in_or_app.
  destruct (Z.eq_dec j 0) as [-> | Hne].
  - left. now rewrite Z.add_0_r, Z.mul_0_l, Z.add_0_r in Hin.
  - right. apply (IH (y + 1) (py + (tileHeight p + sideLengthY p)) (j - 1)); try lia.
    replace (y + 1 + (j - 1)) with (y + j) by lia.
    replace (py + (tileHeight p + sideLengthY p) + (j - 1) * (tileHeight p + sideLengthY p))
      with (py + j * (tileHeight p + sideLengthY p)) by lia.
    exact Hin.
Qed.

Lemma gridSweepX_complete (y py : Z) :
  0 <= tileHeight p + sideLengthY p -> 0 <= columnWidth p ->
  forall (fuel : nat) (x px i j : Z),
    0 <= i -> (Z.to_nat i < fuel)%nat -> 0 <= j ->
    px + i * columnWidth p <= QRect.right rect ->
    py + (if doStaggerX p (x + i) then rowHeight p else 0)
    + j * (tileHeight p + sideLengthY p) <= QRect.bottom rect ->
    x + i < Workspace.width ws -> y + j < Workspace.height ws ->
    In l (gridLinesX p ws (x + i, y + j)
            (px + i * columnWidth p,
             py + (if doStaggerX p (x + i) then rowHeight p else 0)
             + j * (tileHeight p + sideLengthY p))) ->
    In l (gridSweepX fuel p ws rect (x, y) (px, py)).
Proof.
  intros Hstep Hcw.
  induction fuel as [| fuel IH]; intros x px i j Hi Hfuel Hj Hr Hb Hw Hh Hin; [lia |].
  cbn [gridSweepX fst snd].
  assert (G : (px <=? QRect.right rect) && (x <? Workspace.width ws) = true).
  { apply andb_true_intro. split; [apply Z.leb_le; nia | apply Z.ltb_lt; lia]. }
  rewrite G. apply in_or_app.
  destruct (Z.eq_dec i 0) as [-> | Hne].
  - left. rewrite Z.add_0_r, Z.mul_0_l, Z.add_0_r in *.
    assert (Hpos : (if doStaggerX p x then (px, py + rowHeight p) else (px, py))
                   = (px, py + (if doStaggerX p x then rowHeight p else 0)))
      by (destruct (doStaggerX p x); [reflexivity | now rewrite Z.add_0_r]).
    rewrite Hpos.
    apply (gridColumnX_complete x px Hstep _ y _ j); try lia. exact Hin.
  - right. apply (IH (x + 1) (px + columnWidth p) (i - 1) j); try lia.
    + replace (x + 1 + (i - 1)) with (x + i) by lia. exact Hb.
    + replace (x + 1 + (i - 1)) with (x + i) by lia.
      replace (px + columnWidth p + (i - 1) * columnWidth p)
        with (px + i * columnWidth p) by lia.
      exact Hin.
Qed.

Lemma gridRowY_complete (y py : Z) :
  0 <= tileWidth p + sideLengthX p ->
  forall (fuel : nat) (x px i : Z),
    0 <= i -> (Z.to_nat i < fuel)%nat ->
    px + i * (tileWidth p + sideLengthX p) <= QRect.right rect ->
    x + i < Workspace.width ws ->
    In l (gridLinesY p ws (x + i, y) (px + i * (tileWidth p + sideLengthX p), py)) ->
    In l (gridRowY fuel p ws rect (x, y) (px, py)).
Proof.
  intros Hstep.
  induction fuel as [| fuel IH]; intros x px i Hi Hfuel Hr Hw Hin; [lia |].
  cbn [gridRowY fst snd].
  assert (G : (px <=? QRect.right rect) && (x <? Workspace.width ws) = true).
  { apply andb_true_intro. split; [apply Z.leb_le; nia | apply Z.ltb_lt; lia]. }
  rewrite G. apply in_or_app.
  destruct (Z.eq_dec i 0) as [-> | Hne].
  - left. now rewrite Z.add_0_r, Z.mul_0_l, Z.add_0_r in Hin.
  - right. apply (IH (x + 1) (px + (tileWidth p + sideLengthX p)) (i - 1)); try lia.
    replace (x + 1 + (i - 1)) with (x + i) by lia.
    replace (px + (tileWidth p + sideLengthX p) + (i - 1) * (tileWidth p + sideLengthX p))
      with (px + i * (tileWidth p + sideLengthX p)) by lia.
    exact Hin.
Qed.

Lemma gridSweepY_complete (x px : Z) :
  0 <= tileWidth p + sideLengthX p -> 0 <= rowHeight p ->
  forall (fuel : nat) (y py i j : Z),
    0 <= i -> 0 <= j -> (Z.to_nat j < fuel)%nat ->
    px + (if doStaggerY p (y + j) then columnWidth p else 0)
    + i * (tileWidth p + sideLengthX p) <= QRect.right rect ->
    py + j * rowHeight p <= QRect.bottom rect ->
    x + i < Workspace.width ws -> y + j < Workspace.height ws ->
    In l (gridLinesY p ws (x + i, y + j)
            (px + (if doStaggerY p (y + j) then columnWidth p else 0)
             + i * (tileWidth p + sideLengthX p),
             py + j * rowHeight p)) ->
    In l (gridSweepY fuel p ws rect (x, y) (px, py)).
Proof.
  intros Hstep Hrh.
  induction fuel as [| fuel IH]; intros y py i j Hi Hj Hfuel Hr Hb Hw Hh Hin; [lia |].
  cbn [gridSweepY fst snd].
  assert (G : (py <=? QRect.bottom rect) && (y <? Workspace.height ws) = true).
  { apply andb_true_intro. split; [apply Z.leb_le; nia | apply Z.ltb_lt; lia]. }
  rewrite G. apply in_or_app.
  destruct (Z.eq_dec j 0) as [-> | Hne].
  - left. rewrite Z.add_0_r, Z.mul_0_l, Z.add_0_r in *.
    assert (Hpos : (if doStaggerY p y then (px + columnWidth p, py) else (px, py))
                   = (px + (if doStaggerY p y then columnWidth p else 0), py))
      by (destruct (doStaggerY p y); [reflexivity | now rewrite Z.add_0_r]).
    rewrite Hpos.
    apply (gridRowY_complete y py Hstep _ x _ i); try lia. exact Hin.
  - right. apply (IH (y + 1) (py + rowHeight p) i (j - 1)); try lia.
    + replace (y + 1 + (j - 1)) with (y + j) by lia. exact Hr.
    + replace (y + 1 + (j - 1)) with (y + j) by lia.
      replace (py + rowHeight p + (j - 1) * rowHeight p) with (py + j * rowHeight p) by lia.
      exact Hin.
Qed.

End GridComplete.

(** X15: under a validated geometry [drawGrid] draws, for every tile of the
    grid whose rectangle overlaps the aligned exposed rectangle, every line
    that the sweep emits for that tile. *)
Theorem drawGrid_draws_every_visible_tile
    (m : Map.t) (exposed : QRectF.t) (ws : Workspace.t) (t : QPoint) (k : nat) :
  validGeometry m ws ->
  inGrid (Workspace.width ws) (Workspace.height ws) t ->
  let p := RenderParams.new m ws in
  let rect := QRectF.toAlignedRect exposed in
  let pos := tileToScreenCoordsP m ws t in
  QRect.isNull rect = false ->
  fst pos <= QRect.right rect -> QRect.left rect < fst pos + tileWidth p ->
  snd pos <= QRect.bottom rect -> QRect.top rect < snd pos + tileHeight p ->
  In k (if staggerX p then kindsX else kindsY) ->
  (if staggerX p then emitsX else emitsY) p ws t k = true ->
  In (tileEdge m ws t k) (drawGrid m exposed ws).
Proof.
  intros Hv [Htx Hty]. cbv zeta. intros Hnull Hr Hl Hb Ht Hk He.
  destruct t as [tx ty]. cbn [fst snd] in Htx, Hty.
  unfold drawGrid. rewrite Hnull. cbv zeta.
  pose proof (startTile_bound m ws (QRectF.toAlignedRect exposed) Hv) as Hstart.
  cbv zeta in Hstart.
  set (rect := QRectF.toAlignedRect exposed) in *.
  set (p := RenderParams.new m ws) in *.
  match goal with |- context [startTileOf p rect ?a ?b] =>
    set (st := startTileOf p rect a b) in *; clearbody st end.
  set (X := Z.max 0 (fst st)) in *. set (Y := Z.max 0 (snd st)) in *.
  cbn [fst snd].
  rewrite (tileToScreenCoordsP_eq m ws X Y). cbv zeta. fold p.
  rewrite (tileToScreenCoordsP_eq m ws tx ty) in Hr, Hl, Hb, Ht. cbv zeta in Hr, Hl, Hb, Ht.
  fold p in Hr, Hl, Hb, Ht.
  assert (Hedge : In (tileEdge m ws (tx, ty) k)
                     ((if staggerX p then gridLinesX else gridLinesY) p ws (tx, ty)
                        (tileToScreenCoordsP m ws (tx, ty)))).
  { unfold tileEdge. fold p.
    destruct (staggerX p); [rewrite gridLinesX_kinds | rewrite gridLinesY_kinds];
      apply in_map_iff; exists k; (split; [reflexivity |]); apply filter_In; now split. }
  rewrite (tileToScreenCoordsP_eq m ws tx ty) in Hedge. cbv zeta in Hedge. fold p in Hedge.
  subst p.
  destruct (Map.isStaggerX m) eqn:HX.
  - destruct (new_shapeX m ws Hv HX) as (s & l & h & Hs & Hl' & Hsl & Hh & Hnew).
    rewrite Hnew in *. clear Hnew.
    cbn [tileWidth tileHeight sideLengthX sideLengthY sideOffsetX sideOffsetY
         rowHeight columnWidth staggerX staggerEven fst snd] in *.
    destruct Hstart as [SX SY].
    assert (HXle : X <= tx) by nia.
    assert (HYle : Y <= ty).
    { match type of Ht with context [if ?c then _ else _] => destruct c end; nia. }
    match goal with |- In _ (gridSweepX _ ?q _ _ _ ?sp) =>
      assert (Hsp : sp = (X * (s + 2 * l), Y * (2 * h + 0)))
        by (match goal with |- context [if ?c then _ else _] => destruct c end;
            apply (f_equal2 (@pair Z Z)); lia);
      rewrite Hsp;
      assert (H1 : 0 <= tileHeight q + sideLengthY q) by (cbn [tileHeight sideLengthY]; lia);
      assert (H2 : 0 <= columnWidth q) by (cbn [columnWidth]; lia);
      apply (gridSweepX_complete q ws rect _ Y (Y * (2 * h + 0)) H1 H2
               _ X (X * (s + 2 * l)) (tx - X) (ty - Y))
    end; try lia;
      cbn [tileWidth tileHeight sideLengthX sideLengthY sideOffsetX sideOffsetY
           rowHeight columnWidth staggerX staggerEven];
      replace (X + (tx - X)) with tx by lia; replace (Y + (ty - Y)) with ty by lia.
    + match type of Hr with ?a <= _ => replace (X * (s + 2 * l) + (tx - X) * (s + 2 * l)) with a by lia end.
      exact Hr.
    + match type of Hb with ?a <= _ =>
        match goal with |- ?b <= _ => replace b with a by lia end end.
      exact Hb.
    + match goal with |- In _ (gridLinesX _ _ _ ?a) =>
        match type of Hedge with In _ (gridLinesX _ _ _ ?b) =>
          replace a with b by (apply (f_equal2 (@pair Z Z)); lia) end end.
      exact Hedge.
  - destruct (new_shapeY m ws Hv HX) as (s & l & w & Hs & Hl' & Hsl & Hw & Hnew).
    rewrite Hnew in *. clear Hnew.
    cbn [tileWidth tileHeight sideLengthX sideLengthY sideOffsetX sideOffsetY
         rowHeight columnWidth staggerX staggerEven fst snd] in *.
    destruct Hstart as [SX SY].
    assert (HYle : Y <= ty) by nia.
    assert (HXle : X <= tx).
    { match type of Hl with context [if ?c then _ else _] => destruct c end; nia. }
    match goal with |- In _ (gridSweepY _ ?q _ _ _ ?sp) =>
      assert (Hsp : sp = (X * (2 * w + 0), Y * (s + 2 * l)))
        by (match goal with |- context [if ?c then _ else _] => destruct c end;
            apply (f_equal2 (@pair Z Z)); lia);
      rewrite Hsp;
      assert (H1 : 0 <= tileWidth q + sideLengthX q) by (cbn [tileWidth sideLengthX]; lia);
      assert (H2 : 0 <= rowHeight q) by (cbn [rowHeight]; lia);
      apply (gridSweepY_complete q ws rect _ X (X * (2 * w + 0)) H1 H2
               _ Y (Y * (s + 2 * l)) (tx - X) (ty - Y))
    end; try lia;
      cbn [tileWidth tileHeight sideLengthX sideLengthY sideOffsetX sideOffsetY
           rowHeight columnWidth staggerX staggerEven];
      replace (X + (tx - X)) with tx by lia; replace (Y + (ty - Y)) with ty by lia.
    + match type of Hr with ?a <= _ =>
        match goal with |- ?b <= _ => replace b with a by lia end end.
      exact Hr.
    + match type of Hb with ?a <= _ =>
        match goal with |- ?b <= _ => replace b with a by lia end end.
      exact Hb.
    + match goal with |- In _ (gridLinesY _ _ _ ?a) =>
        match type of Hedge with In _ (gridLinesY _ _ _ ?b) =>
          replace a with b by (apply (f_equal2 (@pair Z Z)); lia) end end.
      exact Hedge.
Qed.

Lemma drawGrid_draws_every_visible_tile_witness :
  In (tileEdge scenarioMap scenarioWorkspace (1, 0) 2)
     (drawGrid scenarioMap (QRectF.make (21 # 2) (33 # 2) 40 30) scenarioWorkspace).
Proof.
  apply (drawGrid_draws_every_visible_tile scenarioMap (QRectF.make (21 # 2) (33 # 2) 40 30)
           scenarioWorkspace (1, 0) 2).
  - unfold validGeometry. cbn. repeat split; try reflexivity; lia.
  - unfold inGrid. cbn. lia.
  - reflexivity.
  - vm_compute. discriminate.
  - vm_compute. reflexivity.
  - vm_compute. discriminate.
  - vm_compute. reflexivity.
  - cbn. auto.
  - reflexivity.
Defined.

(** ** The cells of a layer *)

Lemma even_side_pitch (m : Map.t) (ws : Workspace.t) :
  Z.even (Map.hexSideLength m) = true ->
  let p := RenderParams.new m ws in
  tileWidth p + sideLengthX p = 2 * columnWidth p
  /\ tileHeight p + sideLengthY p = 2 * rowHeight p.
Proof.
  intros He. cbv zeta. unfold RenderParams.new.
  cbn [tileWidth tileHeight sideOffsetX sideOffsetY sideLengthX sideLengthY columnWidth rowHeight].
  rewrite !land_not1_even.
  apply Z.even_spec in He. destruct He as [l ->].
  assert (E : forall t, (2 * t - 2 * l) ÷ 2 = t - l).
  { intros t. replace (2 * t - 2 * l) with (2 * (t - l)) by lia. apply quot2_double. }
  assert (E0 : forall t, (2 * t - 0) ÷ 2 = t) by (intros t; rewrite Z.sub_0_r; apply quot2_double).
  destruct (Map.isHexagonal m && Map.isStaggerX m), (Map.isHexagonal m && negb (Map.isStaggerX m));
    rewrite ?E, ?E0; split; lia.
Qed.

Lemma isStaggeredIndex_add2 (p : RenderParams.t) (i k : Z) :
  isStaggeredIndex p (i + 2 * k) = isStaggeredIndex p i.
Proof.
  unfold isStaggeredIndex. rewrite !rem2_even, Z.even_add, Z.even_mul. cbn [Z.even orb].
  destruct (Z.even i); reflexivity.
Qed.

Section LayerSweeps.

Variables (m : Map.t) (layer : TileLayer.t) (rect : QRect.t).

Local Notation "'tws'" := (layerWorkspace layer).
Local Notation "'p'" := (RenderParams.new m (layerWorkspace layer)).
Local Notation "'lx'" := (TileLayer.x layer).
Local Notation "'ly'" := (TileLayer.y layer).

Lemma renderCell_in_place (t : QPoint) (call : RenderCall) :
  TileLayer.contains layer t = true ->
  In call (renderCell tws (TileLayer.cellAt layer t) (cellPlace m layer t)) ->
  rendersCellInPlace m layer call.
Proof.
  intros Hc Hin. unfold renderCell in Hin.
  destruct (cell_isEmpty (TileLayer.cellAt layer t)) eqn:E; cbn [negb] in Hin; [contradiction |].
  destruct Hin as [<- | []]. exists t. cbn [rc_cell rc_pos]. auto.
Qed.

Lemma cellPlace_eq (x y : Z) :
  cellPlace m layer (x, y)
  = if staggerX p
    then ((x + lx) * columnWidth p,
          (y + ly) * (tileHeight p + sideLengthY p)
          + (if doStaggerX p (x + lx) then rowHeight p else 0) + tileHeight p)
    else ((x + lx) * (tileWidth p + sideLengthX p)
          + (if doStaggerY p (y + ly) then columnWidth p else 0),
          (y + ly) * rowHeight p + tileHeight p).
Proof.
  unfold cellPlace, TileLayer.position. unfold padd at 2. cbn [fst snd].
  rewrite tileToScreenCoordsP_eq. cbv zeta.
  destruct (staggerX p); unfold padd; cbn [fst snd]; apply (f_equal2 (@pair Z Z)); lia.
Qed.

Lemma layerRowX_sound (call : RenderCall) :
  forall (fuel : nat) (x y px py : Z),
    In call (layerRowX fuel p layer tws rect (x, y) (px, py)) ->
    exists i, 0 <= i /\ TileLayer.contains layer (x + 2 * i, y) = true
              /\ In call (renderCell tws (TileLayer.cellAt layer (x + 2 * i, y))
                            (px + i * (tileWidth p + sideLengthX p), py)).
Proof.
  induction fuel as [| fuel IH]; intros x y px py Hin; [contradiction |].
  cbn [layerRowX fst snd] in Hin.
  destruct (_ && _); [| contradiction].
  apply in_app_or in Hin. destruct Hin as [Hin | Hin].
  - destruct (TileLayer.contains layer (x, y)) eqn:C; [| contradiction].
    exists 0. rewrite Z.mul_0_r, Z.add_0_r, Z.mul_0_l, Z.add_0_r. auto with zarith.
  - apply IH in Hin. destruct Hin as (i & Hi & Hc & Hin).
    exists (i + 1). split; [lia |].
    replace (x + 2 * (i + 1)) with (x + 2 + 2 * i) by lia.
    replace (px + (i + 1) * (tileWidth p + sideLengthX p))
      with (px + (tileWidth p + sideLengthX p) + i * (tileWidth p + sideLengthX p)) by lia.
    auto.
Qed.

Lemma layerSweepX_sound (call : RenderCall) :
  staggerX p = true ->
  tileWidth p + sideLengthX p = 2 * columnWidth p ->
  forall (fuel : nat) (x y : Z),
    In call (layerSweepX fuel p layer tws rect (x, y) (cellPlace m layer (x, y))
               (doStaggerX p (x + lx))) ->
    rendersCellInPlace m layer call.
Proof.
  intros HX Hpitch.
  pose proof (staggerX_pitch m tws HX) as Hrow. cbv zeta in Hrow.
  induction fuel as [| fuel IH]; intros x y Hin; [contradiction |].
  rewrite cellPlace_eq, HX in Hin.
  cbn [layerSweepX fst snd] in Hin.
  destruct (_ && _); [| contradiction].
  apply in_app_or in Hin. destruct Hin as [Hin | Hin].
  - apply layerRowX_sound in Hin. destruct Hin as (i & Hi & Hc & Hin).
    apply (renderCell_in_place (x + 2 * i, y)); [exact Hc |].
    rewrite cellPlace_eq, HX. unfold doStaggerX in *.
    replace (x + 2 * i + lx) with (x + lx + 2 * i) by lia.
    rewrite isStaggeredIndex_add2.
    replace ((x + lx + 2 * i) * columnWidth p)
      with ((x + lx) * columnWidth p + i * (tileWidth p + sideLengthX p)) by lia.
    exact Hin.
  - unfold doStaggerX in *.
    destruct (isStaggeredIndex p (x + lx)) eqn:E.
    + apply (IH (x - 1) (y + 1)).
      rewrite cellPlace_eq, HX. unfold doStaggerX.
      replace (x - 1 + lx) with (x + lx - 1) by lia.
      rewrite isStaggeredIndex_pred, E. cbn [negb].
      match goal with |- In _ (layerSweepX _ _ _ _ _ _ ?a _) =>
        match type of Hin with In _ (layerSweepX _ _ _ _ _ _ ?b _) =>
          replace a with b by (apply (f_equal2 (@pair Z Z)); lia) end end.
      exact Hin.
    + apply (IH (x + 1) y).
      rewrite cellPlace_eq, HX. unfold doStaggerX.
      replace (x + 1 + lx) with (x + lx + 1) by lia.
      rewrite isStaggeredIndex_succ, E. cbn [negb].
      match goal with |- In _ (layerSweepX _ _ _ _ _ _ ?a _) =>
        match type of Hin with In _ (layerSweepX _ _ _ _ _ _ ?b _) =>
          replace a with b by (apply (f_equal2 (@pair Z Z)); lia) end end.
      exact Hin.
Qed.

Lemma layerRowY_sound (call : RenderCall) :
  forall (fuel : nat) (x y px py : Z),
    In call (layerRowY fuel p layer tws rect (x, y) (px, py)) ->
    exists i, 0 <= i /\ x + i < TileLayer.width layer
              /\ In call (renderCell tws (TileLayer.cellAt layer (x + i, y))
                            (px + i * (tileWidth p + sideLengthX p), py)).
Proof.
  induction fuel as [| fuel IH]; intros x y px py Hin; [contradiction |].
  cbn [layerRowY fst snd] in Hin.
  destruct (_ && _) eqn:G; [| contradiction].
  apply andb_true_iff in G. destruct G as [_ G]. apply Z.ltb_lt in G.
  apply in_app_or in Hin. destruct Hin as [Hin | Hin].
  - exists 0. rewrite Z.add_0_r, Z.mul_0_l, Z.add_0_r. auto with zarith.
  - apply IH in Hin. destruct Hin as (i & Hi & Hc & Hin).
    exists (i + 1). split; [lia |]. split; [lia |].
    replace (x + (i + 1)) with (x + 1 + i) by lia.
    replace (px + (i + 1) * (tileWidth p + sideLengthX p))
      with (px + (tileWidth p + sideLengthX p) + i * (tileWidth p + sideLengthX p)) by lia.
    auto.
Qed.

Lemma layerSweepY_sound (call : RenderCall) :
  staggerX p = false ->
  forall (fuel : nat) (x y : Z),
    0 <= x -> 0 <= y ->
    In call (layerSweepY fuel p layer tws rect (x, y)
               ((x + lx) * (tileWidth p + sideLengthX p), (y + ly) * rowHeight p + tileHeight p)) ->
    rendersCellInPlace m layer call.
Proof.
  intros HX.
  induction fuel as [| fuel IH]; intros x y Hx Hy Hin; [contradiction |].
  cbn [layerSweepY fst snd] in Hin.
  destruct (_ && _) eqn:G; [| contradiction].
  apply andb_true_iff in G. destruct G as [_ G]. apply Z.ltb_lt in G.
  apply in_app_or in Hin. destruct Hin as [Hin | Hin].
  - assert (Hpos : (if doStaggerY p (y + ly)
                    then ((x + lx) * (tileWidth p + sideLengthX p) + columnWidth p,
                          (y + ly) * rowHeight p + tileHeight p)
                    else ((x + lx) * (tileWidth p + sideLengthX p),
                          (y + ly) * rowHeight p + tileHeight p))
                   = ((x + lx) * (tileWidth p + sideLengthX p)
                      + (if doStaggerY p (y + ly) then columnWidth p else 0),
                      (y + ly) * rowHeight p + tileHeight p))
      by (destruct (doStaggerY p (y + ly)); [reflexivity | now rewrite Z.add_0_r]).
    rewrite Hpos in Hin.
    apply layerRowY_sound in Hin. destruct Hin as (i & Hi & Hc & Hin).
    apply (renderCell_in_place (x + i, y)).
    + unfold TileLayer.contains. cbn [fst snd].
      repeat (apply andb_true_intro; split); try apply Z.leb_le; try apply Z.ltb_lt; lia.
    + rewrite cellPlace_eq, HX.
      match goal with |- In _ (renderCell _ _ ?a) =>
        match type of Hin with In _ (renderCell _ _ ?b) =>
          replace a with b by (apply (f_equal2 (@pair Z Z)); lia) end end.
      exact Hin.
  - apply (IH x (y + 1)); [lia | lia |].
    match goal with |- In _ (layerSweepY _ _ _ _ _ _ ?a) =>
      match type of Hin with In _ (layerSweepY _ _ _ _ _ _ ?b) =>
        replace a with b by (apply (f_equal2 (@pair Z Z)); lia) end end.
    exact Hin.
Qed.

End LayerSweeps.

Lemma drawTileLayer_sound
    (m : Map.t) (layer : TileLayer.t) (ws : Workspace.t) (exposed : QRectF.t) :
  Z.even (Map.hexSideLength m) = true ->
  Forall (rendersCellInPlace m layer) (drawTileLayer m layer ws exposed).
Proof.
  intros He. apply Forall_forall. intros call Hin.
  unfold drawTileLayer in Hin. cbv zeta in Hin.
  fold (layerWorkspace layer) in Hin.
  set (p := RenderParams.new m (layerWorkspace layer)) in *.
  match type of Hin with context [startTileOf p ?r ?a ?b] =>
    set (st := startTileOf p r a b) in *; set (rect := r) in * end.
  clearbody st.
  destruct (staggerX p) eqn:HX.
  - set (X := Z.max (-1) (fst st)) in *. set (Y := Z.max (-1) (snd st)) in *.
    eapply (layerSweepX_sound m layer rect call HX
              (proj1 (even_side_pitch m (layerWorkspace layer) He)) _ X Y).
    unfold cellPlace. fold p. unfold padd at 1. cbn [fst snd].
    rewrite Z.add_0_r. exact Hin.
  - set (X := Z.max 0 (fst st)) in *. set (Y := Z.max 0 (snd st)) in *.
    eapply (layerSweepY_sound m layer rect call HX _ X Y); [lia | lia |].
    fold p.
    unfold TileLayer.position in Hin. unfold padd in Hin. cbn [fst snd] in Hin.
    rewrite tileToScreenCoordsP_eq in Hin. cbv zeta in Hin. fold p in Hin. rewrite HX in Hin.
    cbn [fst snd] in Hin.
    match goal with |- In _ (layerSweepY _ _ _ _ _ _ ?a) =>
      match type of Hin with In _ (layerSweepY _ _ _ _ _ _ ?b) =>
        replace a with b
          by (destruct (doStaggerY p (Y + TileLayer.y layer));
              apply (f_equal2 (@pair Z Z)); lia) end end.
    exact Hin.
Qed.

Lemma StronglySorted_app {A : Type} (R : A -> A -> Prop) (l1 l2 : list A) :
  StronglySorted R l1 -> StronglySorted R l2 ->
  (forall a b, In a l1 -> In b l2 -> R a b) ->
  StronglySorted R (l1 ++ l2).
Proof.
  intros H1 H2 H. induction H1 as [| a l1 H1 IH Ha]; [exact H2 |].
  cbn [app]. constructor.
  - apply IH. intros a' b Ha' Hb. apply H; [now right | exact Hb].
  - apply Forall_app. split; [exact Ha |].
    apply Forall_forall. intros b Hb. apply H; [now left | exact Hb].
Qed.

Lemma StronglySorted_NoDup {A : Type} (R : A -> A -> Prop) (l : list A) :
  (forall a, ~ R a a) -> StronglySorted R l -> NoDup l.
Proof.
  intros Hirr H. induction H as [| a l H IH Ha]; constructor; [| exact IH].
  intros Hin. rewrite Forall_forall in Ha. exact (Hirr a (Ha a Hin)).
Qed.

Lemma renderCell_pos (tws : Workspace.t) (cell : Cell) (pos : QPoint) (call : RenderCall) :
  In call (renderCell tws cell pos) -> rc_pos call = pos.
Proof.
  unfold renderCell. destruct (negb (cell_isEmpty cell)); [| contradiction].
  intros [<- | []]. reflexivity.
Qed.

Lemma renderCell_sorted (tws : Workspace.t) (cell : Cell) (pos : QPoint) :
  StronglySorted drawnBefore (List.map rc_pos (renderCell tws cell pos)).
Proof.
  unfold renderCell. destruct (negb (cell_isEmpty cell)); cbn; repeat constructor.
Qed.

Section LayerOrder.

Variables (p : RenderParams.t) (layer : TileLayer.t) (tws : Workspace.t) (rect : QRect.t).

Hypothesis step_pos : 0 < tileWidth p + sideLengthX p.
Hypothesis row_pos : 0 < rowHeight p.

Lemma row_step (px py : Z) (first rest : list RenderCall) :
  (forall call, In call first -> rc_pos call = (px, py)) ->
  StronglySorted drawnBefore (List.map rc_pos first) ->
  rowOrdered (px + (tileWidth p + sideLengthX p)) py rest ->
  rowOrdered px py (first ++ rest).
Proof.
  intros Hfirst Hsorted [Hs Hf]. split.
  - rewrite map_app. apply StronglySorted_app; [exact Hsorted | exact Hs |].
    intros a b Ha Hb. apply in_map_iff in Ha, Hb.
    destruct Ha as (ca & <- & Ha), Hb as (cb & <- & Hb).
    rewrite (Hfirst ca Ha). rewrite Forall_forall in Hf. destruct (Hf cb Hb) as [Hy Hx].
    right. cbn [fst snd]. lia.
  - apply Forall_app. split.
    + apply Forall_forall. intros c Hc. rewrite (Hfirst c Hc). cbn [fst snd]. lia.
    + eapply Forall_impl; [| exact Hf]. cbn beta. intros c [Hy Hx]. lia.
Qed.

Lemma layerRowX_ordered :
  forall (fuel : nat) (rowTile : QPoint) (px py : Z),
    rowOrdered px py (layerRowX fuel p layer tws rect rowTile (px, py)).
Proof.
  induction fuel as [| fuel IH]; intros rowTile px py;
    [split; constructor |].
  cbn [layerRowX fst snd]. destruct (_ && _); [| split; constructor].
  apply row_step; [| | apply IH].
  - intros call Hc. destruct (TileLayer.contains layer rowTile); [| contradiction].
    now apply renderCell_pos in Hc.
  - destruct (TileLayer.contains layer rowTile); [apply renderCell_sorted | constructor].
Qed.

Lemma layerRowY_ordered :
  forall (fuel : nat) (rowTile : QPoint) (px py : Z),
    rowOrdered px py (layerRowY fuel p layer tws rect rowTile (px, py)).
Proof.
  induction fuel as [| fuel IH]; intros rowTile px py;
    [split; constructor |].
  cbn [layerRowY fst snd]. destruct (_ && _); [| split; constructor].
  apply row_step; [| apply renderCell_sorted | apply IH].
  intros call Hc. now apply renderCell_pos in Hc.
Qed.

Lemma sweep_step (px py : Z) (row rest : list RenderCall) :
  rowOrdered px py row -> sweepOrdered (py + rowHeight p) rest ->
  sweepOrdered py (row ++ rest).
Proof.
  intros [Hrs Hrf] [Hs Hf]. split.
  - rewrite map_app. apply StronglySorted_app; [exact Hrs | exact Hs |].
    intros a b Ha Hb. apply in_map_iff in Ha, Hb.
    destruct Ha as (ca & <- & Ha), Hb as (cb & <- & Hb).
    rewrite Forall_forall in Hrf, Hf. destruct (Hrf ca Ha) as [Hy _].
    specialize (Hf cb Hb). left. lia.
  - apply Forall_app. split.
    + eapply Forall_impl; [| exact Hrf]. cbn beta. intros c [Hy _]. lia.
    + eapply Forall_impl; [| exact Hf]. cbn beta. intros c Hy. lia.
Qed.

Lemma layerSweepX_ordered :
  forall (fuel : nat) (startTile : QPoint) (px py : Z) (staggeredRow : bool),
    sweepOrdered py (layerSweepX fuel p layer tws rect startTile (px, py) staggeredRow).
Proof.
  induction fuel as [| fuel IH]; intros startTile px py staggeredRow;
    [split; constructor |].
  cbn [layerSweepX fst snd]. destruct (_ && _); [| split; constructor].
  apply (sweep_step px); [apply layerRowX_ordered |].
  destruct staggeredRow; apply IH.
Qed.

Lemma layerSweepY_ordered :
  forall (fuel : nat) (startTile : QPoint) (px py : Z),
    sweepOrdered py (layerSweepY fuel p layer tws rect startTile (px, py)).
Proof.
  induction fuel as [| fuel IH]; intros startTile px py;
    [split; constructor |].
  cbn [layerSweepY fst snd]. destruct (_ && _); [| split; constructor].
  destruct (doStaggerY p _).
  - apply (sweep_step (px + columnWidth p)); [apply layerRowY_ordered | apply IH].
  - apply (sweep_step px); [apply layerRowY_ordered | apply IH].
Qed.

End LayerOrder.

Lemma drawnBefore_irrefl (a : QPoint) : ~ drawnBefore a a.
Proof. unfold drawnBefore. lia. Qed.

Lemma validGeometry_steps (m : Map.t) (ws : Workspace.t) :
  validGeometry m ws ->
  let p := RenderParams.new m ws in
  0 < tileWidth p + sideLengthX p /\ 0 < tileHeight p + sideLengthY p
  /\ 0 < columnWidth p /\ 0 < rowHeight p
  /\ 0 < tileWidth p /\ 0 < tileHeight p.
Proof.
  intros Hv. cbv zeta. destruct (Map.isStaggerX m) eqn:HX.
  - destruct (new_shapeX m ws Hv HX) as (s & l & h & Hs & Hl & Hsl & Hh & ->).
    cbn [tileWidth tileHeight sideLengthX sideLengthY rowHeight columnWidth]. lia.
  - destruct (new_shapeY m ws Hv HX) as (s & l & w & Hs & Hl & Hsl & Hw & ->).
    cbn [tileWidth tileHeight sideLengthX sideLengthY rowHeight columnWidth]. lia.
Qed.

Lemma drawTileLayer_sorted
    (m : Map.t) (layer : TileLayer.t) (ws : Workspace.t) (exposed : QRectF.t) :
  validGeometry m (layerWorkspace layer) ->
  StronglySorted drawnBefore (List.map rc_pos (drawTileLayer m layer ws exposed))
  /\ NoDup (List.map rc_pos (drawTileLayer m layer ws exposed)).
Proof.
  intros Hv.
  destruct (validGeometry_steps m (layerWorkspace layer) Hv) as (Hstep & _ & _ & Hrow & _).
  assert (Hs : StronglySorted drawnBefore (List.map rc_pos (drawTileLayer m layer ws exposed))).
  { unfold drawTileLayer. cbv zeta. fold (layerWorkspace layer).
    destruct (staggerX _).
    - apply (layerSweepX_ordered _ layer (layerWorkspace layer) _ Hstep Hrow).
    - destruct (doStaggerY _ _);
        apply (layerSweepY_ordered _ layer (layerWorkspace layer) _ Hstep Hrow). }
  split; [exact Hs |].
  exact (StronglySorted_NoDup drawnBefore _ drawnBefore_irrefl Hs).
Qed.

Section LayerWithin.

Variables (p : RenderParams.t) (layer : TileLayer.t) (tws : Workspace.t) (rect : QRect.t).

Lemma layerRowX_within :
  forall (fuel : nat) (rowTile : QPoint) (px py : Z),
    Forall (fun call => fst (rc_pos call) < QRect.right rect /\ snd (rc_pos call) = py)
           (layerRowX fuel p layer tws rect rowTile (px, py)).
Proof.
  induction fuel as [| fuel IH]; intros rowTile px py; [constructor |].
  cbn [layerRowX fst snd]. destruct (_ && _) eqn:G; [| constructor].
  apply andb_true_iff in G. destruct G as [G _]. apply Z.ltb_lt in G.
  apply Forall_app. split; [| apply IH].
  destruct (TileLayer.contains layer rowTile); [| constructor].
  apply Forall_forall. intros call Hc. apply renderCell_pos in Hc. rewrite Hc. cbn [fst snd]. lia.
Qed.

Lemma layerRowY_within :
  forall (fuel : nat) (rowTile : QPoint) (px py : Z),
    Forall (fun call => fst (rc_pos call) < QRect.right rect /\ snd (rc_pos call) = py)
           (layerRowY fuel p layer tws rect rowTile (px, py)).
Proof.
  induction fuel as [| fuel IH]; intros rowTile px py; [constructor |].
  cbn [layerRowY fst snd]. destruct (_ && _) eqn:G; [| constructor].
  apply andb_true_iff in G. destruct G as [G _]. apply Z.ltb_lt in G.
  apply Forall_app. split; [| apply IH].
  apply Forall_forall. intros call Hc. apply renderCell_pos in Hc. rewrite Hc. cbn [fst snd]. lia.
Qed.

Lemma layerSweepX_within :
  forall (fuel : nat) (startTile : QPoint) (px py : Z) (staggeredRow : bool),
    Forall (fun call => fst (rc_pos call) < QRect.right rect
                        /\ snd (rc_pos call) < QRect.bottom rect)
           (layerSweepX fuel p layer tws rect startTile (px, py) staggeredRow).
Proof.
  induction fuel as [| fuel IH]; intros startTile px py staggeredRow; [constructor |].
  cbn [layerSweepX fst snd]. destruct (_ && _) eqn:G; [| constructor].
  apply andb_true_iff in G. destruct G as [G _]. apply Z.ltb_lt in G.
  apply Forall_app. split; [| destruct staggeredRow; apply IH].
  eapply Forall_impl; [| apply layerRowX_within]. cbn beta. intros call [Hx Hy]. lia.
Qed.

Lemma layerSweepY_within :
  forall (fuel : nat) (startTile : QPoint) (px py : Z),
    Forall (fun call => fst (rc_pos call) < QRect.right rect
                        /\ snd (rc_pos call) < QRect.bottom rect)
           (layerSweepY fuel p layer tws rect startTile (px, py)).
Proof.
  induction fuel as [| fuel IH]; intros startTile px py; [constructor |].
  cbn [layerSweepY fst snd]. destruct (_ && _) eqn:G; [| constructor].
  apply andb_true_iff in G. destruct G as [G _]. apply Z.ltb_lt in G.
  apply Forall_app. split; [| apply IH].
  destruct (doStaggerY p _);
    (eapply Forall_impl; [| apply layerRowY_within]); cbn beta; intros call [Hx Hy]; lia.
Qed.

End LayerWithin.

Lemma drawTileLayer_within
    (m : Map.t) (layer : TileLayer.t) (ws : Workspace.t) (exposed : QRectF.t) :
  Forall (fun call => fst (rc_pos call) < QRect.right (sweptRect m layer exposed)
                      /\ snd (rc_pos call) < QRect.bottom (sweptRect m layer exposed))
         (drawTileLayer m layer ws exposed).
Proof.
  unfold drawTileLayer. cbv zeta. fold (layerWorkspace layer).
  change (QRect.adjust _ _ _ _ _) with (sweptRect m layer exposed).
  destruct (staggerX _).
  - apply layerSweepX_within.
  - destruct (doStaggerY _ _); apply layerSweepY_within.
Qed.

(** X16: when the side length is even, every call of [drawTileLayer] renders
    the cell of a tile of the layer, a cell that is not empty, at the
    bottom-left corner of that tile, left of the right edge and above the
    bottom edge of the swept rectangle. *)
Theorem drawTileLayer_renders_cells_in_place
    (m : Map.t) (layer : TileLayer.t) (ws : Workspace.t) (exposed : QRectF.t) :
  Z.even (Map.hexSideLength m) = true ->
  Forall (fun call =>
            rendersCellInPlace m layer call
            /\ fst (rc_pos call) < QRect.right (sweptRect m layer exposed)
            /\ snd (rc_pos call) < QRect.bottom (sweptRect m layer exposed))
         (drawTileLayer m layer ws exposed).
Proof.
  intros He.
  pose proof (drawTileLayer_sound m layer ws exposed He) as H1.
  pose proof (drawTileLayer_within m layer ws exposed) as H2.
  rewrite Forall_forall in *. intros call Hin. split; [now apply H1 | now apply H2].
Qed.

Lemma drawTileLayer_renders_cells_in_place_witness :
  Forall (fun call =>
            rendersCellInPlace scenarioMap untiledLayer call
            /\ fst (rc_pos call) < QRect.right (sweptRect scenarioMap untiledLayer wholeScreen)
            /\ snd (rc_pos call) < QRect.bottom (sweptRect scenarioMap untiledLayer wholeScreen))
         (drawTileLayer scenarioMap untiledLayer scenarioWorkspace wholeScreen).
Proof.
  apply (drawTileLayer_renders_cells_in_place scenarioMap untiledLayer scenarioWorkspace
           wholeScreen).
  reflexivity.
Defined.

(** X17: under a validated geometry the calls of [drawTileLayer] are in the
    order of the painter, from top to bottom and from left to right on one
    level, and no two are at the same position. *)
Theorem drawTileLayer_draws_top_to_bottom
    (m : Map.t) (layer : TileLayer.t) (ws : Workspace.t) (exposed : QRectF.t) :
  validGeometry m (layerWorkspace layer) ->
  StronglySorted drawnBefore (List.map rc_pos (drawTileLayer m layer ws exposed))
  /\ NoDup (List.map rc_pos (drawTileLayer m layer ws exposed)).
Proof. exact (drawTileLayer_sorted m layer ws exposed). Qed.

Lemma drawTileLayer_draws_top_to_bottom_witness :
  StronglySorted drawnBefore
    (List.map rc_pos (drawTileLayer scenarioMap untiledLayer scenarioWorkspace wholeScreen))
  /\ NoDup (List.map rc_pos
              (drawTileLayer scenarioMap untiledLayer scenarioWorkspace wholeScreen)).
Proof.
  apply (drawTileLayer_draws_top_to_bottom scenarioMap untiledLayer scenarioWorkspace
           wholeScreen).
  unfold validGeometry. cbn. repeat split; try reflexivity; lia.
Defined.

Lemma nearest4_lt4 (rel c0 c1 c2 c3 : QPoint) (n : nat) :
  n = nearestLoopZ rel [c0; c1; c2; c3] 0 0 None -> (n < 4)%nat.
Proof.
  intros ->. cbn [nearestLoopZ].
  repeat match goal with |- context [?a <? ?b] => destruct (a <? b) end; lia.
Qed.

Lemma screenToTileCoords_before (m : Map.t) (ws : Workspace.t) (px py a b : Z) :
  validGeometry m ws ->
  let p := RenderParams.new m ws in
  (if staggerX p
   then px <= (a - 4) * columnWidth p /\ py <= (2 * b - 3) * rowHeight p
   else px <= (2 * a - 3) * columnWidth p /\ py <= (b - 4) * rowHeight p) ->
  fst (screenToTileCoordsP m ws (px, py)) <= a - 1
  /\ snd (screenToTileCoordsP m ws (px, py)) <= b - 1.
Proof.
  intros Hv. cbv zeta. rewrite screenToTileCoordsP_Z.
  unfold screenToTileCoordsZ, centers.
  destruct (Map.isStaggerX m) eqn:HX.
  - destruct (new_shapeX m ws Hv HX) as (s & l & h & Hs & Hl & Hsl & Hh & ->).
    cbn [tileWidth tileHeight sideLengthX sideLengthY sideOffsetX sideOffsetY
         rowHeight columnWidth staggerX staggerEven fst snd].
    intros [Hpx Hpy].
    set (X := px - (if Map.isStaggerEven m then 2 * (s + l) else s)).
    pose proof (Z.mul_div_le X ((s + 2 * l) * 2) ltac:(lia)) as HX1.
    pose proof (Z.mul_div_le py (h * 2) ltac:(lia)) as HY1.
    match goal with |- context [nearestLoopZ ?rel [?c0; ?c1; ?c2; ?c3] 0 0 None] =>
      remember (nearestLoopZ rel [c0; c1; c2; c3] 0 0 None) as n eqn:En;
      pose proof (nearest4_lt4 rel c0 c1 c2 c3 n En) as Hn
    end.
    clear En.
    set (refX := X / ((s + 2 * l) * 2)) in *.
    set (refY := py / (h * 2)) in *.
    clearbody refX refY.
    assert (HXle : X <= (a - 4) * (s + 2 * l)) by (subst X; destruct (Map.isStaggerEven m); lia).
    assert (2 * refX <= a - 4)
      by (apply (Z.mul_le_mono_pos_l _ _ (s + 2 * l)); lia).
    assert (2 * refY <= 2 * b - 3)
      by (apply (Z.mul_le_mono_pos_l _ _ h); lia).
    destruct n as [| [| [| [| n]]]]; [.. | lia];
      cbn [nth offsetsStaggerX]; unfold padd; cbn [fst snd];
      destruct (Map.isStaggerEven m); lia.
  - destruct (new_shapeY m ws Hv HX) as (s & l & w & Hs & Hl & Hsl & Hw & ->).
    cbn [tileWidth tileHeight sideLengthX sideLengthY sideOffsetX sideOffsetY
         rowHeight columnWidth staggerX staggerEven fst snd].
    intros [Hpx Hpy].
    set (Y := py - (if Map.isStaggerEven m then 2 * (s + l) else s)).
    pose proof (Z.mul_div_le Y ((s + 2 * l) * 2) ltac:(lia)) as HY1.
    pose proof (Z.mul_div_le px (w * 2) ltac:(lia)) as HX1.
    match goal with |- context [nearestLoopZ ?rel [?c0; ?c1; ?c2; ?c3] 0 0 None] =>
      remember (nearestLoopZ rel [c0; c1; c2; c3] 0 0 None) as n eqn:En;
      pose proof (nearest4_lt4 rel c0 c1 c2 c3 n En) as Hn
    end.
    clear En.
    set (refY := Y / ((s + 2 * l) * 2)) in *.
    set (refX := px / (w * 2)) in *.
    clearbody refX refY.
    assert (HYle : Y <= (b - 4) * (s + 2 * l)) by (subst Y; destruct (Map.isStaggerEven m); lia).
    assert (2 * refY <= b - 4)
      by (apply (Z.mul_le_mono_pos_l _ _ (s + 2 * l)); lia).
    assert (2 * refX <= 2 * a - 3)
      by (apply (Z.mul_le_mono_pos_l _ _ w); lia).
    destruct n as [| [| [| [| n]]]]; [.. | lia];
      cbn [nth offsetsStaggerY]; unfold padd; cbn [fst snd];
      destruct (Map.isStaggerEven m); lia.
Qed.

Lemma boundingRect_origin (m : Map.t) (ws : Workspace.t) (r : QRect.t) :
  let p := RenderParams.new m ws in
  let b := boundingRect m ws r in
  0 <= columnWidth p -> 0 <= rowHeight p ->
  if staggerX p
  then QRect.x b = QRect.x r * columnWidth p
       /\ QRect.y b <= QRect.y r * (tileHeight p + sideLengthY p) + rowHeight p
  else QRect.x b <= QRect.x r * (tileWidth p + sideLengthX p) + columnWidth p
       /\ QRect.y b = QRect.y r * rowHeight p.
Proof.
  cbv zeta. intros Hc Hr. unfold boundingRect. cbv zeta.
  unfold QRect.topLeft. rewrite tileToScreenCoordsP_eq. cbv zeta.
  unfold QRect.x, QRect.y.
  destruct (staggerX _).
  - destruct (1 <? _); destruct (doStaggerX _ _); unfold QRect.make;
      cbn [QRect.x1 QRect.y1 fst snd]; split; lia.
  - destruct (1 <? _); destruct (doStaggerY _ _); unfold QRect.make;
      cbn [QRect.x1 QRect.y1 fst snd]; split; lia.
Qed.

Section LayerComplete.

Variables (m : Map.t) (layer : TileLayer.t) (rect : QRect.t).

Local Notation "'tws'" := (layerWorkspace layer).
Local Notation "'p'" := (RenderParams.new m (layerWorkspace layer)).
Local Notation "'lx'" := (TileLayer.x layer).
Local Notation "'ly'" := (TileLayer.y layer).

Hypothesis step_pos : 0 < tileWidth p + sideLengthX p.
Hypothesis row_pos : 0 < rowHeight p.

Lemma layerRowX_complete (call : RenderCall) (y py : Z) :
  forall (fuel : nat) (x px i : Z),
    0 <= i -> (Z.to_nat i < fuel)%nat ->
    px + i * (tileWidth p + sideLengthX p) < QRect.right rect ->
    x + 2 * i < TileLayer.width layer ->
    TileLayer.contains layer (x + 2 * i, y) = true ->
    In call (renderCell tws (TileLayer.cellAt layer (x + 2 * i, y))
               (px + i * (tileWidth p + sideLengthX p), py)) ->
    In call (layerRowX fuel p layer tws rect (x, y) (px, py)).
Proof.
  induction fuel as [| fuel IH]; intros x px i Hi Hfuel Hright Hwidth Hc Hin; [lia |].
  cbn [layerRowX fst snd].
  assert (G : (px <? QRect.right rect) && (x <? TileLayer.width layer) = true).
  { apply andb_true_intro. split; apply Z.ltb_lt; nia. }
  rewrite G. apply in_or_app.
  destruct (Z.eq_dec i 0) as [-> | Hne].
  - left. rewrite Z.mul_0_r, Z.add_0_r in Hc, Hin. rewrite Z.mul_0_l, Z.add_0_r in Hin.
    now rewrite Hc.
  - right. apply (IH (x + 2) (px + (tileWidth p + sideLengthX p)) (i - 1)); try lia.
    + replace (x + 2 + 2 * (i - 1)) with (x + 2 * i) by lia. exact Hc.
    + replace (x + 2 + 2 * (i - 1)) with (x + 2 * i) by lia.
      replace (px + (tileWidth p + sideLengthX p) + (i - 1) * (tileWidth p + sideLengthX p))
        with (px + i * (tileWidth p + sideLengthX p)) by lia.
      exact Hin.
Qed.

Lemma layerRowY_complete (call : RenderCall) (y py : Z) :
  forall (fuel : nat) (x px i : Z),
    0 <= i -> (Z.to_nat i < fuel)%nat ->
    px + i * (tileWidth p + sideLengthX p) < QRect.right rect ->
    x + i < TileLayer.width layer ->
    In call (renderCell tws (TileLayer.cellAt layer (x + i, y))
               (px + i * (tileWidth p + sideLengthX p), py)) ->
    In call (layerRowY fuel p layer tws rect (x, y) (px, py)).
Proof.
  induction fuel as [| fuel IH]; intros x px i Hi Hfuel Hright Hwidth Hin; [lia |].
  cbn [layerRowY fst snd].
  assert (G : (px <? QRect.right rect) && (x <? TileLayer.width layer) = true).
  { apply andb_true_intro. split; apply Z.ltb_lt; nia. }
  rewrite G. apply in_or_app.
  destruct (Z.eq_dec i 0) as [-> | Hne].
  - left. rewrite Z.add_0_r in Hin. now rewrite Z.mul_0_l, Z.add_0_r in Hin.
  - right. apply (IH (x + 1) (px + (tileWidth p + sideLengthX p)) (i - 1)); try lia.
    replace (x + 1 + (i - 1)) with (x + i) by lia.
    replace (px + (tileWidth p + sideLengthX p) + (i - 1) * (tileWidth p + sideLengthX p))
      with (px + i * (tileWidth p + sideLengthX p)) by lia.
    exact Hin.
Qed.

Lemma layerSweepX_complete (call : RenderCall) (tx ty : Z) :
  staggerX p = true ->
  tileWidth p + sideLengthX p = 2 * columnWidth p ->
  TileLayer.contains layer (tx, ty) = true ->
  fst (cellPlace m layer (tx, ty)) < QRect.right rect ->
  snd (cellPlace m layer (tx, ty)) < QRect.bottom rect ->
  In call (renderCell tws (TileLayer.cellAt layer (tx, ty)) (cellPlace m layer (tx, ty))) ->
  forall (fuel : nat) (x y : Z),
    x + (if doStaggerX p (x + lx) then 0 else 1) <= tx + 1 ->
    y < ty \/ (y = ty /\ (Z.even (tx - x) = true \/ doStaggerX p (x + lx) = false)) ->
    (Z.to_nat (2 * (ty - y) + 2 - (if doStaggerX p (x + lx) then 1 else 0)) <= fuel)%nat ->
    In call (layerSweepX fuel p layer tws rect (x, y) (cellPlace m layer (x, y))
               (doStaggerX p (x + lx))).
Proof.
  intros HX Hpitch Hc Hright Hbottom Hin.
  pose proof (staggerX_pitch m tws HX) as Hrow. cbv zeta in Hrow.
  assert (Hwidth : tx < TileLayer.width layer /\ ty < TileLayer.height layer).
  { unfold TileLayer.contains in Hc. cbn [fst snd] in Hc.
    apply andb_true_iff in Hc. destruct Hc as [Hc H4]. apply andb_true_iff in Hc.
    destruct Hc as [Hc H3]. apply Z.ltb_lt in H3, H4. lia. }
  rewrite cellPlace_eq, HX in Hright, Hbottom. cbn [fst snd] in Hright, Hbottom.
  induction fuel as [| fuel IH]; intros x y HJ Hahead Hfuel.
  { exfalso. destruct (doStaggerX p (x + lx)); lia. }
  rewrite (cellPlace_eq m layer x y), HX.
  cbn [layerSweepX fst snd].
  assert (Hpar : Z.even (tx - x) = true -> doStaggerX p (tx + lx) = doStaggerX p (x + lx)).
  { intros He. apply Z.even_spec in He. destruct He as [k Hk]. unfold doStaggerX.
    replace (tx + lx) with (x + lx + 2 * k) by lia. apply isStaggeredIndex_add2. }
  assert (G : ((y + ly) * (tileHeight p + sideLengthY p)
               + (if doStaggerX p (x + lx) then rowHeight p else 0) + tileHeight p
               <? QRect.bottom rect)
              && (y <? TileLayer.height layer) = true).
  { apply andb_true_intro. split; apply Z.ltb_lt; [| lia].
    destruct Hahead as [Hlt | [-> [He | Hs]]].
    - destruct (doStaggerX p (x + lx)), (doStaggerX p (tx + lx)); nia.
    - rewrite <- (Hpar He). lia.
    - rewrite Hs. destruct (doStaggerX p (tx + lx)); lia. }
  rewrite G. apply in_or_app.
  destruct (Z.eq_dec y ty) as [Hy | Hy];
    [destruct (Z.even (tx - x)) eqn:He |].
  - (* the row of the tile *)
    left. subst y. pose proof (Hpar eq_refl) as Hs.
    apply Z.even_spec in He. destruct He as [i Hi].
    assert (0 <= i) by (destruct (doStaggerX p (x + lx)); lia).
    apply (layerRowX_complete call ty _ _ x _ i); try lia.
    + replace (x + 2 * i) with tx by lia. exact Hc.
    + replace (x + 2 * i) with tx by lia.
      rewrite cellPlace_eq, HX in Hin. rewrite Hs in Hin.
      match goal with |- In _ (renderCell _ _ ?a) =>
        match type of Hin with In _ (renderCell _ _ ?b) =>
          replace a with b by (apply (f_equal2 (@pair Z Z)); nia) end end.
      exact Hin.
  - (* the row of the tile, on the columns of the other parity *)
    right. subst y.
    destruct Hahead as [Hlt | [_ [He' | Hs]]]; [lia | congruence |].
    rewrite Hs in *.
    specialize (IH (x + 1) ty).
    unfold doStaggerX in IH, Hs. replace (x + 1 + lx) with (x + lx + 1) in IH by lia.
    rewrite isStaggeredIndex_succ, Hs in IH. cbn [negb] in IH.
    rewrite (cellPlace_eq m layer (x + 1) ty), HX in IH. unfold doStaggerX in IH.
    replace (x + 1 + lx) with (x + lx + 1) in IH by lia.
    rewrite isStaggeredIndex_succ, Hs in IH. cbn [negb] in IH.
    match goal with |- In _ (layerSweepX _ _ _ _ _ _ ?a _) =>
      match type of IH with _ -> _ -> _ -> In _ (layerSweepX _ _ _ _ _ _ ?b _) =>
        replace a with b by (apply (f_equal2 (@pair Z Z)); lia) end end.
    apply IH; [lia | | lia].
    right. split; [reflexivity |]. left.
    rewrite Z.even_sub in He |- *. rewrite Z.even_add. cbn [Z.even].
    destruct (Z.even tx), (Z.even x); cbn in *; congruence.
  - (* a row above the tile *)
    right. assert (Hlt : y < ty) by (destruct Hahead as [? | [? _]]; [assumption | contradiction]).
    unfold doStaggerX in *.
    destruct (isStaggeredIndex p (x + lx)) eqn:Hs.
    + specialize (IH (x - 1) (y + 1)).
      replace (x - 1 + lx) with (x + lx - 1) in IH by lia.
      rewrite isStaggeredIndex_pred, Hs in IH. cbn [negb] in IH.
      rewrite (cellPlace_eq m layer (x - 1) (y + 1)), HX in IH. unfold doStaggerX in IH.
      replace (x - 1 + lx) with (x + lx - 1) in IH by lia.
      rewrite isStaggeredIndex_pred, Hs in IH. cbn [negb] in IH.
      match goal with |- In _ (layerSweepX _ _ _ _ _ _ ?a _) =>
        match type of IH with _ -> _ -> _ -> In _ (layerSweepX _ _ _ _ _ _ ?b _) =>
          replace a with b by (apply (f_equal2 (@pair Z Z)); lia) end end.
      apply IH; [lia | | lia].
      destruct (Z.eq_dec (y + 1) ty); [right; auto | left; lia].
    + specialize (IH (x + 1) y).
      replace (x + 1 + lx) with (x + lx + 1) in IH by lia.
      rewrite isStaggeredIndex_succ, Hs in IH. cbn [negb] in IH.
      rewrite (cellPlace_eq m layer (x + 1) y), HX in IH. unfold doStaggerX in IH.
      replace (x + 1 + lx) with (x + lx + 1) in IH by lia.
      rewrite isStaggeredIndex_succ, Hs in IH. cbn [negb] in IH.
      match goal with |- In _ (layerSweepX _ _ _ _ _ _ ?a _) =>
        match type of IH with _ -> _ -> _ -> In _ (layerSweepX _ _ _ _ _ _ ?b _) =>
          replace a with b by (apply (f_equal2 (@pair Z Z)); lia) end end.
      apply IH; [lia | left; lia | lia].
Qed.

Lemma layerSweepY_complete (call : RenderCall) (tx ty : Z) :
  staggerX p = false ->
  TileLayer.contains layer (tx, ty) = true ->
  fst (cellPlace m layer (tx, ty)) < QRect.right rect ->
  snd (cellPlace m layer (tx, ty)) < QRect.bottom rect ->
  In call (renderCell tws (TileLayer.cellAt layer (tx, ty)) (cellPlace m layer (tx, ty))) ->
  forall (fuel : nat) (x y : Z),
    x <= tx -> y <= ty -> (Z.to_nat (ty - y) < fuel)%nat ->
    In call (layerSweepY fuel p layer tws rect (x, y)
               ((x + lx) * (tileWidth p + sideLengthX p),
                (y + ly) * rowHeight p + tileHeight p)).
Proof.
  intros HX Hc Hright Hbottom Hin.
  assert (Hwidth : tx < TileLayer.width layer /\ ty < TileLayer.height layer).
  { unfold TileLayer.contains in Hc. cbn [fst snd] in Hc.
    apply andb_true_iff in Hc. destruct Hc as [Hc H4]. apply andb_true_iff in Hc.
    destruct Hc as [Hc H3]. apply Z.ltb_lt in H3, H4. lia. }
  rewrite cellPlace_eq, HX in Hright, Hbottom, Hin. cbn [fst snd] in Hright, Hbottom.
  induction fuel as [| fuel IH]; intros x y Hx Hy Hfuel; [lia |].
  cbn [layerSweepY fst snd].
  assert (G : ((y + ly) * rowHeight p + tileHeight p <? QRect.bottom rect)
              && (y <? TileLayer.height layer) = true).
  { apply andb_true_intro. split; apply Z.ltb_lt; [nia | lia]. }
  rewrite G. apply in_or_app.
  destruct (Z.eq_dec y ty) as [-> | Hne].
  - left.
    assert (Hpos : (if doStaggerY p (ty + ly)
                    then ((x + lx) * (tileWidth p + sideLengthX p) + columnWidth p,
                          (ty + ly) * rowHeight p + tileHeight p)
                    else ((x + lx) * (tileWidth p + sideLengthX p),
                          (ty + ly) * rowHeight p + tileHeight p))
                   = ((x + lx) * (tileWidth p + sideLengthX p)
                      + (if doStaggerY p (ty + ly) then columnWidth p else 0),
                      (ty + ly) * rowHeight p + tileHeight p))
      by (destruct (doStaggerY p (ty + ly)); [reflexivity | now rewrite Z.add_0_r]).
    rewrite Hpos.
    apply (layerRowY_complete call ty _ _ x _ (tx - x)); try lia.
    replace (x + (tx - x)) with tx by lia.
    match goal with |- In _ (renderCell _ _ ?a) =>
      match type of Hin with In _ (renderCell _ _ ?b) =>
        replace a with b by (apply (f_equal2 (@pair Z Z)); lia) end end.
    exact Hin.
  - right. specialize (IH x (y + 1)).
    match goal with |- In _ (layerSweepY _ _ _ _ _ _ ?a) =>
      match type of IH with _ -> _ -> _ -> In _ (layerSweepY _ _ _ _ _ _ ?b) =>
        replace a with b by (apply (f_equal2 (@pair Z Z)); lia) end end.
    apply IH; lia.
Qed.

End LayerComplete.

Lemma NoDup_map_eq {A B : Type} (f : A -> B) (l : list A) (a b : A) :
  NoDup (List.map f l) -> In a l -> In b l -> f a = f b -> a = b.
Proof.
  induction l as [| c l IH]; intros Hnd Ha Hb Hf; [contradiction |].
  cbn [List.map] in Hnd. inversion Hnd as [| ? ? Hnot Hnd']; subst.
  destruct Ha as [-> | Ha], Hb as [-> | Hb]; auto.
  - exfalso. apply Hnot. rewrite Hf. now apply in_map.
  - exfalso. apply Hnot. rewrite <- Hf. now apply in_map.
Qed.

Lemma drawTileLayer_complete
    (m : Map.t) (layer : TileLayer.t) (ws : Workspace.t) (exposed : QRectF.t)
    (t : QPoint) (call : RenderCall) :
  validGeometry m (layerWorkspace layer) ->
  coversLayer m layer exposed ->
  TileLayer.contains layer t = true ->
  In call (renderCell (layerWorkspace layer) (TileLayer.cellAt layer t) (cellPlace m layer t)) ->
  In call (drawTileLayer m layer ws exposed).
Proof.
  intros Hv Hcov Hc Hin. destruct t as [tx ty].
  destruct (validGeometry_steps m (layerWorkspace layer) Hv)
    as (Hstep & Hstep' & Hcw & Hrow & Htw & Hth).
  assert (Heven : Z.even (Map.hexSideLength m) = true) by (destruct Hv as (_ & _ & _ & _ & He & _); exact He).
  destruct (even_side_pitch m (layerWorkspace layer) Heven) as [Hpx Hpy]. cbv zeta in Hpx, Hpy.
  assert (Hin_layer : 0 <= tx < TileLayer.width layer /\ 0 <= ty < TileLayer.height layer).
  { unfold TileLayer.contains in Hc. cbn [fst snd] in Hc.
    apply andb_true_iff in Hc. destruct Hc as [Hc H4]. apply andb_true_iff in Hc.
    destruct Hc as [Hc H3]. apply andb_true_iff in Hc. destruct Hc as [H1 H2].
    apply Z.leb_le in H1, H2. apply Z.ltb_lt in H3, H4. lia. }
  unfold coversLayer in Hcov. cbv zeta in Hcov.
  destruct Hcov as (HL & HT & HR & HB).
  (* the place of the tile is inside the swept rectangle *)
  assert (Hxr : QRect.left (TileLayer.bounds layer)
                <= fst (padd (tx, ty) (TileLayer.position layer))
                <= QRect.right (TileLayer.bounds layer)) by (cbn; lia).
  assert (Hyr : QRect.top (TileLayer.bounds layer)
                <= snd (padd (tx, ty) (TileLayer.position layer))
                <= QRect.bottom (TileLayer.bounds layer)) by (cbn; lia).
  pose proof (tiles_within_boundingRect m (layerWorkspace layer) (TileLayer.bounds layer)
                (padd (tx, ty) (TileLayer.position layer)) 4 Hv Hxr Hyr) as B4.
  pose proof (tiles_within_boundingRect m (layerWorkspace layer) (TileLayer.bounds layer)
                (padd (tx, ty) (TileLayer.position layer)) 6 Hv Hxr Hyr) as B6.
  cbv zeta in B4, B6. unfold octAt, oct in B4, B6.
  cbn [Nat.modulo Nat.divmod Nat.sub nth] in B4, B6.
  assert (Hright : fst (cellPlace m layer (tx, ty)) < QRect.right (sweptRect m layer exposed)).
  { unfold cellPlace.
    set (pos := tileToScreenCoordsP m (layerWorkspace layer)
                  (padd (tx, ty) (TileLayer.position layer))) in *.
    unfold padd in *. cbn [fst snd] in *. lia. }
  assert (Hbottom : snd (cellPlace m layer (tx, ty)) < QRect.bottom (sweptRect m layer exposed)).
  { unfold cellPlace.
    set (pos := tileToScreenCoordsP m (layerWorkspace layer)
                  (padd (tx, ty) (TileLayer.position layer))) in *.
    unfold padd in *. cbn [fst snd] in *. lia. }
  clear B4 B6.
  (* the tile at which the sweep starts *)
  pose proof (boundingRect_origin m (layerWorkspace layer) (TileLayer.bounds layer)
                ltac:(lia) ltac:(lia)) as Horigin.
  cbv zeta in Horigin.
  change (QRect.x (TileLayer.bounds layer)) with (TileLayer.x layer) in Horigin.
  change (QRect.y (TileLayer.bounds layer)) with (TileLayer.y layer) in Horigin.
  pose proof (screenToTileCoords_before m (layerWorkspace layer)
                (QRect.left (sweptRect m layer exposed)) (QRect.top (sweptRect m layer exposed))
                (TileLayer.x layer) (TileLayer.y layer) Hv) as Hstart.
  cbv zeta in Hstart.
  unfold drawTileLayer. cbv zeta. fold (layerWorkspace layer).
  change (QRect.adjust _ _ _ _ _) with (sweptRect m layer exposed).
  set (rect := sweptRect m layer exposed) in *.
  change (QRect.topLeft rect) with (QRect.left rect, QRect.top rect).
  set (s0 := screenToTileCoordsP m (layerWorkspace layer) (QRect.left rect, QRect.top rect)) in *.
  match goal with |- context [startTileOf ?q rect ?a ?b] =>
    assert (Hst : fst (startTileOf q rect a b) <= fst s0 - TileLayer.x layer
                  /\ snd (startTileOf q rect a b) <= snd s0 - TileLayer.y layer)
      by (unfold startTileOf, psub, TileLayer.position; cbn [fst snd];
          split; match goal with |- context [if ?c then _ else _] => destruct c end; lia);
    set (st := startTileOf q rect a b) in *; clearbody st
  end.
  set (p := RenderParams.new m (layerWorkspace layer)) in *.
  destruct (staggerX p) eqn:HX.
  - destruct Horigin as [Ox Oy].
    destruct Hstart as [Sx Sy]; [split; nia |].
    replace (Z.max (-1) (fst st)) with (-1) by lia.
    replace (Z.max (-1) (snd st)) with (-1) by lia.
    pose proof (layerSweepX_complete m layer rect Hstep Hrow call tx ty HX Hpx Hc Hright Hbottom Hin
                  (Z.to_nat (2 * (TileLayer.height layer - -1))) (-1) (-1)) as Hsweep.
    fold p in Hsweep.
    unfold cellPlace in Hsweep at 1. fold p in Hsweep. unfold padd at 1 in Hsweep.
    cbn [fst snd] in Hsweep. rewrite Z.add_0_r in Hsweep.
    apply Hsweep.
    + destruct (doStaggerX p (-1 + TileLayer.x layer)); lia.
    + left. lia.
    + destruct (doStaggerX p (-1 + TileLayer.x layer)); lia.
  - destruct Horigin as [Ox Oy].
    destruct Hstart as [Sx Sy]; [split; nia |].
    replace (Z.max 0 (fst st)) with 0 by lia.
    replace (Z.max 0 (snd st)) with 0 by lia.
    pose proof (layerSweepY_complete m layer rect Hstep Hrow call tx ty HX Hc Hright Hbottom Hin
                  (Z.to_nat (TileLayer.height layer - 0)) 0 0
                  ltac:(lia) ltac:(lia) ltac:(lia)) as Hsweep.
    fold p in Hsweep.
    unfold TileLayer.position. unfold padd. cbn [fst snd].
    rewrite tileToScreenCoordsP_eq. cbv zeta. fold p. rewrite HX. cbn [fst snd].
    match goal with |- In _ (layerSweepY _ _ _ _ _ _ ?a) =>
      match type of Hsweep with In _ (layerSweepY _ _ _ _ _ _ ?b) =>
        replace a with b
          by (destruct (doStaggerY p (0 + TileLayer.y layer));
              apply (f_equal2 (@pair Z Z)); lia) end end.
    exact Hsweep.
Qed.

(** X18: under a validated geometry, when the swept rectangle covers the
    layer, every cell of the layer that is not empty is rendered at the place
    of its tile, by exactly one call. *)
Theorem drawTileLayer_renders_every_cell
    (m : Map.t) (layer : TileLayer.t) (ws : Workspace.t) (exposed : QRectF.t) (t : QPoint) :
  validGeometry m (layerWorkspace layer) ->
  coversLayer m layer exposed ->
  TileLayer.contains layer t = true ->
  cell_isEmpty (TileLayer.cellAt layer t) = false ->
  exists call,
    In call (drawTileLayer m layer ws exposed)
    /\ rc_cell call = TileLayer.cellAt layer t
    /\ rc_pos call = cellPlace m layer t
    /\ forall call', In call' (drawTileLayer m layer ws exposed) ->
                     rc_pos call' = cellPlace m layer t -> call' = call.
Proof.
  intros Hv Hcov Hc Hcell.
  assert (Hone : exists call,
             renderCell (layerWorkspace layer) (TileLayer.cellAt layer t) (cellPlace m layer t)
             = [call]
             /\ rc_cell call = TileLayer.cellAt layer t /\ rc_pos call = cellPlace m layer t).
  { unfold renderCell. rewrite Hcell. cbn [negb]. eexists. split; [reflexivity |]. split; reflexivity. }
  destruct Hone as (call & Hcall & Hcell' & Hpos).
  assert (Hin : In call (drawTileLayer m layer ws exposed)).
  { apply (drawTileLayer_complete m layer ws exposed t call Hv Hcov Hc).
    rewrite Hcall. now left. }
  exists call. repeat split; auto.
  intros call' Hin' Hpos'.
  apply (NoDup_map_eq rc_pos (drawTileLayer m layer ws exposed));
    [exact (proj2 (drawTileLayer_sorted m layer ws exposed Hv)) | exact Hin' | exact Hin |].
  now rewrite Hpos, Hpos'.
Qed.

Lemma drawTileLayer_renders_every_cell_witness :
  let exposed := QRectF.make (-200) (-200) 800 800 in
  exists call,
    In call (drawTileLayer scenarioMap untiledLayer scenarioWorkspace exposed)
    /\ rc_cell call = TileLayer.cellAt untiledLayer (2, 1)
    /\ rc_pos call = cellPlace scenarioMap untiledLayer (2, 1)
    /\ forall call', In call' (drawTileLayer scenarioMap untiledLayer scenarioWorkspace exposed) ->
                     rc_pos call' = cellPlace scenarioMap untiledLayer (2, 1) -> call' = call.
Proof.
  apply (drawTileLayer_renders_every_cell scenarioMap untiledLayer scenarioWorkspace
           (QRectF.make (-200) (-200) 800 800) (2, 1)).
  - unfold validGeometry. cbn. repeat split; try reflexivity; lia.
  - unfold coversLayer. vm_compute. repeat split; discriminate.
  - reflexivity.
  - reflexivity.
Defined.

(** ** The flags of the clipboard manager *)

(** X19: after [update] the two flags are what the clipboard offers,
    whatever they were; [hasMapChanged] and [hasPropertiesChanged] are
    emitted, in this order, for exactly the flags that changed; an [update]
    that follows with the same clipboard changes and emits nothing. *)
Theorem clipboard_update_tracks_formats
    (PROPERTIES_MIMETYPE : string) (mimeData : option ClipboardManager.QMimeData)
    (self : ClipboardManager.t) :
  let hasMap :=
    match mimeData with
    | Some data => data ClipboardManager.TMX_MIMETYPE | None => false end in
  let hasProperties :=
    match mimeData with Some data => data PROPERTIES_MIMETYPE | None => false end in
  let after := fst (ClipboardManager.update PROPERTIES_MIMETYPE mimeData self) in
  let emitted := snd (ClipboardManager.update PROPERTIES_MIMETYPE mimeData self) in
  after = ClipboardManager.make hasMap hasProperties
  /\ emitted
     = (if Bool.eqb hasMap (ClipboardManager.mHasMap self)
        then [] else [ClipboardManager.hasMapChanged])
       ++ (if Bool.eqb hasProperties (ClipboardManager.mHasProperties self)
           then [] else [ClipboardManager.hasPropertiesChanged])
  /\ ClipboardManager.update PROPERTIES_MIMETYPE mimeData after = (after, []).
Proof.
  cbv zeta. unfold ClipboardManager.update.
  destruct self as [hm hp]. cbn [ClipboardManager.mHasMap ClipboardManager.mHasProperties].
  destruct mimeData as [data |].
  - destruct (data ClipboardManager.TMX_MIMETYPE), (data PROPERTIES_MIMETYPE), hm, hp;
      cbn; repeat split; reflexivity.
  - destruct hm, hp; cbn; repeat split; reflexivity.
Qed.
